(** * smooth-scroll: velocity/dampening engine and drift-free scheduler

    A shallow embedding of the algorithmic core of [smooth-scroll.c]:
    the configuration clamp of [main], the input-rate ring buffer
    ([rate_record], [rate_compute]), the dampening curve
    ([compute_scale]), the per-axis decay/emission step ([emit_axis]),
    the impulse path of the event loop with its force-emit fallback, the
    pass-through of other events and the absolute-time rescheduling of
    the timer; and of its set-up code: the device auto-detection
    ([find_scroll_device]) and the requests that build the virtual
    device ([create_uinput_device]).

    Number model.  Every finite C [double] is a rational number, so
    [double] values are embedded as [Q].  Two readings of the arithmetic
    are given.

    - Exact: [clamp_config], [rate_compute], [compute_scale],
      [emit_axis] and what is built on them compute without rounding
      (the square root over [R]), and C [int], [long] and [int64_t]
      values are unbounded [Z].  This reading carries the properties of
      the control flow, of the event stream and of the integer carry,
      which do not depend on the last bit of a double.

    - Binary64: [round64] rounds a rational to the nearest double (ties
      to even, subnormals included), [sqrt64] is the correctly rounded
      square root and [int_of_double] is the conversion [(int)x] with
      its 32-bit range.  [emit_axis_b64], [inject_b64],
      [rate_compute_b64] and [compute_scale_b64] apply one rounding per
      C operation, in the order the source evaluates them.  This reading carries the
      properties in which a rounding, a subnormal or an overflowing
      cast decides an order relation, a threshold test or a written
      integer.

    What [atof] can return besides a finite double, an infinity or a
    NaN, is modelled where the clamp of [main] meets it ([parsed],
    [clamp_arguments]).  Doubles beyond the largest finite double are
    not represented in [Q]: a statement about [round64] holds of the
    code as long as no intermediate result overflows to an infinity
    ([in_range] says so of one result).
    Signed overflow of the integer carry is undefined behaviour in C
    and is assumed not to occur (the carry stays near the 120-unit
    boundary, clock values stay far below 2^63). *)

From Stdlib Require Import String.
From Stdlib Require Import ZArith QArith Qabs Qround Qpower Qreduction Qreals Reals List Bool Lia Psatz.
From Stdlib Require Import Sorted.
Import ListNotations.

Local Open Scope Z_scope.
Local Open Scope Q_scope.

(** ** Arithmetic of the embedding *)

(** C comparisons on doubles, as booleans. *)
Definition Qltb (x y : Q) : bool := negb (Qle_bool y x).
Definition Qgeb (x y : Q) : bool := Qle_bool y x.

(** [fabs]. *)
Definition fabs (x : Q) : Q := Qabs x.

(** The conversion [(int)x] of a double whose whole part fits an [int]:
    the fractional part is discarded, that is, the value is truncated
    toward zero.  [int_of_double] below adds the range. *)
Definition trunc (x : Q) : Z := Z.quot (Qnum x) (Zpos (Qden x)).

Fixpoint qpow (q : Q) (n : nat) : Q :=
  match n with
  | O => 1
  | S k => q * qpow q k
  end.

(** ** Double precision *)

(** [2^e], for any integer [e]. *)
Definition pow2 (e : Z) : Q := 2 ^ e.

(** The binary exponent of a positive rational: the [k] with
    [2^k <= x < 2^(k+1)].  The difference of the bit lengths of
    numerator and denominator is that exponent or one more. *)
Definition ilog2 (x : Q) : Z :=
  let k := (Z.log2 (Qnum x) - Z.log2 (Zpos (Qden x)))%Z in
  if Qle_bool (pow2 k) x then k else (k - 1)%Z.

(** The nearest integer, a tie going to the even one. *)
Definition rint (y : Q) : Z :=
  let f := Qfloor y in
  let r := y - inject_Z f in
  if Qltb r (1 # 2) then f
  else if Qltb (1 # 2) r then (f + 1)%Z
  else if Z.even f then f else (f + 1)%Z.

(** The exponent of the last bit of the double nearest to a positive
    [x]: 52 places below the leading bit, and never below 2^-1074, the
    spacing of the subnormal numbers. *)
Definition ulp_exp (x : Q) : Z := Z.max (ilog2 x - 52) (-1074).

Definition round_pos (x : Q) : Q :=
  inject_Z (rint (x / pow2 (ulp_exp x))) * pow2 (ulp_exp x).

(** The result of one arithmetic operation on doubles: the exact result
    rounded to the nearest binary64 number, ties to even (the default
    rounding mode).  Results beyond the largest finite double, which the
    hardware turns into an infinity, are not represented. *)
Definition round64 (x : Q) : Q :=
  if Qltb 0 x then Qred (round_pos (Qred (Qabs x)))
  else if Qltb x 0 then Qred (- round_pos (Qred (Qabs x)))
  else 0.

(** The rationals that are doubles: at most 53 significant bits above
    the subnormal spacing. *)
Definition representable (x : Q) : Prop :=
  exists m e : Z, (Z.abs m <= 2 ^ 53)%Z /\ (-1074 <= e)%Z /\
                  x == inject_Z m * pow2 e.

(** [sqrt] on a double: the square root, correctly rounded.  The integer
    square root of [x * 2^1200] has more than 60 bits for every positive
    double [x]; half a unit is added when it is not exact, so that the
    rounding sees on which side of a midpoint the root lies.  ([sqrt] of
    a negative number is a NaN; [compute_scale] never asks for one.) *)
Definition sqrt64 (x : Q) : Q :=
  if Qle_bool x 0 then 0
  else
    let y := x * pow2 1200 in
    let n := Qfloor y in
    let r := Z.sqrt n in
    let exact := ((r * r =? n)%Z && Qle_bool y (inject_Z n)) in
    round64 ((inject_Z r + (if exact then 0 else 1 # 2)) * pow2 (-600)).

Definition INT_MIN : Z := -2147483648.
Definition INT_MAX : Z := 2147483647.

(** The conversion [(int)x] with the range of a 32-bit [int].  When the
    whole part does not fit, C leaves the result undefined; the
    conversion instruction of x86-64 ([cvttsd2si]) then delivers
    [INT_MIN], which is what the model returns. *)
Definition int_of_double (x : Q) : Z :=
  let z := trunc x in
  if ((INT_MIN <=? z) && (z <=? INT_MAX))%Z then z else INT_MIN.

(** ** Constants *)

Definition DEFAULT_FRICTION : Q := 78 # 1000.
Definition DEFAULT_TICK_MS : Z := 4.
Definition DEFAULT_LOW_RATE : Q := 5.
Definition DEFAULT_HIGH_RATE : Q := 30.
Definition DEFAULT_MIN_SCALE : Q := 3 # 10.
Definition DEFAULT_STOP_THRESHOLD : Q := 5 # 10.
Definition DEFAULT_MULTIPLIER : Q := 5 # 10.

Definition HIRES_PER_TICK : Z := 120.
Definition RATE_RING_SIZE : Z := 128.
Definition RATE_WINDOW_NS : Z := 300000000.

(** Event types and codes of the kernel input ABI
    ([linux/input-event-codes.h]). *)
Definition EV_SYN : Z := 0.
Definition EV_REL : Z := 2.
Definition SYN_REPORT : Z := 0.
Definition REL_HWHEEL : Z := 6.
Definition REL_WHEEL : Z := 8.
Definition REL_WHEEL_HI_RES : Z := 11.
Definition REL_HWHEEL_HI_RES : Z := 12.

(** ** Configuration *)

(** [struct config]; the device path plays no part in the engine. *)
Record config := mkConfig {
  friction : Q;
  tick_ms : Z;
  low_rate : Q;
  high_rate : Q;
  min_scale : Q;
  stop_threshold : Q;
  multiplier : Q;
  verbose : bool
}.

Definition default_config : config :=
  mkConfig DEFAULT_FRICTION DEFAULT_TICK_MS DEFAULT_LOW_RATE DEFAULT_HIGH_RATE
           DEFAULT_MIN_SCALE DEFAULT_STOP_THRESHOLD DEFAULT_MULTIPLIER false.

(** The block "Clamp configuration to sane ranges" of [main]: six
    consecutive [if] statements over three of the fields. *)
Definition clamp_config (c : config) : config :=
  let f := friction c in
  let f := if Qltb f (1 # 100) then 1 # 100 else f in
  let f := if Qltb (2 # 10) f then 2 # 10 else f in
  let t := tick_ms c in
  let t := if (t <? 1)%Z then 1%Z else t in
  let t := if (t >? 50)%Z then 50%Z else t in
  let m := multiplier c in
  let m := if Qltb m (1 # 100) then 1 # 100 else m in
  let m := if Qltb 10 m then 10 else m in
  mkConfig f t (low_rate c) (high_rate c) (min_scale c) (stop_threshold c) m
           (verbose c).

(** The ranges of the data model, as the specification lists them. *)
Definition spec_ranges (c : config) : Prop :=
  (1 # 100 < friction c /\ friction c <= 2 # 10) /\
  (0 < tick_ms c <= 50)%Z /\
  low_rate c < high_rate c /\
  (0 < min_scale c /\ min_scale c <= 1) /\
  0 < stop_threshold c /\
  (1 # 100 < multiplier c /\ multiplier c <= 10).

(** The command line [--low-rate 40 --min-scale 5 --stop-threshold -1]. *)
Definition cfg_unvalidated : config :=
  mkConfig DEFAULT_FRICTION DEFAULT_TICK_MS 40 DEFAULT_HIGH_RATE 5 (-1)
           DEFAULT_MULTIPLIER false.

(** *** The arguments as parsed *)

(** What [atof] returns: a finite double, an infinity (for "inf" or a
    decimal beyond the range of double) or a NaN (for "nan"). *)
Inductive parsed :=
| Finite (q : Q)
| Infinite (negative : bool)
| NaN.

(** [x < y] on such values ([x > y] is [y < x]): an ordered comparison
    with a NaN on either side is false. *)
Definition parsed_lt (x y : parsed) : bool :=
  match x, y with
  | NaN, _ | _, NaN => false
  | Finite a, Finite b => Qltb a b
  | Finite _, Infinite negative => negb negative
  | Infinite negative, Finite _ => negative
  | Infinite n1, Infinite n2 => n1 && negb n2
  end.

(** The fields of [struct config] as the option loop of [main] leaves
    them: the doubles come from [atof], the tick interval from [atoi]. *)
Record arguments := mkArgs {
  arg_friction : parsed;
  arg_tick_ms : Z;
  arg_low_rate : parsed;
  arg_high_rate : parsed;
  arg_min_scale : parsed;
  arg_stop_threshold : parsed;
  arg_multiplier : parsed;
  arg_verbose : bool
}.

(** The pair of [if] statements that [main] applies to a double field:
    [if (x < lo) x = lo; if (x > hi) x = hi;]. *)
Definition clamp_double (lo hi : Q) (x : parsed) : parsed :=
  let x := if parsed_lt x (Finite lo) then Finite lo else x in
  if parsed_lt (Finite hi) x then Finite hi else x.

(** The block "Clamp configuration to sane ranges" of [main] on the
    parsed values.  The literals [0.01] and [0.2] are the doubles nearest
    to these decimals; [10.0] is a double. *)
Definition clamp_arguments (c : arguments) : arguments :=
  let f := clamp_double (round64 (1 # 100)) (round64 (2 # 10))
                        (arg_friction c) in
  let t := arg_tick_ms c in
  let t := if (t <? 1)%Z then 1%Z else t in
  let t := if (t >? 50)%Z then 50%Z else t in
  let m := clamp_double (round64 (1 # 100)) 10 (arg_multiplier c) in
  mkArgs f t (arg_low_rate c) (arg_high_rate c) (arg_min_scale c)
         (arg_stop_threshold c) m (arg_verbose c).

(** A configuration made of finite doubles only. *)
Definition finite_arguments (c : config) : arguments :=
  mkArgs (Finite (friction c)) (tick_ms c) (Finite (low_rate c))
         (Finite (high_rate c)) (Finite (min_scale c))
         (Finite (stop_threshold c)) (Finite (multiplier c)) (verbose c).

(** What the two [if] statements establish for one field: the value is
    inside [lo, hi], unless it is the NaN it was. *)
Definition clamped_to (lo hi : Q) (before after : parsed) : Prop :=
  match before with
  | NaN => after = NaN
  | _ => exists q, after = Finite q /\ lo <= q /\ q <= hi
  end.

(** The command line [--friction nan]. *)
Definition args_nan_friction : arguments :=
  mkArgs NaN DEFAULT_TICK_MS (Finite DEFAULT_LOW_RATE)
         (Finite DEFAULT_HIGH_RATE) (Finite DEFAULT_MIN_SCALE)
         (Finite DEFAULT_STOP_THRESHOLD) (Finite DEFAULT_MULTIPLIER) false.

(** ** Input-rate ring buffer *)

(** [struct rate_tracker]: a fixed array of nanosecond timestamps with a
    write position and a fill count. *)
Record rate_tracker := mkRate {
  timestamps : list Z;
  head : Z;
  count : Z
}.

(** Array read and write.  The source indexes only inside the array;
    outside it the model reads 0 and writes nothing. *)
Definition array_get (a : list Z) (i : Z) : Z := nth (Z.to_nat i) a 0%Z.

Fixpoint array_set_nat (a : list Z) (i : nat) (v : Z) : list Z :=
  match a, i with
  | [], _ => []
  | _ :: tl, O => v :: tl
  | x :: tl, S j => x :: array_set_nat tl j v
  end.

Definition array_set (a : list Z) (i : Z) (v : Z) : list Z :=
  array_set_nat a (Z.to_nat i) v.

(** A zero-initialised tracker, as in [struct axis_state vert = {0}]. *)
Definition rate_zero : rate_tracker :=
  mkRate (repeat 0%Z (Z.to_nat RATE_RING_SIZE)) 0 0.

Definition rate_record (rt : rate_tracker) (ts : Z) : rate_tracker :=
  mkRate (array_set (timestamps rt) (head rt) ts)
         (Z.rem (head rt + 1) RATE_RING_SIZE)
         (if (count rt <? RATE_RING_SIZE)%Z then (count rt + 1)%Z else count rt).

(** One iteration of the scan loop of [rate_compute], on the pair of
    locals [(n, oldest)]. *)
Definition rate_scan_step (rt : rate_tracker) (cutoff : Z)
    (acc : Z * Z) (i : Z) : Z * Z :=
  let '(n, oldest) := acc in
  let idx := Z.rem (head rt - 1 - i + RATE_RING_SIZE) RATE_RING_SIZE in
  let t := array_get (timestamps rt) idx in
  if (t >=? cutoff)%Z
  then ((n + 1)%Z, if (t <? oldest)%Z then t else oldest)
  else (n, oldest).

(** The values of the loop counter: [0 .. count-1]. *)
Definition scan_indices (rt : rate_tracker) : list Z :=
  map Z.of_nat (seq 0 (Z.to_nat (count rt))).

Definition NS_PER_SEC : Q := 1000000000.

Definition rate_compute (rt : rate_tracker) (now : Z) : Q :=
  let cutoff := (now - RATE_WINDOW_NS)%Z in
  let '(n, oldest) :=
    fold_left (rate_scan_step rt cutoff) (scan_indices rt) (0%Z, now) in
  if (n <? 2)%Z then 0
  else
    let window_sec := inject_Z (now - oldest) / NS_PER_SEC in
    if Qltb window_sec (1 # 1000000) then 0
    else inject_Z n / window_sec.

(** The time stamps that the scan of [rate_compute] visits: the [count]
    most recent entries of the ring, newest first. *)
Definition retained (rt : rate_tracker) : list Z :=
  map (fun i => array_get (timestamps rt)
                  (Z.rem (head rt - 1 - i + RATE_RING_SIZE) RATE_RING_SIZE))
      (scan_indices rt).

(** Those within the trailing window of [now]. *)
Definition in_window (now : Z) (l : list Z) : list Z :=
  filter (fun t => (now - RATE_WINDOW_NS <=? t)%Z) l.

(** The oldest of a non-empty list of time stamps. *)
Definition oldest_of (w : list Z) : Z :=
  match w with
  | [] => 0%Z
  | t :: rest => fold_right Z.min t rest
  end.

(** Seconds from the oldest time stamp in the window to [now]. *)
Definition elapsed_sec (rt : rate_tracker) (now : Z) : Q :=
  inject_Z (now - oldest_of (in_window now (retained rt))) / NS_PER_SEC.

Definition count_in_window (rt : rate_tracker) (now : Z) : Z :=
  Z.of_nat (length (in_window now (retained rt))).

(** The rate in the words of the specification: count over elapsed
    seconds, and 0 with fewer than two samples in the window. *)
Definition rate_spec (rt : rate_tracker) (now : Z) : Q :=
  if (count_in_window rt now <? 2)%Z then 0
  else inject_Z (count_in_window rt now) / elapsed_sec rt now.

(** The tracker after recording the time stamps of [h], oldest first. *)
Definition recorded (h : list Z) : rate_tracker :=
  fold_left rate_record h rate_zero.

(** What recording maintains: the array keeps its size, [head] is the
    number of recordings modulo the size, [count] saturates at the size,
    and the entry [i] places behind [head] is the [i]-th most recent
    time stamp. *)
Definition ring_inv (rt : rate_tracker) (h : list Z) : Prop :=
  length (timestamps rt) = Z.to_nat RATE_RING_SIZE /\
  head rt = (Z.of_nat (length h) mod RATE_RING_SIZE)%Z /\
  count rt = Z.min (Z.of_nat (length h)) RATE_RING_SIZE /\
  forall i : nat,
    (Z.of_nat i < count rt)%Z ->
    array_get (timestamps rt)
      (Z.rem (head rt - 1 - Z.of_nat i + RATE_RING_SIZE) RATE_RING_SIZE) =
    nth i (rev h) 0%Z.

(** Two impulses 500 ns apart, the second one being [now]. *)
Definition burst : rate_tracker :=
  rate_record (rate_record rate_zero 1000) 1500.

(** Three impulses 10 ms apart: a rate of 150 per second. *)
Definition steady : rate_tracker :=
  rate_record (rate_record (rate_record rate_zero 1000000000) 1010000000)
              1020000000.

(** ** Dampening curve *)

(** [compute_scale].  The rate and the thresholds are doubles, hence
    rationals; the square root is the real one. *)
Definition compute_scale (input_rate : R) (cfg : config) : R :=
  if Rle_dec input_rate (Q2R (low_rate cfg)) then 1%R
  else if Rle_dec (Q2R (high_rate cfg)) input_rate then Q2R (min_scale cfg)
  else
    let t := ((input_rate - Q2R (low_rate cfg)) /
              (Q2R (high_rate cfg) - Q2R (low_rate cfg)))%R in
    (1 - (1 - Q2R (min_scale cfg)) * sqrt t)%R.

(** The interpolation of the transition band, as a function on all of
    the reals. *)
Definition band (cfg : config) (r : R) : R :=
  (1 - (1 - Q2R (min_scale cfg)) *
       sqrt ((r - Q2R (low_rate cfg)) /
             (Q2R (high_rate cfg) - Q2R (low_rate cfg))))%R.

(** ** Output events *)

(** [struct input_event] without its time stamp. *)
Record input_event := mkEvent {
  ev_type : Z;
  ev_code : Z;
  ev_value : Z
}.

(** [write_event] and [write_syn] append to the stream sent to the
    virtual device; a failed [write] is reported and otherwise ignored,
    so the stream records the writes that were issued. *)
Definition write_event (type code value : Z) : list input_event :=
  [mkEvent type code value].

Definition write_syn : list input_event := write_event EV_SYN SYN_REPORT 0.

Definition coarse_event (lowres_code dir : Z) : input_event :=
  mkEvent EV_REL lowres_code dir.

Definition is_scroll_code (code : Z) : bool :=
  (code =? REL_WHEEL)%Z || (code =? REL_HWHEEL)%Z ||
  (code =? REL_WHEEL_HI_RES)%Z || (code =? REL_HWHEEL_HI_RES)%Z.

(** ** Axis state and the emission step *)

Record axis_state := mkAxis {
  velocity : Q;
  emit_accum : Q;
  lowres_accum : Z;
  rate : rate_tracker
}.

Definition axis_zero : axis_state := mkAxis 0 0 0 rate_zero.

(** The two [while] loops of [emit_axis].  Each iteration moves the carry
    by 120 toward zero, so [fuel] iterations suffice when [fuel] is at
    least the magnitude of the carry. *)
Fixpoint drain_up (fuel : nat) (lowres_code : Z) (acc : Z)
    : Z * list input_event :=
  match fuel with
  | O => (acc, [])
  | S k =>
      if (acc >=? HIRES_PER_TICK)%Z
      then let '(a, out) := drain_up k lowres_code (acc - HIRES_PER_TICK) in
           (a, write_event EV_REL lowres_code 1 ++ out)
      else (acc, [])
  end.

Fixpoint drain_down (fuel : nat) (lowres_code : Z) (acc : Z)
    : Z * list input_event :=
  match fuel with
  | O => (acc, [])
  | S k =>
      if (acc <=? - HIRES_PER_TICK)%Z
      then let '(a, out) := drain_down k lowres_code (acc + HIRES_PER_TICK) in
           (a, write_event EV_REL lowres_code (-1) ++ out)
      else (acc, [])
  end.

Definition drain (lowres_code : Z) (acc : Z) : Z * list input_event :=
  let fuel := Z.abs_nat acc in
  let '(a1, out1) := drain_up fuel lowres_code acc in
  let '(a2, out2) := drain_down fuel lowres_code a1 in
  (a2, out1 ++ out2).

(** The local [lowres_code] of [emit_axis]. *)
Definition lowres_code_of (hires_code : Z) : Z :=
  if (hires_code =? REL_WHEEL_HI_RES)%Z then REL_WHEEL else REL_HWHEEL.

(** [emit_axis]: the return value, the axis after the call and the
    events written. *)
Definition emit_axis (a : axis_state) (hires_code : Z) (cfg : config)
    : bool * axis_state * list input_event :=
  if Qltb (fabs (velocity a)) (stop_threshold cfg)
  then (false, mkAxis 0 0 0 (rate a), [])
  else
    let old_vel := velocity a in
    let vel := old_vel * (1 - friction cfg) in
    let emit := old_vel - vel in
    let accum := emit_accum a + emit in
    let emit_int := trunc accum in
    let accum := accum - inject_Z emit_int in
    if negb (emit_int =? 0)%Z
    then
      let lowres_code := lowres_code_of hires_code in
      let '(lowres, coarse) := drain lowres_code (lowres_accum a + emit_int) in
      (true, mkAxis vel accum lowres (rate a),
       write_event EV_REL hires_code emit_int ++ coarse)
    else (false, mkAxis vel accum (lowres_accum a) (rate a), []).

(** ** Impulse path of the event loop *)

(** [int dir = (axis->velocity > 0) ? 1 : -1]. *)
Definition force_dir (a : axis_state) : Z :=
  if Qltb 0 (velocity a) then 1%Z else (-1)%Z.

(** [axis->velocity += raw * scale * cfg.multiplier]: the axis on which
    [emit_axis] then runs. *)
Definition injected (a : axis_state) (raw scale : Q) (cfg : config)
    : axis_state :=
  mkAxis (velocity a + raw * scale * multiplier cfg)
         (emit_accum a) (lowres_accum a) (rate a).

(** The force-emit block of [main], entered when [emit_axis] wrote
    nothing and the velocity is still at or above the stop threshold. *)
Definition force_emit (a : axis_state) (hc : Z)
    : axis_state * list input_event :=
  let dir := force_dir a in
  (mkAxis (velocity a - inject_Z dir) 0 (lowres_accum a + dir) (rate a),
   write_event EV_REL hc dir).

(** The [if (axis)] block of [main] from the velocity update on.  [scale]
    is the double that [compute_scale] returned for this impulse. *)
Definition inject (a : axis_state) (hc : Z) (raw scale : Q) (cfg : config)
    : axis_state * list input_event :=
  let '(did_emit, a2, out) := emit_axis (injected a raw scale cfg) hc cfg in
  if negb did_emit && Qgeb (fabs (velocity a2)) (stop_threshold cfg)
  then let '(a3, forced) := force_emit a2 hc in
       (a3, out ++ forced ++ write_syn)
  else (a2, if did_emit then out ++ write_syn else out).

(** The same block from [rate_record] on: the time stamp is recorded,
    then the impulse is injected. *)
Definition on_impulse (a : axis_state) (hc : Z) (raw : Q) (ts : Z)
    (scale : Q) (cfg : config) : axis_state * list input_event :=
  let a0 := mkAxis (velocity a) (emit_accum a) (lowres_accum a)
                   (rate_record (rate a) ts) in
  inject a0 hc raw scale cfg.

(** The rate that [main] passes to [compute_scale] for an impulse
    stamped [ts]. *)
Definition impulse_rate (a : axis_state) (ts : Z) : Q :=
  rate_compute (rate_record (rate a) ts) ts.

(** What happens to one axis: a timer tick, or an impulse. *)
Inductive axis_op :=
| Tick
| Impulse (raw : Q) (ts : Z) (scale : Q).

Definition axis_step (cfg : config) (hc : Z) (a : axis_state) (op : axis_op)
    : axis_state * list input_event :=
  match op with
  | Tick => let '(_, a', out) := emit_axis a hc cfg in (a', out)
  | Impulse raw ts scale => on_impulse a hc raw ts scale cfg
  end.

Fixpoint axis_run (cfg : config) (hc : Z) (a : axis_state)
    (ops : list axis_op) : axis_state * list input_event :=
  match ops with
  | [] => (a, [])
  | op :: rest =>
      let '(a1, out1) := axis_step cfg hc a op in
      let '(a2, out2) := axis_run cfg hc a1 rest in
      (a2, out1 ++ out2)
  end.

(** One timer tick on an axis. *)
Definition tick (cfg : config) (hc : Z) (a : axis_state) : axis_state :=
  snd (fst (emit_axis a hc cfg)).

(** The axis after [n] timer ticks without input. *)
Fixpoint ticks (cfg : config) (hc : Z) (n : nat) (a : axis_state)
    : axis_state :=
  match n with
  | O => a
  | S k => ticks cfg hc k (tick cfg hc a)
  end.

(** States an axis can be in when the loop is between two events. *)
Inductive reachable (cfg : config) (hc : Z) : axis_state -> Prop :=
| reach_zero : reachable cfg hc axis_zero
| reach_step a op :
    reachable cfg hc a -> reachable cfg hc (fst (axis_step cfg hc a op)).

(** One hi-res impulse of four units on a resting axis (the first impulse
    of a gesture, for which the curve gives scale 1), then six timer
    ticks, all with the default configuration. *)
Definition coasting : axis_state :=
  ticks default_config REL_WHEEL_HI_RES 6
    (fst (axis_step default_config REL_WHEEL_HI_RES axis_zero
            (Impulse 4 1000 1))).

(** A small gesture: one hi-res impulse of four units, then eight timer
    ticks, by which time the axis has come to rest. *)
Definition gesture : list axis_op :=
  [Impulse 4 1000 1; Tick; Tick; Tick; Tick; Tick; Tick; Tick; Tick].

(** ** The engine in double arithmetic *)

(** A configuration whose decimal fields have been read as doubles, as
    the compiler reads the defaults and [atof] the options. *)
Definition as_doubles (c : config) : config :=
  mkConfig (round64 (friction c)) (tick_ms c) (round64 (low_rate c))
           (round64 (high_rate c)) (round64 (min_scale c))
           (round64 (stop_threshold c)) (round64 (multiplier c)) (verbose c).

Definition default_config_b64 : config := as_doubles default_config.

(** [rate_compute]: the scan is integer arithmetic; the two divisions
    are rounded, after the conversions [(double)(now - oldest)] and
    [(double)n]. *)
Definition rate_compute_b64 (rt : rate_tracker) (now : Z) : Q :=
  let cutoff := (now - RATE_WINDOW_NS)%Z in
  let '(n, oldest) :=
    fold_left (rate_scan_step rt cutoff) (scan_indices rt) (0%Z, now) in
  if (n <? 2)%Z then 0
  else
    let window_sec :=
      round64 (round64 (inject_Z (now - oldest)) / NS_PER_SEC) in
    if Qltb window_sec (round64 (1 # 1000000)) then 0
    else round64 (round64 (inject_Z n) / window_sec).

(** [compute_scale], one rounding per operation. *)
Definition compute_scale_b64 (input_rate : Q) (cfg : config) : Q :=
  if Qle_bool input_rate (low_rate cfg) then 1
  else if Qle_bool (high_rate cfg) input_rate then min_scale cfg
  else
    let t := round64 (round64 (input_rate - low_rate cfg) /
                      round64 (high_rate cfg - low_rate cfg)) in
    round64 (1 - round64 (round64 (1 - min_scale cfg) * sqrt64 t)).

(** [emit_axis], one rounding per operation and the cast with its
    range.  The carry is still an unbounded integer. *)
Definition emit_axis_b64 (a : axis_state) (hires_code : Z) (cfg : config)
    : bool * axis_state * list input_event :=
  if Qltb (fabs (velocity a)) (stop_threshold cfg)
  then (false, mkAxis 0 0 0 (rate a), [])
  else
    let old_vel := velocity a in
    let vel := round64 (old_vel * round64 (1 - friction cfg)) in
    let emit := round64 (old_vel - vel) in
    let accum := round64 (emit_accum a + emit) in
    let emit_int := int_of_double accum in
    let accum := round64 (accum - inject_Z emit_int) in
    if negb (emit_int =? 0)%Z
    then
      let lowres_code := lowres_code_of hires_code in
      let '(lowres, coarse) := drain lowres_code (lowres_accum a + emit_int) in
      (true, mkAxis vel accum lowres (rate a),
       write_event EV_REL hires_code emit_int ++ coarse)
    else (false, mkAxis vel accum (lowres_accum a) (rate a), []).

Definition tick_b64 (cfg : config) (hc : Z) (a : axis_state) : axis_state :=
  snd (fst (emit_axis_b64 a hc cfg)).

Fixpoint ticks_b64 (cfg : config) (hc : Z) (n : nat) (a : axis_state)
    : axis_state :=
  match n with
  | O => a
  | S k => ticks_b64 cfg hc k (tick_b64 cfg hc a)
  end.

(** A number of ticks after which an axis has settled in double
    arithmetic. *)
Definition settle_bound_b64 (cfg : config) (a : axis_state) : nat :=
  Z.to_nat
    (Qfloor (fabs (velocity a)
             / (stop_threshold cfg * (friction cfg * (1 # 2)))) + 1).



(** A friction of 2^-60, inside (0, 1) but below what [main] lets
    through: the double [1.0 - friction] is 1.0. *)
Definition cfg_tiny_friction : config :=
  as_doubles (mkConfig (pow2 (-60)) DEFAULT_TICK_MS DEFAULT_LOW_RATE
                DEFAULT_HIGH_RATE DEFAULT_MIN_SCALE DEFAULT_STOP_THRESHOLD
                DEFAULT_MULTIPLIER false).

(** The velocity that one [REL_WHEEL] event of value 2147483647 gives a
    resting axis under the default configuration:
    2147483647 * 120 * 0.5. *)
Definition overflowing : axis_state := mkAxis 128849018820 0 0 rate_zero.

(** The command line [--friction 0.125], and an axis whose velocity is
    the double [8 - 2^-48]. *)
Definition cfg_eighth : config :=
  as_doubles (mkConfig (1 # 8) DEFAULT_TICK_MS DEFAULT_LOW_RATE
                DEFAULT_HIGH_RATE DEFAULT_MIN_SCALE DEFAULT_STOP_THRESHOLD
                DEFAULT_MULTIPLIER false).

Definition near_eight : axis_state := mkAxis (8 - pow2 (-48)) 0 0 rate_zero.

(** The command line [--low-rate 6.1 --high-rate 25 --min-scale 0.18],
    and seven impulses whose time stamps span 280 ms. *)
Definition cfg_narrow_band : config :=
  as_doubles (mkConfig DEFAULT_FRICTION DEFAULT_TICK_MS (61 # 10) 25
                (18 # 100) DEFAULT_STOP_THRESHOLD DEFAULT_MULTIPLIER false).

Definition seven_stamps : rate_tracker :=
  recorded [1000000000; 1040000000; 1080000000; 1120000000; 1160000000;
            1200000000; 1280000000]%Z.

(** An axis about to cross three coarse boundaries in one call: the
    decay of the velocity 4000 gives 312 fine units, on top of a carry
    of 100. *)
Definition crossing : axis_state := mkAxis 4000 0 100 rate_zero.

(** *** The impulse path in double arithmetic *)

(** The largest finite double, and the real numbers whose rounding to
    double does not overflow. *)
Definition DBL_MAX : Q := inject_Z (2 ^ 53 - 1) * pow2 971.

Definition in_range (x : Q) : bool := Qle_bool (Qabs x) DBL_MAX.

(** The whole part fits an [int]: the cast is defined. *)
Definition fits_int (x : Q) : bool :=
  ((INT_MIN <=? trunc x) && (trunc x <=? INT_MAX))%Z.

(** [axis->velocity += raw * scale * cfg.multiplier], the products taken
    from the left, one rounding per operation. *)
Definition injected_b64 (a : axis_state) (raw scale : Q) (cfg : config)
    : axis_state :=
  mkAxis (round64 (velocity a +
                   round64 (round64 (raw * scale) * multiplier cfg)))
         (emit_accum a) (lowres_accum a) (rate a).

Definition force_emit_b64 (a : axis_state) (hc : Z)
    : axis_state * list input_event :=
  let dir := force_dir a in
  (mkAxis (round64 (velocity a - inject_Z dir)) 0 (lowres_accum a + dir)
          (rate a),
   write_event EV_REL hc dir).

Definition inject_b64 (a : axis_state) (hc : Z) (raw scale : Q)
    (cfg : config) : axis_state * list input_event :=
  let '(did_emit, a2, out) :=
    emit_axis_b64 (injected_b64 a raw scale cfg) hc cfg in
  if negb did_emit && Qgeb (fabs (velocity a2)) (stop_threshold cfg)
  then let '(a3, forced) := force_emit_b64 a2 hc in
       (a3, out ++ forced ++ write_syn)
  else (a2, if did_emit then out ++ write_syn else out).

Definition on_impulse_b64 (a : axis_state) (hc : Z) (raw : Q) (ts : Z)
    (scale : Q) (cfg : config) : axis_state * list input_event :=
  let a0 := mkAxis (velocity a) (emit_accum a) (lowres_accum a)
                   (rate_record (rate a) ts) in
  inject_b64 a0 hc raw scale cfg.

Definition axis_step_b64 (cfg : config) (hc : Z) (a : axis_state)
    (op : axis_op) : axis_state * list input_event :=
  match op with
  | Tick => let '(_, a', out) := emit_axis_b64 a hc cfg in (a', out)
  | Impulse raw ts scale => on_impulse_b64 a hc raw ts scale cfg
  end.

(** The double that [emit_axis] casts to [int] when the axis is not at
    rest. *)
Definition cast_operand (a : axis_state) (cfg : config) : Q :=
  let vel := round64 (velocity a * round64 (1 - friction cfg)) in
  round64 (emit_accum a + round64 (velocity a - vel)).

(** The call of [emit_axis] casts nothing that does not fit an [int]. *)
Definition emit_in_range (a : axis_state) (cfg : config) : bool :=
  Qltb (fabs (velocity a)) (stop_threshold cfg)
  || fits_int (cast_operand a cfg).

(** A step during which no product or sum overflows the doubles and the
    cast is defined. *)
Definition step_in_range (cfg : config) (a : axis_state) (op : axis_op)
    : bool :=
  match op with
  | Tick => emit_in_range a cfg
  | Impulse raw ts scale =>
      in_range (raw * scale)
      && in_range (round64 (raw * scale) * multiplier cfg)
      && in_range (velocity a +
                   round64 (round64 (raw * scale) * multiplier cfg))
      && emit_in_range (injected_b64 a raw scale cfg) cfg
  end.

(** States an axis can be in between two events when every step so far
    stayed in range. *)
Inductive reachable_b64 (cfg : config) (hc : Z) : axis_state -> Prop :=
| reach_b64_zero : reachable_b64 cfg hc axis_zero
| reach_b64_step a op :
    reachable_b64 cfg hc a -> step_in_range cfg a op = true ->
    reachable_b64 cfg hc (fst (axis_step_b64 cfg hc a op)).

(** One hi-res impulse of four units on a resting axis, then one timer
    tick, in double arithmetic with the default configuration. *)
Definition coasting_b64 : axis_state :=
  fst (axis_step_b64 default_config_b64 REL_WHEEL_HI_RES
         (fst (axis_step_b64 default_config_b64 REL_WHEEL_HI_RES axis_zero
                 (Impulse 4 1000 1)))
         Tick).

(** ** Timer *)

(** [long tick_ns = cfg.tick_ms * 1000000L]. *)
Definition tick_ns (cfg : config) : Z := (tick_ms cfg * 1000000)%Z.

(** The [struct timespec] handed to [timerfd_settime] with
    [TFD_TIMER_ABSTIME]: seconds and nanoseconds of an absolute time. *)
Record itimerspec := mkTimespec {
  tv_sec : Z;
  tv_nsec : Z
}.

Definition abs_deadline (next_tick_ns : Z) : itimerspec :=
  mkTimespec (Z.quot next_tick_ns 1000000000) (Z.rem next_tick_ns 1000000000).

(** The absolute time an armed [itimerspec] denotes. *)
Definition deadline_ns (its : itimerspec) : Z :=
  (tv_sec its * 1000000000 + tv_nsec its)%Z.

(** What the loop does to the outside: events written to the virtual
    device and timers armed. *)
Inductive action :=
| Write (e : input_event)
| Settime (its : itimerspec).

Record sched := mkSched {
  vert : axis_state;
  horiz : axis_state;
  had_non_scroll : bool;
  next_tick_ns : Z
}.

(** Timer creation: the first deadline is one interval after the clock
    reading [now]. *)
Definition timer_init (now : Z) (cfg : config) : sched * list action :=
  let next := (now + tick_ns cfg)%Z in
  (mkSched axis_zero axis_zero false next, [Settime (abs_deadline next)]).

(** Outcome of [read(tfd, ...)]. *)
Inductive read_result := ReadOk | ReadAgain | ReadError.

(** The timer branch of the loop.  [wake] is the clock reading at which
    the loop got to run; the code never consults it. *)
Definition on_timer (s : sched) (wake : Z) (r : read_result) (cfg : config)
    : sched * list action :=
  match r with
  | ReadError => (s, [])
  | _ =>
      let next := (next_tick_ns s + tick_ns cfg)%Z in
      let '(e1, v, out1) := emit_axis (vert s) REL_WHEEL_HI_RES cfg in
      let '(e2, h, out2) := emit_axis (horiz s) REL_HWHEEL_HI_RES cfg in
      let emitted := e1 || e2 in
      (mkSched v h (had_non_scroll s) next,
       Settime (abs_deadline next) ::
       map Write (out1 ++ out2 ++ if emitted then write_syn else []))
  end.

(** The loop handling a run of successful timer expiries, one per wake-up
    time. *)
Fixpoint timer_run (s : sched) (wakes : list Z) (cfg : config)
    : sched * list action :=
  match wakes with
  | [] => (s, [])
  | w :: rest =>
      let '(s1, out1) := on_timer s w ReadOk cfg in
      let '(s2, out2) := timer_run s1 rest cfg in
      (s2, out1 ++ out2)
  end.

(** The [switch] on the event code: the impulse in fine units, and the
    axis it belongs to. *)
Definition scroll_raw (code value : Z) : Q :=
  if ((code =? REL_WHEEL) || (code =? REL_HWHEEL))%Z
  then inject_Z value * inject_Z HIRES_PER_TICK
  else inject_Z value.

Definition scroll_is_vert (code : Z) : bool :=
  ((code =? REL_WHEEL) || (code =? REL_WHEEL_HI_RES))%Z.

(** One event read from the source device.  [ts] is the clock reading
    taken for a scroll event and [scale] the value of [compute_scale] for
    it; both are ignored for other events. *)
Definition on_source (s : sched) (type code value : Z) (ts : Z) (scale : Q)
    (cfg : config) : sched * list action :=
  if ((type =? EV_SYN) && (code =? SYN_REPORT))%Z
  then (mkSched (vert s) (horiz s) false (next_tick_ns s),
        if had_non_scroll s then map Write write_syn else [])
  else if (type =? EV_REL)%Z && is_scroll_code code
  then
    if scroll_is_vert code
    then let '(v, out) := on_impulse (vert s) REL_WHEEL_HI_RES
                            (scroll_raw code value) ts scale cfg in
         (mkSched v (horiz s) (had_non_scroll s) (next_tick_ns s),
          map Write out)
    else let '(h, out) := on_impulse (horiz s) REL_HWHEEL_HI_RES
                            (scroll_raw code value) ts scale cfg in
         (mkSched (vert s) h (had_non_scroll s) (next_tick_ns s),
          map Write out)
  else (mkSched (vert s) (horiz s) true (next_tick_ns s),
        [Write (mkEvent type code value)]).

(** The deadlines armed in a stream of actions, in order. *)
Fixpoint armed_deadlines (acts : list action) : list Z :=
  match acts with
  | [] => []
  | Settime its :: rest => deadline_ns its :: armed_deadlines rest
  | Write _ :: rest => armed_deadlines rest
  end.

(** ** Reading the output stream *)

(** Sum of the values written with event type [EV_REL] and a given code:
    the fine units of an axis for its hi-res code, the coarse units for
    its low-res code. *)
Definition units_of (code : Z) (out : list input_event) : Z :=
  fold_right
    (fun e acc =>
       if ((ev_type e =? EV_REL) && (ev_code e =? code))%Z
       then (ev_value e + acc)%Z else acc)
    0%Z out.

(** The two hi-res codes that [main] passes to [emit_axis]. *)
Definition is_hires (hc : Z) : Prop :=
  hc = REL_WHEEL_HI_RES \/ hc = REL_HWHEEL_HI_RES.

(** Fine and coarse units of an axis in an output stream. *)
Definition fine_units (hc : Z) (out : list input_event) : Z :=
  units_of hc out.

Definition coarse_units (hc : Z) (out : list input_event) : Z :=
  units_of (lowres_code_of hc) out.

(** The carry thrown away by the rest reset, if the step takes it. *)
Definition dropped_by_step (cfg : config) (a : axis_state) (op : axis_op)
    : Z :=
  match op with
  | Tick =>
      if Qltb (fabs (velocity a)) (stop_threshold cfg)
      then lowres_accum a else 0%Z
  | Impulse raw ts scale =>
      if Qltb (fabs (velocity (injected a raw scale cfg))) (stop_threshold cfg)
      then lowres_accum a else 0%Z
  end.

Fixpoint discarded (cfg : config) (hc : Z) (a : axis_state)
    (ops : list axis_op) : Z :=
  match ops with
  | [] => 0%Z
  | op :: rest =>
      (dropped_by_step cfg a op +
       discarded cfg hc (fst (axis_step cfg hc a op)) rest)%Z
  end.

(** Mirror images, to compare scrolling in the two directions. *)
Definition axis_opp (a : axis_state) : axis_state :=
  mkAxis (- velocity a) (- emit_accum a) (- lowres_accum a) (rate a).

Definition event_opp (e : input_event) : input_event :=
  mkEvent (ev_type e) (ev_code e) (- ev_value e).

(** Axis states that hold the same numbers. *)
Definition axis_equiv (a b : axis_state) : Prop :=
  velocity a == velocity b /\ emit_accum a == emit_accum b /\
  lowres_accum a = lowres_accum b /\ rate a = rate b.

(** The axis is fully at rest. *)
Definition at_rest (a : axis_state) : Prop :=
  velocity a = 0 /\ emit_accum a = 0 /\ lowres_accum a = 0%Z.

(** ** Auxiliary notions for the further properties *)

(** An axis whose velocity, remainder and carry are all zero. *)
Definition resting (a : axis_state) : Prop :=
  velocity a == 0 /\ emit_accum a == 0 /\ lowres_accum a = 0%Z.

(** An event read from the source device, with the clock reading and the
    scale that the loop obtains when it is a scroll event. *)
Record src_event := mkSrc {
  se_type : Z;
  se_code : Z;
  se_value : Z;
  se_ts : Z;
  se_scale : Q
}.

Definition src_is_syn (e : src_event) : bool :=
  ((se_type e =? EV_SYN) && (se_code e =? SYN_REPORT))%Z.

Definition src_is_scroll (e : src_event) : bool :=
  (se_type e =? EV_REL)%Z && is_scroll_code (se_code e).

(** The event as [write_event] forwards it. *)
Definition src_forward (e : src_event) : input_event :=
  mkEvent (se_type e) (se_code e) (se_value e).

(** The loop over the events of one or more reads of the source. *)
Fixpoint source_run (s : sched) (evs : list src_event) (cfg : config)
    : sched * list action :=
  match evs with
  | [] => (s, [])
  | e :: rest =>
      let '(s1, out1) :=
        on_source s (se_type e) (se_code e) (se_value e) (se_ts e)
                  (se_scale e) cfg in
      let '(s2, out2) := source_run s1 rest cfg in
      (s2, out1 ++ out2)
  end.

(** The events written, among the actions of the loop. *)
Fixpoint written (acts : list action) : list input_event :=
  match acts with
  | [] => []
  | Write e :: rest => e :: written rest
  | Settime _ :: rest => written rest
  end.

Definition is_syn_report (e : input_event) : bool :=
  ((ev_type e =? EV_SYN) && (ev_code e =? SYN_REPORT))%Z.

(** A source stream in which every frame carries something: each
    [SYN_REPORT] has value 0 and comes after at least one other event
    since the previous one ([pending] tells whether such an event is
    already waiting when the stream starts). *)
Fixpoint plain_frames (pending : bool) (evs : list src_event) : bool :=
  match evs with
  | [] => true
  | e :: rest =>
      if src_is_syn e
      then pending && (se_value e =? 0)%Z && plain_frames false rest
      else plain_frames true rest
  end.

(** A button press followed by the frame's sync, as a mouse sends it. *)
Definition click_frame : list src_event :=
  [mkSrc 1 272 1 0 1; mkSrc EV_SYN SYN_REPORT 0 0 1].

(** ** Device auto-detection *)

(** [strcasestr_any]: does the haystack contain one of the first [n]
    needles?  The search for one needle is libc's [strcasestr], taken as
    the parameter [sc] (true when the result is not [NULL]). *)
Fixpoint strcasestr_any (sc : String.string -> String.string -> bool)
    (haystack : String.string) (needles : list String.string) (n : nat)
    {struct n} : bool :=
  match n, needles with
  | S k, needle :: rest =>
      if sc haystack needle then true
      else strcasestr_any sc haystack rest k
  | _, _ => false
  end.

Definition keywords : list String.string :=
  ["spice"%string; "qemu"%string; "virtio"%string].

(** Bits in an [unsigned long] (LP64). *)
Definition ULONG_BITS : Z := 64.

(** The test of the [REL_WHEEL] bit in the capability words returned by
    [EVIOCGBIT]. *)
Definition has_wheel (rel_bits : list Z) : bool :=
  negb (Z.land (Z.shiftr (array_get rel_bits (Z.quot REL_WHEEL ULONG_BITS))
                         (Z.rem REL_WHEEL ULONG_BITS)) 1 =? 0)%Z.

(** What [find_scroll_device] learns about one directory entry: its
    name, whether [open] succeeds, and the results of the two [ioctl]
    calls ([None] when the call fails). *)
Record dir_entry := mkEntry {
  d_name : String.string;
  dev_open : bool;
  dev_name : option String.string;
  dev_rel_bits : option (list Z)
}.

(** The [readdir] loop of [find_scroll_device]. *)
Fixpoint scan_entries (sc : String.string -> String.string -> bool)
    (ents : list dir_entry) : option String.string :=
  match ents with
  | [] => None
  | e :: rest =>
      if negb (String.prefix "event" (d_name e)) then scan_entries sc rest
      else if negb (dev_open e) then scan_entries sc rest
      else
        match dev_name e with
        | None => scan_entries sc rest
        | Some name =>
            if negb (strcasestr_any sc name keywords 3)
            then scan_entries sc rest
            else
              match dev_rel_bits e with
              | None => scan_entries sc rest
              | Some bits =>
                  if has_wheel bits
                  then Some (String.append "/dev/input/" (d_name e))
                  else scan_entries sc rest
              end
        end
  end.

(** [find_scroll_device]; [dir] is [None] when [opendir] fails. *)
Definition find_scroll_device (sc : String.string -> String.string -> bool)
    (dir : option (list dir_entry)) : option String.string :=
  match dir with
  | None => None
  | Some ents => scan_entries sc ents
  end.

(** An entry that passes every test of the loop. *)
Definition scroll_candidate (sc : String.string -> String.string -> bool)
    (e : dir_entry) : Prop :=
  String.prefix "event" (d_name e) = true /\
  dev_open e = true /\
  (exists name kw, dev_name e = Some name /\ In kw keywords /\
                   sc name kw = true) /\
  (exists bits, dev_rel_bits e = Some bits /\
                Z.testbit (nth 0 bits 0%Z) REL_WHEEL = true).

(** A plain substring test, standing in for [strcasestr] in examples
    with lower-case names. *)
Fixpoint substring_at (hay needle : String.string) : bool :=
  String.prefix needle hay ||
  match hay with
  | String.EmptyString => false
  | String.String _ rest => substring_at rest needle
  end.

Definition sample_dir : list dir_entry :=
  [mkEntry "mouse0" true (Some "qemu usb tablet"%string) (Some [259%Z]);
   mkEntry "event0" true (Some "power button"%string) (Some [0%Z]);
   mkEntry "event1" false None None;
   mkEntry "event2" true (Some "qemu usb keyboard"%string) (Some [0%Z]);
   mkEntry "event3" true (Some "spice vdagent tablet"%string)
           (Some [259%Z])].

(** ** Construction of the virtual device *)

(** More event types of the kernel input ABI. *)
Definition EV_KEY : Z := 1.
Definition EV_ABS : Z := 3.
Definition EV_MSC : Z := 4.
Definition EV_SW : Z := 5.
Definition EV_LED : Z := 17.
Definition EV_SND : Z := 18.
Definition EV_FF : Z := 21.
Definition EV_MAX : Z := 31.
Definition UINPUT_MAX_NAME_SIZE : nat := 80.

(** The [UI_SET_*BIT] requests among which the [switch] chooses. *)
Inductive set_bit_req :=
| UI_SET_KEYBIT | UI_SET_RELBIT | UI_SET_ABSBIT | UI_SET_MSCBIT
| UI_SET_LEDBIT | UI_SET_SNDBIT | UI_SET_FFBIT | UI_SET_SWBIT.

(** The [ioctl] requests of [create_uinput_device]. *)
Inductive uinput_req :=
| UI_SET_EVBIT (type : Z)
| SetBit (req : set_bit_req) (code : Z)
| UI_ABS_SETUP (code : Z)
| UI_DEV_SETUP (name : String.string)
| UI_DEV_CREATE.

(** The [switch (type)]: [None] is the [default: continue]. *)
Definition code_request (type : Z) : option set_bit_req :=
  if (type =? EV_KEY)%Z then Some UI_SET_KEYBIT
  else if (type =? EV_REL)%Z then Some UI_SET_RELBIT
  else if (type =? EV_ABS)%Z then Some UI_SET_ABSBIT
  else if (type =? EV_MSC)%Z then Some UI_SET_MSCBIT
  else if (type =? EV_LED)%Z then Some UI_SET_LEDBIT
  else if (type =? EV_SND)%Z then Some UI_SET_SNDBIT
  else if (type =? EV_FF)%Z then Some UI_SET_FFBIT
  else if (type =? EV_SW)%Z then Some UI_SET_SWBIT
  else None.

(** What libevdev tells about the source device.  The identifiers that
    are copied into the setup structure are left out. *)
Record source_dev := mkSource {
  src_name : option String.string;
  has_event_type : Z -> bool;
  has_event_code : Z -> Z -> bool;
  has_abs_info : Z -> bool
}.

(** What the system answers: whether [/dev/uinput] opens, which [ioctl]
    requests succeed, and libevdev's table of the largest code of each
    event type ([libevdev_event_type_get_max]). *)
Record uinput_env := mkEnv {
  uinput_open : bool;
  ioctl_ok : uinput_req -> bool;
  type_max : Z -> Z
}.

(** The values [0 .. max] of a loop counter. *)
Definition upto (max : Z) : list Z :=
  map Z.of_nat (seq 0 (Z.to_nat (max + 1))).

(** The inner loop over the codes of one event type. *)
Definition code_requests (dev : source_dev) (type max_code : Z)
    : list uinput_req :=
  flat_map
    (fun code =>
       if negb (has_event_code dev type code) then []
       else match code_request type with
            | None => []
            | Some req => [SetBit req code]
            end)
    (upto max_code).

(** One iteration of the outer loop over the event types. *)
Definition type_requests (env : uinput_env) (dev : source_dev) (type : Z)
    : list uinput_req :=
  if negb (has_event_type dev type) then []
  else
    UI_SET_EVBIT type ::
    (if negb (ioctl_ok env (UI_SET_EVBIT type)) then []
     else if (type_max env type <? 0)%Z then []
     else code_requests dev type (type_max env type)).

(** The loop that configures the absolute axes. *)
Definition abs_requests (env : uinput_env) (dev : source_dev)
    : list uinput_req :=
  if has_event_type dev EV_ABS
  then flat_map
         (fun code =>
            if negb (has_event_code dev EV_ABS code) then []
            else if negb (has_abs_info dev code) then []
            else [UI_ABS_SETUP code])
         (upto (type_max env EV_ABS))
  else [].

(** [snprintf (setup.name, UINPUT_MAX_NAME_SIZE, "%s (smooth scroll)", ...)]:
    at most 79 characters are kept. *)
Definition setup_name (dev : source_dev) : String.string :=
  String.substring 0 (UINPUT_MAX_NAME_SIZE - 1)
    (String.append
       (match src_name dev with Some n => n | None => "Unknown"%string end)
       " (smooth scroll)").

(** The requests issued before the device is finalised. *)
Definition capability_requests (env : uinput_env) (dev : source_dev)
    : list uinput_req :=
  flat_map (type_requests env dev) (upto EV_MAX) ++
  (if negb (has_event_type dev EV_REL) then [UI_SET_EVBIT EV_REL] else []) ++
  [SetBit UI_SET_RELBIT REL_WHEEL_HI_RES;
   SetBit UI_SET_RELBIT REL_HWHEEL_HI_RES] ++
  abs_requests env dev.

(** [create_uinput_device]: whether a descriptor is returned (rather
    than -1), and the [ioctl] requests issued, in order. *)
Definition create_uinput_device (env : uinput_env) (dev : source_dev)
    : bool * list uinput_req :=
  if negb (uinput_open env) then (false, [])
  else
    let caps := capability_requests env dev in
    let setup := UI_DEV_SETUP (setup_name dev) in
    if negb (ioctl_ok env setup) then (false, caps ++ [setup])
    else if negb (ioctl_ok env UI_DEV_CREATE)
    then (false, caps ++ [setup; UI_DEV_CREATE])
    else (true, caps ++ [setup; UI_DEV_CREATE]).

(** A wheel mouse without hi-res axes, on a system where everything
    succeeds and libevdev knows codes up to 15 for [EV_REL] and 767 for
    [EV_KEY]. *)
Definition plain_mouse : source_dev :=
  mkSource (Some "qemu usb mouse"%string)
           (fun t => (t =? EV_REL)%Z || (t =? EV_KEY)%Z || (t =? EV_SYN)%Z)
           (fun t c => ((t =? EV_REL) && ((c =? 0) || (c =? 1) || (c =? 8)))%Z
                       || ((t =? EV_KEY) && (c =? 272))%Z)
           (fun _ => false).

Definition willing_env : uinput_env :=
  mkEnv true (fun _ => true)
        (fun t => if (t =? EV_REL)%Z then 15%Z
                  else if (t =? EV_KEY)%Z then 767%Z else (-1)%Z).

(** * Properties *)

(** ** Comparisons and truncation *)

Lemma Qltb_lt (x y : Q) : Qltb x y = true <-> x < y.
Proof.
  unfold Qltb. rewrite negb_true_iff, <- not_true_iff_false, Qle_bool_iff.
  split; [apply Qnot_le_lt | apply Qlt_not_le].
Qed.

Lemma Qltb_ge (x y : Q) : Qltb x y = false <-> y <= x.
Proof.
  unfold Qltb. rewrite negb_false_iff. apply Qle_bool_iff.
Qed.

Lemma Qgeb_ge (x y : Q) : Qgeb x y = true <-> y <= x.
Proof. apply Qle_bool_iff. Qed.

Lemma Qgeb_lt (x y : Q) : Qgeb x y = false <-> x < y.
Proof.
  unfold Qgeb. rewrite <- not_true_iff_false, Qle_bool_iff.
  split; [apply Qnot_le_lt | apply Qlt_not_le].
Qed.

Lemma trunc_floor (x : Q) : 0 <= x -> trunc x = Qfloor x.
Proof.
  destruct x as [n d]. unfold Qle, trunc, Qfloor. simpl. intros H.
  apply Z.quot_div_nonneg; lia.
Qed.

Lemma trunc_opp (x : Q) : trunc (- x) = (- trunc x)%Z.
Proof.
  destruct x as [n d]. unfold trunc. simpl. apply Z.quot_opp_l. lia.
Qed.

Lemma trunc_ceiling (x : Q) : x <= 0 -> trunc x = Qceiling x.
Proof.
  intros H. unfold Qceiling. rewrite <- trunc_floor by lra.
  rewrite trunc_opp. lia.
Qed.

#[export] Instance trunc_comp : Proper (Qeq ==> eq) trunc.
Proof.
  intros x y E. destruct (Qlt_le_dec x 0) as [Hneg | Hpos].
  - rewrite !trunc_ceiling by lra. unfold Qceiling. now rewrite E.
  - rewrite !trunc_floor by lra. now rewrite E.
Qed.

(** Truncation leaves a remainder of the sign of the argument and of
    magnitude below one. *)
Lemma trunc_nonneg (x : Q) :
  0 <= x -> 0 <= x - inject_Z (trunc x) /\ x - inject_Z (trunc x) < 1.
Proof.
  intros H. rewrite trunc_floor by assumption.
  pose proof (Qfloor_le x) as Hl. pose proof (Qlt_floor x) as Hu.
  rewrite inject_Z_plus in Hu. change (inject_Z 1) with 1 in Hu. lra.
Qed.

Lemma trunc_nonpos (x : Q) :
  x <= 0 -> -1 < x - inject_Z (trunc x) /\ x - inject_Z (trunc x) <= 0.
Proof.
  intros H. rewrite trunc_ceiling by assumption.
  pose proof (Qle_ceiling x) as Hl. pose proof (Qceiling_lt x) as Hu.
  unfold Z.sub in Hu. rewrite inject_Z_plus, inject_Z_opp in Hu.
  change (inject_Z 1) with 1 in Hu. lra.
Qed.

Lemma trunc_remainder (x : Q) :
  -1 < x - inject_Z (trunc x) /\ x - inject_Z (trunc x) < 1.
Proof.
  destruct (Qlt_le_dec x 0) as [Hneg | Hpos].
  - destruct (trunc_nonpos x); lra.
  - destruct (trunc_nonneg x Hpos); lra.
Qed.

(** Below zero truncation and floor part ways. *)
Lemma trunc_not_floor :
  trunc (- (7 # 2)) = (-3)%Z /\ Qfloor (- (7 # 2)) = (-4)%Z.
Proof. split; reflexivity. Qed.

(** The whole part never exceeds the argument in magnitude and has its
    sign: the behaviour that tells truncation from floor and rounding. *)
Lemma trunc_toward_zero (x : Q) :
  (0 <= x -> 0 <= inject_Z (trunc x) <= x) /\
  (x <= 0 -> x <= inject_Z (trunc x) <= 0).
Proof.
  split; intros H.
  - destruct (trunc_nonneg x H) as [Ha Hb]. split; [| lra].
    rewrite trunc_floor by assumption.
    change 0 with (inject_Z 0). rewrite <- Zle_Qle.
    change 0%Z with (Qfloor 0). now apply Qfloor_resp_le.
  - destruct (trunc_nonpos x H) as [Ha Hb]. split; [lra |].
    rewrite trunc_ceiling by assumption.
    change 0 with (inject_Z 0). rewrite <- Zle_Qle.
    change 0%Z with (Qceiling 0). now apply Qceiling_resp_le.
Qed.

(** ** Rounding to binary64 *)

(** Powers of two. *)
Lemma pow2_pos (e : Z) : 0 < pow2 e.
Proof. apply Qpower_0_lt. reflexivity. Qed.

Lemma pow2_add (a b : Z) : pow2 (a + b) == pow2 a * pow2 b.
Proof. apply Qpower_plus. discriminate. Qed.

Lemma pow2_le (a b : Z) : (a <= b)%Z -> pow2 a <= pow2 b.
Proof. intros H. apply Qpower_le_compat_l; [assumption | discriminate]. Qed.

Lemma pow2_lt_inv (a b : Z) : pow2 a < pow2 b -> (a < b)%Z.
Proof. intros H. apply (Qpower_lt_compat_l_inv 2); [assumption | reflexivity]. Qed.

Lemma pow2_Z (e : Z) : (0 <= e)%Z -> pow2 e == inject_Z (2 ^ e).
Proof. intros H. unfold pow2. now rewrite Zpower_Qpower. Qed.

Lemma log2_bounds (n : Z) :
  (0 < n)%Z ->
  pow2 (Z.log2 n) <= inject_Z n /\ inject_Z n < pow2 (Z.log2 n + 1).
Proof.
  intros Hn. destruct (Z.log2_spec n Hn) as [H1 H2].
  pose proof (Z.log2_nonneg n) as H0.
  rewrite !pow2_Z by lia. rewrite <- Zle_Qle, <- Zlt_Qlt.
  unfold Z.succ in H2. split; assumption.
Qed.

Lemma Q_as_quotient (x : Q) :
  inject_Z (Qnum x) == x * inject_Z (Zpos (Qden x)).
Proof.
  destruct x as [n d]. unfold Qeq. simpl. rewrite Pos.mul_1_r, Z.mul_1_r. reflexivity.
Qed.

Lemma ilog2_spec (x : Q) :
  0 < x -> pow2 (ilog2 x) <= x /\ x < pow2 (ilog2 x + 1).
Proof.
  intros Hx.
  assert (Hn : (0 < Qnum x)%Z).
  { destruct x as [n d]. unfold Qlt in Hx. simpl in *. lia. }
  destruct (log2_bounds (Qnum x) Hn) as [N1 N2].
  destruct (log2_bounds (Zpos (Qden x)) eq_refl) as [D1 D2].
  pose proof (Q_as_quotient x) as E.
  set (ln := Z.log2 (Qnum x)) in *. set (ld := Z.log2 (Zpos (Qden x))) in *.
  assert (HD : 0 < inject_Z (Zpos (Qden x))) by reflexivity.
  set (N := inject_Z (Qnum x)) in *. set (D := inject_Z (Zpos (Qden x))) in *.
  assert (Elo : pow2 ln == pow2 (ln - ld - 1) * pow2 (ld + 1)).
  { rewrite <- pow2_add. now replace (ln - ld - 1 + (ld + 1))%Z with ln by lia. }
  assert (Ehi : pow2 (ln + 1) == pow2 (ln - ld + 1) * pow2 ld).
  { rewrite <- pow2_add. now replace (ln - ld + 1 + ld)%Z with (ln + 1)%Z by lia. }
  pose proof (pow2_pos (ln - ld - 1)) as Plo.
  pose proof (pow2_pos (ln - ld + 1)) as Phi.
  pose proof (pow2_pos ld) as Pld.
  assert (Lo : pow2 (ln - ld - 1) <= x).
  { apply Qnot_lt_le. intros C.
    assert (x * D < pow2 (ln - ld - 1) * D) by (apply Qmult_lt_compat_r; assumption).
    assert (pow2 (ln - ld - 1) * D <= pow2 (ln - ld - 1) * pow2 (ld + 1)).
    { rewrite !(Qmult_comm (pow2 (ln - ld - 1))).
      apply Qmult_le_compat_r; lra. }
    lra. }
  assert (Hi : x < pow2 (ln - ld + 1)).
  { apply Qnot_le_lt. intros C.
    assert (pow2 (ln - ld + 1) * D <= x * D) by (apply Qmult_le_compat_r; lra).
    assert (pow2 (ln - ld + 1) * pow2 ld <= pow2 (ln - ld + 1) * D).
    { rewrite !(Qmult_comm (pow2 (ln - ld + 1))).
      apply Qmult_le_compat_r; lra. }
    lra. }
  unfold ilog2. fold ln ld.
  destruct (Qle_bool (pow2 (ln - ld)) x) eqn:T.
  - apply Qle_bool_iff in T. split; assumption.
  - assert (T' : x < pow2 (ln - ld)).
    { apply Qnot_le_lt. intros C. apply Qle_bool_iff in C. congruence. }
    replace (ln - ld - 1 + 1)%Z with (ln - ld)%Z by lia. split; assumption.
Qed.

(** Rounding to an integer. *)
Lemma rint_spec (y : Q) :
  inject_Z (rint y) - y <= 1 # 2 /\ y - inject_Z (rint y) <= 1 # 2.
Proof.
  pose proof (Qfloor_le y) as H1. pose proof (Qlt_floor y) as H2.
  rewrite inject_Z_plus in H2. change (inject_Z 1) with 1 in H2.
  unfold rint.
  destruct (Qltb (y - inject_Z (Qfloor y)) (1 # 2)) eqn:A;
    [apply Qltb_lt in A; lra | apply Qltb_ge in A].
  destruct (Qltb (1 # 2) (y - inject_Z (Qfloor y))) eqn:B;
    [apply Qltb_lt in B | apply Qltb_ge in B].
  - rewrite inject_Z_plus. change (inject_Z 1) with 1. lra.
  - destruct (Z.even (Qfloor y)); [lra |].
    rewrite inject_Z_plus. change (inject_Z 1) with 1. lra.
Qed.

Lemma rint_Z (y : Q) (z : Z) : y == inject_Z z -> rint y = z.
Proof.
  intros E. unfold rint.
  assert (F : Qfloor y = z) by (rewrite E; apply Qfloor_Z).
  rewrite F.
  assert (R : Qltb (y - inject_Z z) (1 # 2) = true) by (apply Qltb_lt; lra).
  now rewrite R.
Qed.

Lemma rint_nonneg (y : Q) : 0 <= y -> (0 <= rint y)%Z.
Proof.
  intros H. destruct (rint_spec y) as [_ H2].
  assert (-1 < inject_Z (rint y)) by lra.
  change (-1) with (inject_Z (-1)) in H0. rewrite <- Zlt_Qlt in H0. lia.
Qed.

(** Rounding a positive number: the error is at most half a unit in the
    last place. *)
Lemma round_pos_err (x : Q) :
  let p := pow2 (ulp_exp x) in
  round_pos x - x <= p * (1 # 2) /\ x - round_pos x <= p * (1 # 2).
Proof.
  cbv zeta. unfold round_pos.
  pose proof (pow2_pos (ulp_exp x)) as Hp.
  set (p := pow2 (ulp_exp x)) in *.
  destruct (rint_spec (x / p)) as [H1 H2].
  set (m := inject_Z (rint (x / p))) in *.
  assert (E : x == x / p * p) by (field; lra).
  set (y := x / p) in *.
  split.
  - assert ((m - y) * p <= (1 # 2) * p) by (apply Qmult_le_compat_r; lra).
    nra.
  - assert ((y - m) * p <= (1 # 2) * p) by (apply Qmult_le_compat_r; lra).
    nra.
Qed.

Lemma ulp_exp_normal (x : Q) :
  pow2 (-1022) <= x -> ulp_exp x = (ilog2 x - 52)%Z.
Proof.
  intros H.
  assert (Hx : 0 < x) by (pose proof (pow2_pos (-1022)); lra).
  destruct (ilog2_spec x Hx) as [_ Hu].
  assert (L : (-1022 < ilog2 x + 1)%Z) by (apply pow2_lt_inv; lra).
  unfold ulp_exp. lia.
Qed.

Lemma round_pos_rel (x : Q) :
  pow2 (-1022) <= x ->
  round_pos x - x <= pow2 (-53) * x /\ x - round_pos x <= pow2 (-53) * x.
Proof.
  intros H.
  assert (Hx : 0 < x) by (pose proof (pow2_pos (-1022)); lra).
  pose proof (round_pos_err x) as Herr. cbv zeta in Herr.
  rewrite (ulp_exp_normal x H) in Herr.
  destruct (ilog2_spec x Hx) as [Hl _].
  assert (E : pow2 (ilog2 x - 52) * (1 # 2) == pow2 (-53) * pow2 (ilog2 x)).
  { replace (ilog2 x - 52)%Z with (ilog2 x + (-52))%Z by lia.
    rewrite pow2_add.
    assert (E53 : pow2 (-52) * (1 # 2) == pow2 (-53)) by reflexivity.
    rewrite <- E53. ring. }
  rewrite E in Herr.
  assert (pow2 (-53) * pow2 (ilog2 x) <= pow2 (-53) * x).
  { rewrite !(Qmult_comm (pow2 (-53))). apply Qmult_le_compat_r; [assumption |].
    apply Qlt_le_weak, pow2_pos. }
  lra.
Qed.

Lemma round_pos_nonneg (x : Q) : 0 < x -> 0 <= round_pos x.
Proof.
  intros Hx. unfold round_pos.
  pose proof (pow2_pos (ulp_exp x)) as Hp.
  apply Qmult_le_0_compat; [| lra].
  change 0 with (inject_Z 0). rewrite <- Zle_Qle. apply rint_nonneg.
  apply Qle_shift_div_l; lra.
Qed.

Lemma round_pos_representable (x : Q) :
  0 < x -> representable (round_pos x).
Proof.
  intros Hx. unfold round_pos.
  pose proof (pow2_pos (ulp_exp x)) as Hp.
  exists (rint (x / pow2 (ulp_exp x))), (ulp_exp x).
  split; [| split; [unfold ulp_exp; lia | reflexivity]].
  assert (Hy0 : 0 <= x / pow2 (ulp_exp x)) by (apply Qle_shift_div_l; lra).
  pose proof (rint_nonneg _ Hy0) as Hm0.
  destruct (rint_spec (x / pow2 (ulp_exp x))) as [Hm _].
  destruct (ilog2_spec x Hx) as [_ Hu].
  assert (Hp' : pow2 (ilog2 x - 52) <= pow2 (ulp_exp x))
    by (apply pow2_le; unfold ulp_exp; lia).
  assert (E : pow2 (ilog2 x + 1) == pow2 (ilog2 x - 52) * pow2 53).
  { rewrite <- pow2_add. now replace (ilog2 x - 52 + 53)%Z with (ilog2 x + 1)%Z by lia. }
  assert (H53 : pow2 53 == inject_Z (2 ^ 53)) by (apply pow2_Z; lia).
  assert (Hy : x / pow2 (ulp_exp x) < inject_Z (2 ^ 53)).
  { apply Qlt_shift_div_r; [assumption |].
    assert (pow2 (ilog2 x - 52) * pow2 53 <= pow2 (ulp_exp x) * pow2 53).
    { apply Qmult_le_compat_r; [assumption |]. apply Qlt_le_weak, pow2_pos. }
    rewrite <- H53. rewrite (Qmult_comm (pow2 53)). lra. }
  assert (Hlt : inject_Z (rint (x / pow2 (ulp_exp x))) < inject_Z (2 ^ 53 + 1)).
  { rewrite inject_Z_plus. change (inject_Z 1) with 1. lra. }
  rewrite <- Zlt_Qlt in Hlt. lia.
Qed.

Lemma round_pos_fix (x : Q) :
  0 < x -> representable x -> round_pos x == x.
Proof.
  intros Hx (M & E & HM & HE & Hrep).
  pose proof (pow2_pos (ulp_exp x)) as Hp.
  pose proof (pow2_pos E) as HpE.
  assert (HM0 : (0 < M)%Z).
  { assert (0 < inject_Z M).
    { apply Qnot_le_lt. intros C.
      assert (inject_Z M * pow2 E <= 0 * pow2 E)
        by (apply Qmult_le_compat_r; lra). lra. }
    change 0 with (inject_Z 0) in H. now rewrite <- Zlt_Qlt in H. }
  assert (Hdiv : x / pow2 (ulp_exp x) == inject_Z M * pow2 E / pow2 (ulp_exp x))
    by (apply Qdiv_comp; [exact Hrep | reflexivity]).
  assert (Hz : exists z : Z, x / pow2 (ulp_exp x) == inject_Z z).
  { destruct (Z_le_gt_dec (ulp_exp x) E) as [Hle | Hgt].
    - exists (M * 2 ^ (E - ulp_exp x))%Z.
      rewrite inject_Z_mult, <- pow2_Z by lia.
      rewrite Hdiv.
      assert (E1 : pow2 E == pow2 (E - ulp_exp x) * pow2 (ulp_exp x)).
      { rewrite <- pow2_add. now replace (E - ulp_exp x + ulp_exp x)%Z with E by lia. }
      rewrite E1. field. lra.
    - exists (2 ^ 52)%Z.
      destruct (ilog2_spec x Hx) as [Hl _].
      assert (Hxle : x <= pow2 (E + 53)).
      { rewrite Hrep, pow2_add, (Qmult_comm (pow2 E)).
        apply Qmult_le_compat_r; [| lra].
        rewrite pow2_Z by lia. rewrite <- Zle_Qle. lia. }
      assert (Hil : (ilog2 x <= E + 53)%Z).
      { apply (Qpower_le_compat_l_inv 2); [| reflexivity].
        fold (pow2 (ilog2 x)) (pow2 (E + 53)). lra. }
      assert (Hue : ulp_exp x = (E + 1)%Z) by (unfold ulp_exp in *; lia).
      assert (Hilog : ilog2 x = (E + 53)%Z) by (unfold ulp_exp in *; lia).
      rewrite Hilog in Hl.
      assert (HM53 : (2 ^ 53 <= M)%Z).
      { rewrite Zle_Qle, <- pow2_Z by lia.
        apply Qnot_lt_le. intros C.
        assert (inject_Z M * pow2 E < pow2 53 * pow2 E)
          by (apply Qmult_lt_compat_r; assumption).
        rewrite pow2_add, (Qmult_comm (pow2 E)) in Hl. lra. }
      assert (M = 2 ^ 53)%Z by lia. subst M.
      rewrite Hdiv, Hue, (pow2_add E 1).
      rewrite <- !pow2_Z by lia.
      assert (E53 : pow2 53 == pow2 52 * pow2 1) by reflexivity.
      rewrite E53. field.
      split; [discriminate | lra]. }
  destruct Hz as [z Hz]. unfold round_pos.
  rewrite (rint_Z _ z Hz), <- Hz. field. lra.
Qed.

Lemma trunc_inject_Z (z : Z) : trunc (inject_Z z) = z.
Proof. unfold trunc. simpl. apply Z.quot_1_r. Qed.

Lemma representable_0 : representable 0.
Proof. exists 0%Z, 0%Z. repeat split; try lia. Qed.

Lemma representable_opp (x : Q) : representable x -> representable (- x).
Proof.
  intros (m & e & Hm & He & Hx). exists (- m)%Z, e.
  rewrite Z.abs_opp. repeat split; try assumption.
  rewrite inject_Z_opp, Hx. ring.
Qed.

Lemma representable_comp (x y : Q) : x == y -> representable x -> representable y.
Proof.
  intros E (m & e & Hm & He & Hx). exists m, e. repeat split; try assumption.
  now rewrite <- E.
Qed.

(** The fractional part of a double is a double. *)
Lemma frac_representable (x : Q) :
  representable x -> representable (x - inject_Z (trunc x)).
Proof.
  intros (m & e & Hm & He & Hx).
  destruct (Z_le_gt_dec 0 e) as [Hpos | Hneg].
  - apply (representable_comp 0); [| apply representable_0].
    assert (E : x == inject_Z (m * 2 ^ e)).
    { rewrite Hx, inject_Z_mult, pow2_Z by assumption. reflexivity. }
    rewrite (trunc_comp _ _ E), trunc_inject_Z, E. ring.
  - set (d := (2 ^ (- e))%Z).
    assert (Hd : (0 < d)%Z) by (apply Z.pow_pos_nonneg; lia).
    assert (Epow : pow2 e == / inject_Z d).
    { unfold d. rewrite <- pow2_Z by lia. unfold pow2.
      rewrite Qpower_opp, Qinv_involutive. reflexivity. }
    assert (E : x == m # Z.to_pos d).
    { rewrite Hx, Epow, Qmake_Qdiv, Z2Pos.id by assumption. reflexivity. }
    assert (Ht : trunc x = Z.quot m d).
    { rewrite (trunc_comp _ _ E). unfold trunc. simpl.
      now rewrite Z2Pos.id by assumption. }
    exists (Z.rem m d), e. split; [| split; [assumption |]].
    + assert (Z.abs (Z.rem m d) <= Z.abs m)%Z.
      { rewrite <- Z.rem_abs by lia. apply Z.rem_le; lia. }
      lia.
    + rewrite Ht, Hx, Epow.
      pose proof (Z.quot_rem' m d) as Hqr.
      assert (Hq : inject_Z m == inject_Z d * inject_Z (Z.quot m d) + inject_Z (Z.rem m d)).
      { rewrite <- inject_Z_mult, <- inject_Z_plus. now rewrite <- Hqr. }
      rewrite Hq. field.
      intros C. change 0 with (inject_Z 0) in C. rewrite inject_Z_injective in C. lia.
Qed.

(** The sign is set aside and put back. *)
Lemma magnitude_pos (x : Q) :
  0 < x -> Qred (Qabs x) == x /\ 0 < Qred (Qabs x).
Proof.
  intros H. rewrite Qred_correct, Qabs_pos by lra. split; [reflexivity | assumption].
Qed.

Lemma magnitude_neg (x : Q) :
  x < 0 -> Qred (Qabs x) == - x /\ 0 < Qred (Qabs x).
Proof.
  intros H. rewrite Qred_correct, Qabs_neg by lra. split; [reflexivity | lra].
Qed.

Lemma round64_pos (x : Q) :
  0 < x -> round64 x == round_pos (Qred (Qabs x)).
Proof.
  intros H. unfold round64. apply Qltb_lt in H. rewrite H. apply Qred_correct.
Qed.

Lemma round64_neg (x : Q) :
  x < 0 -> round64 x == - round_pos (Qred (Qabs x)).
Proof.
  intros H. unfold round64.
  assert (H0 : Qltb 0 x = false) by (apply Qltb_ge; lra).
  apply Qltb_lt in H. rewrite H0, H. apply Qred_correct.
Qed.

Lemma round64_zero (x : Q) : x == 0 -> round64 x = 0.
Proof.
  intros H. unfold round64.
  assert (H0 : Qltb 0 x = false) by (apply Qltb_ge; lra).
  assert (H1 : Qltb x 0 = false) by (apply Qltb_ge; lra).
  now rewrite H0, H1.
Qed.

#[export] Instance round64_comp : Proper (Qeq ==> Qeq) round64.
Proof.
  intros x y E.
  assert (M : Qred (Qabs x) = Qred (Qabs y)) by (apply Qred_complete; now rewrite E).
  destruct (Q_dec x 0) as [[Hneg | Hpos] | Hz].
  - rewrite (round64_neg x), (round64_neg y) by lra. now rewrite M.
  - rewrite (round64_pos x), (round64_pos y) by lra. now rewrite M.
  - rewrite (round64_zero x), (round64_zero y) by lra. reflexivity.
Qed.

(** Rounding to nearest is symmetric about zero. *)
Lemma round64_opp (x : Q) : round64 (- x) == - round64 x.
Proof.
  assert (M : Qred (Qabs (- x)) = Qred (Qabs x))
    by (apply Qred_complete, Qabs_opp).
  destruct (Q_dec x 0) as [[Hneg | Hpos] | Hz].
  - rewrite (round64_neg x), (round64_pos (- x)) by lra. rewrite M. ring.
  - rewrite (round64_pos x), (round64_neg (- x)) by lra. now rewrite M.
  - rewrite (round64_zero x), (round64_zero (- x)) by lra. reflexivity.
Qed.

(** The result of a rounding is a double. *)
Lemma round64_representable (x : Q) : representable (round64 x).
Proof.
  destruct (Q_dec x 0) as [[Hneg | Hpos] | Hz].
  - destruct (magnitude_neg x Hneg) as [_ Hm].
    apply (representable_comp (- round_pos (Qred (Qabs x))));
      [symmetry; now apply round64_neg |].
    now apply representable_opp, round_pos_representable.
  - destruct (magnitude_pos x Hpos) as [_ Hm].
    apply (representable_comp (round_pos (Qred (Qabs x))));
      [symmetry; now apply round64_pos |].
    now apply round_pos_representable.
  - rewrite (round64_zero x Hz). apply representable_0.
Qed.

(** A double is its own rounding. *)
Lemma round64_fix (x : Q) : representable x -> round64 x == x.
Proof.
  intros Hr. destruct (Q_dec x 0) as [[Hneg | Hpos] | Hz].
  - destruct (magnitude_neg x Hneg) as [Hm Hm0].
    rewrite (round64_neg x Hneg), round_pos_fix; [rewrite Hm; ring | assumption |].
    apply (representable_comp (- x)); [now symmetry | now apply representable_opp].
  - destruct (magnitude_pos x Hpos) as [Hm Hm0].
    rewrite (round64_pos x Hpos), round_pos_fix; [exact Hm | assumption |].
    apply (representable_comp x); [now symmetry | assumption].
  - rewrite (round64_zero x Hz). now symmetry.
Qed.

(** Subtracting the whole part of a double is exact. *)
Lemma round64_frac (x : Q) :
  representable x ->
  round64 (x - inject_Z (trunc x)) == x - inject_Z (trunc x).
Proof.
  intros Hr. now apply round64_fix, frac_representable.
Qed.

(** In the normal range the relative error of a rounding is at most
    2^-53. *)
Lemma round64_rel (x : Q) :
  pow2 (-1022) <= Qabs x ->
  Qabs (round64 x - x) <= pow2 (-53) * Qabs x.
Proof.
  intros H. pose proof (pow2_pos (-1022)) as Hp.
  destruct (Q_dec x 0) as [[Hneg | Hpos] | Hz].
  - destruct (magnitude_neg x Hneg) as [Hm Hm0].
    pose proof (round64_neg x Hneg) as Er.
    assert (Ha : Qabs x == - x) by (apply Qabs_neg; lra).
    assert (Hn : pow2 (-1022) <= Qred (Qabs x)) by (rewrite Hm, <- Ha; exact H).
    destruct (round_pos_rel _ Hn) as [H1 H2].
    set (m := Qred (Qabs x)) in *. set (r := round_pos m) in *.
    rewrite Hm in H1, H2. rewrite Er, Ha.
    set (u := pow2 (-53)) in *. apply Qabs_case; intros _; lra.
  - destruct (magnitude_pos x Hpos) as [Hm Hm0].
    pose proof (round64_pos x Hpos) as Er.
    assert (Ha : Qabs x == x) by (apply Qabs_pos; lra).
    assert (Hn : pow2 (-1022) <= Qred (Qabs x)) by (rewrite Hm, <- Ha; exact H).
    destruct (round_pos_rel _ Hn) as [H1 H2].
    set (m := Qred (Qabs x)) in *. set (r := round_pos m) in *.
    rewrite Hm in H1, H2. rewrite Er, Ha.
    set (u := pow2 (-53)) in *. apply Qabs_case; intros _; lra.
  - rewrite Hz in H. change (Qabs 0) with 0 in H. lra.
Qed.

(** Rounding keeps the sign. *)
Lemma round64_nonneg (x : Q) : 0 <= x -> 0 <= round64 x.
Proof.
  intros H. destruct (Qlt_le_dec 0 x) as [Hpos | Hz].
  - destruct (magnitude_pos x Hpos) as [_ Hm].
    rewrite (round64_pos x Hpos). now apply round_pos_nonneg.
  - rewrite (round64_zero x) by lra. lra.
Qed.

(** Below the normal range the error of a rounding is at most half the
    subnormal spacing. *)
Lemma round_pos_small (x : Q) :
  0 < x -> x < pow2 (-1022) -> round_pos x <= x + pow2 (-1075).
Proof.
  intros Hx Hs. destruct (ilog2_spec x Hx) as [Hl _].
  assert (L : (ilog2 x < -1022)%Z) by (apply pow2_lt_inv; lra).
  pose proof (round_pos_err x) as [He _]. cbv zeta in He.
  replace (ulp_exp x) with (-1074)%Z in He by (unfold ulp_exp; lia).
  assert (E : pow2 (-1074) * (1 # 2) == pow2 (-1075)) by reflexivity.
  rewrite E in He. lra.
Qed.

Lemma round64_small (x : Q) :
  Qabs x < pow2 (-1022) -> Qabs (round64 x) <= Qabs x + pow2 (-1075).
Proof.
  intros H. pose proof (pow2_pos (-1075)) as Hp.
  destruct (Q_dec x 0) as [[Hneg | Hpos] | Hz].
  - destruct (magnitude_neg x Hneg) as [Hm Hm0].
    assert (Ha : Qabs x == - x) by (apply Qabs_neg; lra).
    assert (Hs : Qred (Qabs x) < pow2 (-1022)) by (rewrite Hm, <- Ha; exact H).
    pose proof (round_pos_small _ Hm0 Hs) as Hr.
    pose proof (round_pos_nonneg _ Hm0) as Hn.
    pose proof (round64_neg x Hneg) as Er.
    set (m := Qred (Qabs x)) in *. set (r := round_pos m) in *.
    rewrite Hm in Hr. rewrite Er, Ha, Qabs_opp, Qabs_pos by assumption. lra.
  - destruct (magnitude_pos x Hpos) as [Hm Hm0].
    assert (Ha : Qabs x == x) by (apply Qabs_pos; lra).
    assert (Hs : Qred (Qabs x) < pow2 (-1022)) by (rewrite Hm, <- Ha; exact H).
    pose proof (round_pos_small _ Hm0 Hs) as Hr.
    pose proof (round_pos_nonneg _ Hm0) as Hn.
    pose proof (round64_pos x Hpos) as Er.
    set (m := Qred (Qabs x)) in *. set (r := round_pos m) in *.
    rewrite Hm in Hr. rewrite Er, Ha, Qabs_pos by assumption. lra.
  - rewrite (round64_zero x Hz). change (Qabs 0) with 0.
    pose proof (Qabs_nonneg x). lra.
Qed.

(** ** Configuration clamp *)

Ltac qcases :=
  repeat match goal with
  | |- context [Qltb ?a ?b] =>
      let E := fresh "E" in
      destruct (Qltb a b) eqn:E;
      [apply Qltb_lt in E | apply Qltb_ge in E]
  | |- context [Qgeb ?a ?b] =>
      let E := fresh "E" in
      destruct (Qgeb a b) eqn:E;
      [apply Qgeb_ge in E | apply Qgeb_lt in E]
  end.

Ltac zcases :=
  repeat match goal with
  | |- context [(?a <? ?b)%Z] => destruct (Z.ltb_spec a b)
  | |- context [(?a >? ?b)%Z] => rewrite (Z.gtb_ltb a b)
  | |- context [(?a >=? ?b)%Z] => rewrite (Z.geb_leb a b)
  | |- context [(?a <=? ?b)%Z] => destruct (Z.leb_spec a b)
  | |- context [(?a =? ?b)%Z] => destruct (Z.eqb_spec a b)
  end.

Lemma clamp_tick_ms (c : config) :
  (1 <= tick_ms (clamp_config c) <= 50)%Z.
Proof.
  unfold clamp_config; simpl.
  destruct (Z.ltb_spec (tick_ms c) 1); zcases; lia.
Qed.

(** The clamp on parsed values, field by field. *)

Lemma clamp_double_spec (lo hi : Q) (x : parsed) :
  lo <= hi -> clamped_to lo hi x (clamp_double lo hi x).
Proof.
  intros Hlh. unfold clamp_double. destruct x as [q | [|] |]; simpl.
  - destruct (Qltb q lo) eqn:E1; [apply Qltb_lt in E1 | apply Qltb_ge in E1];
      simpl.
    + destruct (Qltb hi lo) eqn:E2; [apply Qltb_lt in E2; lra |].
      exists lo. repeat split; lra.
    + destruct (Qltb hi q) eqn:E2; [apply Qltb_lt in E2 | apply Qltb_ge in E2].
      * exists hi. repeat split; lra.
      * exists q. repeat split; lra.
  - destruct (Qltb hi lo) eqn:E2; [apply Qltb_lt in E2; lra |].
    exists lo. repeat split; lra.
  - exists hi. repeat split; lra.
  - reflexivity.
Qed.

(** A value inside the range, and a NaN, are left as they are. *)
Lemma clamp_double_fixed (lo hi : Q) (x : parsed) :
  clamped_to lo hi x x -> clamp_double lo hi x = x.
Proof.
  unfold clamp_double. destruct x as [q | s |]; simpl.
  - intros (q' & E & H1 & H2). injection E as <-.
    apply Qltb_ge in H1, H2. now rewrite H1, H2.
  - intros (q' & E & _). discriminate.
  - reflexivity.
Qed.

Lemma clamp_double_idempotent (lo hi : Q) (x : parsed) :
  lo <= hi ->
  clamp_double lo hi (clamp_double lo hi x) = clamp_double lo hi x.
Proof.
  intros Hlh. apply clamp_double_fixed.
  pose proof (clamp_double_spec lo hi x Hlh) as H.
  destruct x as [q | s |]; simpl in H.
  - destruct H as (q' & -> & H1 & H2). exists q'. now repeat split.
  - destruct H as (q' & -> & H1 & H2). exists q'. now repeat split.
  - now rewrite H.
Qed.

(** The bounds of the two clamped fields, as doubles, are in order. *)
Lemma clamp_bounds_ordered :
  round64 (1 # 100) <= round64 (2 # 10) /\ round64 (1 # 100) <= 10.
Proof.
  split; apply Qle_bool_iff; vm_compute; reflexivity.
Qed.

(** On the tick interval, an integer, the clamp is the one of
    [clamp_config]. *)
Lemma clamp_arguments_finite (c : config) :
  arg_tick_ms (clamp_arguments (finite_arguments c)) =
  tick_ms (clamp_config c).
Proof. reflexivity. Qed.

Lemma clamp_arguments_tick_ms (c : arguments) :
  (1 <= arg_tick_ms (clamp_arguments c) <= 50)%Z.
Proof.
  unfold clamp_arguments; simpl.
  destruct (Z.ltb_spec (arg_tick_ms c) 1); zcases; lia.
Qed.

(** C2, as stated, fails: the clamp of [main] does not touch the rate
    thresholds, the minimum scale or the stop threshold, so the
    configuration given by [--low-rate 40 --min-scale 5 --stop-threshold -1]
    reaches the scheduler outside the ranges of the data model. *)
Lemma clamp_config_not_spec_ranges :
  clamp_config cfg_unvalidated = cfg_unvalidated /\
  ~ spec_ranges (clamp_config cfg_unvalidated) /\
  clamp_arguments (finite_arguments cfg_unvalidated) =
  finite_arguments cfg_unvalidated.
Proof.
  split; [reflexivity |]. split; [| vm_compute; reflexivity].
  intros [_ [_ [Hrate _]]]. vm_compute in Hrate. discriminate.
Qed.

(** C2 (amended): the clamp of [main] is total.  It brings friction into
    [0.01, 0.2] and the multiplier into [0.01, 10] (the bounds being the
    doubles that the literals denote) whenever [atof] returned something
    other than a NaN, an infinity included, and leaves a NaN as it is,
    because both comparisons are false on it; it brings the tick
    interval into [1, 50] ms; it passes the rate thresholds, the minimum
    scale and the stop threshold through unchanged; it changes nothing
    when run again; and [--friction nan] reaches the scheduler as
    given. *)
Theorem clamp_arguments_ranges (c : arguments) :
  clamped_to (round64 (1 # 100)) (round64 (2 # 10)) (arg_friction c)
             (arg_friction (clamp_arguments c)) /\
  (1 <= arg_tick_ms (clamp_arguments c) <= 50)%Z /\
  clamped_to (round64 (1 # 100)) 10 (arg_multiplier c)
             (arg_multiplier (clamp_arguments c)) /\
  arg_low_rate (clamp_arguments c) = arg_low_rate c /\
  arg_high_rate (clamp_arguments c) = arg_high_rate c /\
  arg_min_scale (clamp_arguments c) = arg_min_scale c /\
  arg_stop_threshold (clamp_arguments c) = arg_stop_threshold c /\
  clamp_arguments (clamp_arguments c) = clamp_arguments c /\
  clamp_arguments args_nan_friction = args_nan_friction.
Proof.
  destruct clamp_bounds_ordered as [Hf Hm].
  split; [now apply clamp_double_spec |].
  split; [apply clamp_arguments_tick_ms |].
  split; [now apply clamp_double_spec |].
  repeat (split; [reflexivity |]).
  split; [| reflexivity].
  pose proof (clamp_arguments_tick_ms c) as Ht.
  unfold clamp_arguments in *.
  cbn [arg_friction arg_tick_ms arg_low_rate arg_high_rate arg_min_scale
       arg_stop_threshold arg_multiplier arg_verbose] in *.
  rewrite !clamp_double_idempotent by assumption.
  set (t := if (_ >? 50)%Z then _ else _) in *.
  destruct (Z.ltb_spec t 1); [lia |].
  rewrite Z.gtb_ltb. destruct (Z.ltb_spec 50 t); [lia |]. reflexivity.
Qed.

(** ** The coarse-unit loops *)

Lemma drain_up_small (fuel : nat) (code acc : Z) :
  (acc < HIRES_PER_TICK)%Z -> drain_up fuel code acc = (acc, []).
Proof.
  intros H. destruct fuel; simpl; [reflexivity |].
  rewrite Z.geb_leb. destruct (Z.leb_spec HIRES_PER_TICK acc); [lia | reflexivity].
Qed.

Lemma drain_down_small (fuel : nat) (code acc : Z) :
  (- HIRES_PER_TICK < acc)%Z -> drain_down fuel code acc = (acc, []).
Proof.
  unfold HIRES_PER_TICK. intros H. destruct fuel; simpl; [reflexivity |].
  destruct (Z.leb_spec acc (- 120)); [lia | reflexivity].
Qed.

Lemma drain_up_spec (fuel : nat) (code : Z) : forall acc : Z,
  (0 <= acc)%Z -> (Z.to_nat acc <= fuel)%nat ->
  drain_up fuel code acc =
  ((acc mod HIRES_PER_TICK)%Z,
   repeat (coarse_event code 1) (Z.to_nat (acc / HIRES_PER_TICK))).
Proof.
  unfold HIRES_PER_TICK.
  induction fuel as [| k IH]; intros acc Hpos Hfuel.
  - assert (acc = 0%Z) by lia. subst acc. reflexivity.
  - simpl. unfold HIRES_PER_TICK. rewrite Z.geb_leb.
    destruct (Z.leb_spec 120 acc) as [Hge | Hlt].
    + rewrite IH by lia.
      remember (acc - 120)%Z as b eqn:Eb.
      replace acc with (b + 1 * 120)%Z by lia.
      rewrite Z_mod_plus_full, Z_div_plus_full by lia.
      assert (0 <= b / 120)%Z by (apply Z.div_pos; lia).
      rewrite Z2Nat.inj_add by lia. rewrite Nat.add_comm. reflexivity.
    + rewrite Z.mod_small, Z.div_small by lia. reflexivity.
Qed.

Lemma drain_down_spec (fuel : nat) (code : Z) : forall acc : Z,
  (acc <= 0)%Z -> (Z.to_nat (- acc) <= fuel)%nat ->
  drain_down fuel code acc =
  ((- ((- acc) mod HIRES_PER_TICK))%Z,
   repeat (coarse_event code (-1)) (Z.to_nat ((- acc) / HIRES_PER_TICK))).
Proof.
  unfold HIRES_PER_TICK.
  induction fuel as [| k IH]; intros acc Hneg Hfuel.
  - assert (acc = 0%Z) by lia. subst acc. reflexivity.
  - simpl. unfold HIRES_PER_TICK.
    destruct (Z.leb_spec acc (- 120)) as [Hle | Hgt].
    + rewrite IH by lia.
      remember (- (acc + 120))%Z as b eqn:Eb.
      replace (- acc)%Z with (b + 1 * 120)%Z by lia.
      rewrite Z_mod_plus_full, Z_div_plus_full by lia.
      assert (0 <= b / 120)%Z by (apply Z.div_pos; lia).
      rewrite Z2Nat.inj_add by lia. rewrite Nat.add_comm. reflexivity.
    + rewrite Z.mod_small, Z.div_small by lia.
      replace (- - acc)%Z with acc by lia. reflexivity.
Qed.

(** The two loops together emit one coarse unit per 120-unit boundary
    crossed, in the direction of the carry, and leave the remainder. *)
Lemma drain_spec (code acc : Z) :
  drain code acc =
  (Z.rem acc HIRES_PER_TICK,
   repeat (coarse_event code (Z.sgn acc))
          (Z.abs_nat (Z.quot acc HIRES_PER_TICK))).
Proof.
  unfold drain. destruct (Z_le_gt_dec 0 acc) as [Hpos | Hneg].
  - rewrite drain_up_spec by lia.
    assert (Hm := Z.mod_pos_bound acc HIRES_PER_TICK eq_refl).
    rewrite drain_down_small by (unfold HIRES_PER_TICK in *; lia).
    rewrite app_nil_r, Z.rem_mod_nonneg, Z.quot_div_nonneg
      by (unfold HIRES_PER_TICK; lia).
    rewrite Zabs2Nat.abs_nat_nonneg by (apply Z.div_pos; unfold HIRES_PER_TICK; lia).
    destruct (Z.eq_dec acc 0) as [-> | Hnz]; [reflexivity |].
    rewrite Z.sgn_pos by lia. reflexivity.
  - rewrite drain_up_small by (unfold HIRES_PER_TICK; lia).
    rewrite drain_down_spec by lia. simpl.
    rewrite Z.sgn_neg by lia.
    remember (- acc)%Z as b eqn:Eb.
    replace acc with (- b)%Z by lia.
    rewrite Z.rem_opp_l, Z.quot_opp_l by (unfold HIRES_PER_TICK; lia).
    rewrite Z.rem_mod_nonneg, Z.quot_div_nonneg by (unfold HIRES_PER_TICK; lia).
    rewrite Zabs2Nat.abs_nat_spec, Z.abs_opp.
    rewrite Z.abs_eq by (apply Z.div_pos; unfold HIRES_PER_TICK; lia).
    reflexivity.
Qed.

(** When the loops are done, the carry is strictly inside one coarse
    unit: the fuel of the model never cuts a loop short. *)
Lemma drain_exit (code acc : Z) :
  (- HIRES_PER_TICK < fst (drain code acc) < HIRES_PER_TICK)%Z.
Proof.
  rewrite drain_spec. simpl.
  assert (H := Z.rem_bound_abs acc HIRES_PER_TICK).
  unfold HIRES_PER_TICK in *.
  pose proof (Z.rem_bound_pos_pos acc 120).
  pose proof (Z.rem_bound_neg_pos acc 120). lia.
Qed.

(** ** The emission step, branch by branch *)

Lemma emit_axis_rest (a : axis_state) (hc : Z) (cfg : config) :
  fabs (velocity a) < stop_threshold cfg ->
  emit_axis a hc cfg = (false, mkAxis 0 0 0 (rate a), []).
Proof.
  intros H. unfold emit_axis. apply Qltb_lt in H. now rewrite H.
Qed.

Lemma emit_axis_active (a : axis_state) (hc : Z) (cfg : config) :
  stop_threshold cfg <= fabs (velocity a) ->
  emit_axis a hc cfg =
  let vel := velocity a * (1 - friction cfg) in
  let accum := emit_accum a + (velocity a - vel) in
  let whole := trunc accum in
  if (whole =? 0)%Z
  then (false, mkAxis vel (accum - inject_Z whole) (lowres_accum a) (rate a), [])
  else (true,
        mkAxis vel (accum - inject_Z whole)
               (Z.rem (lowres_accum a + whole) HIRES_PER_TICK) (rate a),
        mkEvent EV_REL hc whole ::
        repeat (coarse_event (lowres_code_of hc) (Z.sgn (lowres_accum a + whole)))
               (Z.abs_nat (Z.quot (lowres_accum a + whole) HIRES_PER_TICK))).
Proof.
  intros H. unfold emit_axis. apply Qltb_ge in H. rewrite H. cbv zeta.
  destruct (trunc _ =? 0)%Z; simpl; [reflexivity |].
  now rewrite drain_spec.
Qed.

Lemma decay_amount_eq (v f : Q) : v - v * (1 - f) == v * f.
Proof. ring. Qed.

(** ** Rest *)

Lemma axis_step_tick (cfg : config) (hc : Z) (a : axis_state) :
  fst (axis_step cfg hc a Tick) = tick cfg hc a.
Proof.
  unfold tick. simpl. now destruct (emit_axis a hc cfg) as [[did a'] out].
Qed.

Lemma reachable_ticks (cfg : config) (hc : Z) (n : nat) : forall a,
  reachable cfg hc a -> reachable cfg hc (ticks cfg hc n a).
Proof.
  induction n as [| k IH]; intros a Ha; simpl; [assumption |].
  apply IH. rewrite <- axis_step_tick. now apply reach_step.
Qed.

(** C1, as stated, fails: the tick in which the decaying velocity crosses
    under the stop threshold still runs the decay branch, so it ends with
    [|velocity| < stop_threshold] while the remainder and the carry are
    not zero. *)
Lemma rest_invariant_fails_on_crossing_tick :
  reachable default_config REL_WHEEL_HI_RES coasting /\
  let a' := snd (fst (emit_axis coasting REL_WHEEL_HI_RES default_config)) in
  fabs (velocity a') < stop_threshold default_config /\
  ~ emit_accum a' == 0 /\ lowres_accum a' <> 0%Z.
Proof.
  split.
  - apply reachable_ticks. apply reach_step. apply reach_zero.
  - cbv zeta. split; [| split].
    + apply Qltb_lt. vm_compute. reflexivity.
    + intros H. apply Qeq_bool_iff in H. vm_compute in H. discriminate.
    + vm_compute. discriminate.
Qed.

(** C1 (amended): the reset is tested when a tick starts.  If
    [|velocity| < stop_threshold] when [emit_axis] is called, the call
    writes nothing and leaves velocity, remainder and carry at zero; so
    a tick that ends below the threshold is followed by a tick that
    leaves the axis fully at rest. *)
Theorem rest_after_tick_below_threshold
    (cfg : config) (hc : Z) (a : axis_state) :
  fabs (velocity a) < stop_threshold cfg ->
  emit_axis a hc cfg = (false, mkAxis 0 0 0 (rate a), []) /\
  at_rest (snd (fst (emit_axis a hc cfg))).
Proof.
  intros H. rewrite (emit_axis_rest a hc cfg H). split; [reflexivity |].
  repeat split.
Qed.

Lemma rest_after_tick_below_threshold_witness :
  let a := snd (fst (emit_axis coasting REL_WHEEL_HI_RES default_config)) in
  fabs (velocity a) < stop_threshold default_config /\
  at_rest (snd (fst (emit_axis a REL_WHEEL_HI_RES default_config))).
Proof.
  cbv zeta.
  assert (H : fabs (velocity
                (snd (fst (emit_axis coasting REL_WHEEL_HI_RES default_config))))
              < stop_threshold default_config).
  { apply Qltb_lt. vm_compute. reflexivity. }
  split; [exact H |].
  exact (proj2 (rest_after_tick_below_threshold default_config
                  REL_WHEEL_HI_RES _ H)).
Defined.

(** ** Decay, remainder and truncation in double arithmetic *)

Lemma fabs_axis_opp (a : axis_state) :
  fabs (velocity (axis_opp a)) == fabs (velocity a).
Proof. apply Qabs_opp. Qed.

Lemma coarse_run_opp (lc x : Z) :
  repeat (coarse_event lc (Z.sgn (- x)))
         (Z.abs_nat (Z.quot (- x) HIRES_PER_TICK)) =
  map event_opp
      (repeat (coarse_event lc (Z.sgn x))
              (Z.abs_nat (Z.quot x HIRES_PER_TICK))).
Proof.
  rewrite map_repeat, Z.sgn_opp, Z.quot_opp_l by discriminate.
  rewrite !Zabs2Nat.abs_nat_spec, Z.abs_opp. reflexivity.
Qed.

Lemma int_of_double_fits (x : Q) :
  (INT_MIN <= trunc x <= INT_MAX)%Z -> int_of_double x = trunc x.
Proof.
  intros [H1 H2]. unfold int_of_double.
  apply Z.leb_le in H1, H2. now rewrite H1, H2.
Qed.

Lemma emit_axis_b64_active (a : axis_state) (hc : Z) (cfg : config) :
  stop_threshold cfg <= fabs (velocity a) ->
  emit_axis_b64 a hc cfg =
  let vel := round64 (velocity a * round64 (1 - friction cfg)) in
  let accum := round64 (emit_accum a + round64 (velocity a - vel)) in
  let whole := int_of_double accum in
  if (whole =? 0)%Z
  then (false,
        mkAxis vel (round64 (accum - inject_Z whole)) (lowres_accum a) (rate a),
        [])
  else (true,
        mkAxis vel (round64 (accum - inject_Z whole))
               (Z.rem (lowres_accum a + whole) HIRES_PER_TICK) (rate a),
        mkEvent EV_REL hc whole ::
        repeat (coarse_event (lowres_code_of hc) (Z.sgn (lowres_accum a + whole)))
               (Z.abs_nat (Z.quot (lowres_accum a + whole) HIRES_PER_TICK))).
Proof.
  intros H. unfold emit_axis_b64. apply Qltb_ge in H. rewrite H. cbv zeta.
  destruct (int_of_double _ =? 0)%Z; simpl; [reflexivity |].
  now rewrite drain_spec.
Qed.

Lemma round64_opp_eq (x y : Q) : x == - y -> round64 x == - round64 y.
Proof. intros E. rewrite E. apply round64_opp. Qed.

(** The mirrored axis goes through the mirrored roundings. *)
Lemma accum_b64_opp (a : axis_state) (cfg : config) :
  let c := round64 (1 - friction cfg) in
  round64 (velocity (axis_opp a) * c) == - round64 (velocity a * c) /\
  round64 (emit_accum (axis_opp a) +
           round64 (velocity (axis_opp a) - round64 (velocity (axis_opp a) * c)))
  == - round64 (emit_accum a +
                round64 (velocity a - round64 (velocity a * c))).
Proof.
  cbv zeta. set (c := round64 (1 - friction cfg)).
  assert (Hv : round64 (velocity (axis_opp a) * c) == - round64 (velocity a * c))
    by (apply round64_opp_eq; simpl; ring).
  split; [exact Hv |].
  assert (He : round64 (velocity (axis_opp a) - round64 (velocity (axis_opp a) * c))
               == - round64 (velocity a - round64 (velocity a * c))).
  { apply round64_opp_eq. rewrite Hv. simpl. ring. }
  apply round64_opp_eq. rewrite He. simpl. ring.
Qed.

(** C4, as stated, fails, in two ways.  The whole part is taken by a
    cast to [int]: from the velocity that one [REL_WHEEL] event of value
    2147483647 leaves, the accumulated decay is beyond [INT_MAX], the
    value written is [INT_MIN] and the remainder ends above 1.2e10, far
    outside (-1, 1).  And the decay amount is the difference of the old
    and the new velocity, both doubles, not the product of velocity and
    friction: at friction 0.125 and velocity [8 - 2^-48] that product,
    rounded or not, has whole part 0, while the step writes 1. *)
Lemma emit_axis_b64_not_truncated_product :
  (stop_threshold default_config_b64 <= fabs (velocity overflowing) /\
   (INT_MAX <
    trunc (round64 (emit_accum overflowing +
             round64 (velocity overflowing -
                      round64 (velocity overflowing *
                               round64 (1 - friction default_config_b64))))))%Z /\
   hd_error (snd (emit_axis_b64 overflowing REL_WHEEL_HI_RES
                    default_config_b64)) =
     Some (mkEvent EV_REL REL_WHEEL_HI_RES INT_MIN) /\
   12000000000 <
     emit_accum (snd (fst (emit_axis_b64 overflowing REL_WHEEL_HI_RES
                             default_config_b64)))) /\
  (stop_threshold cfg_eighth <= fabs (velocity near_eight) /\
   round64 (velocity near_eight) == velocity near_eight /\
   trunc (emit_accum near_eight +
          velocity near_eight * friction cfg_eighth) = 0%Z /\
   trunc (emit_accum near_eight +
          round64 (velocity near_eight * friction cfg_eighth)) = 0%Z /\
   fst (fst (emit_axis_b64 near_eight REL_WHEEL_HI_RES cfg_eighth)) = true /\
   snd (emit_axis_b64 near_eight REL_WHEEL_HI_RES cfg_eighth) =
     [mkEvent EV_REL REL_WHEEL_HI_RES 1]).
Proof.
  split.
  - assert (H : stop_threshold default_config_b64
                <= fabs (velocity overflowing))
      by (apply Qle_bool_iff; vm_compute; reflexivity).
    split; [exact H |]. split; [vm_compute; reflexivity |].
    rewrite (emit_axis_b64_active overflowing REL_WHEEL_HI_RES
               default_config_b64 H).
    cbv zeta.
    set (acc := round64 (emit_accum overflowing + _)).
    assert (Ew : int_of_double acc = INT_MIN) by (vm_compute; reflexivity).
    rewrite Ew. change (INT_MIN =? 0)%Z with false.
    cbn [fst snd hd_error emit_accum].
    split; [reflexivity |]. apply Qltb_lt. vm_compute. reflexivity.
  - split; [apply Qle_bool_iff; vm_compute; reflexivity |].
    split; [apply Qeq_bool_iff; vm_compute; reflexivity |].
    repeat split; vm_compute; reflexivity.
Qed.

(** C4 (amended): for a finite velocity and remainder, with
    [|velocity| >= stop_threshold] and a friction between 0 and 1 (so
    that no intermediate result leaves the range of double), one call of [emit_axis] in double arithmetic replaces the
    velocity by the rounded product [velocity * (1 - friction)], takes
    as decay amount the rounded difference of the old and the new
    velocity (without rounding that difference is
    [velocity * friction]), and adds it to the remainder.  Provided the
    whole part of that sum fits an [int], the cast takes it out by
    truncation toward zero (never larger in magnitude than the sum,
    never of the other sign) and writes it as fine units, the
    subtraction of the whole part is exact, and the remainder ends
    strictly between -1 and 1.  The step is sign-symmetric as long as
    the whole part is not [INT_MIN]: the mirrored axis writes the
    mirrored events and reaches the mirrored state. *)
Theorem emit_axis_b64_decay_truncation
    (cfg : config) (hc : Z) (a : axis_state) :
  stop_threshold cfg <= fabs (velocity a) ->
  0 <= friction cfg -> friction cfg <= 1 ->
  let vel := round64 (velocity a * round64 (1 - friction cfg)) in
  let decay_amount := round64 (velocity a - vel) in
  let accum := round64 (emit_accum a + decay_amount) in
  let whole := trunc accum in
  (INT_MIN <= whole <= INT_MAX)%Z ->
  let a' := snd (fst (emit_axis_b64 a hc cfg)) in
  let out := snd (emit_axis_b64 a hc cfg) in
  velocity a' = vel /\
  velocity a - velocity a * (1 - friction cfg) == velocity a * friction cfg /\
  emit_accum a' == accum - inject_Z whole /\
  (-1 < emit_accum a' /\ emit_accum a' < 1) /\
  (Qabs (inject_Z whole) <= Qabs accum /\ 0 <= inject_Z whole * accum) /\
  hd_error out =
    (if (whole =? 0)%Z then None else Some (mkEvent EV_REL hc whole)) /\
  fst (fst (emit_axis_b64 a hc cfg)) = negb (whole =? 0)%Z /\
  ((INT_MIN < whole)%Z ->
   fst (fst (emit_axis_b64 (axis_opp a) hc cfg)) =
     fst (fst (emit_axis_b64 a hc cfg)) /\
   axis_equiv (snd (fst (emit_axis_b64 (axis_opp a) hc cfg))) (axis_opp a') /\
   snd (emit_axis_b64 (axis_opp a) hc cfg) = map event_opp out).
Proof.
  intros Hge _ _. cbv zeta. intros Hfit.
  assert (Hge' : stop_threshold cfg <= fabs (velocity (axis_opp a)))
    by (now rewrite fabs_axis_opp).
  destruct (accum_b64_opp a cfg) as [Hvel Hacc]. cbv zeta in Hvel, Hacc.
  rewrite (emit_axis_b64_active a hc cfg Hge).
  rewrite (emit_axis_b64_active (axis_opp a) hc cfg Hge'). cbv zeta.
  set (c := round64 (1 - friction cfg)) in *.
  set (vel := round64 (velocity a * c)) in *.
  set (x := round64 (emit_accum a + round64 (velocity a - vel))) in *.
  set (vel' := round64 (velocity (axis_opp a) * c)) in *.
  set (x' := round64 (emit_accum (axis_opp a) +
                      round64 (velocity (axis_opp a) - vel'))) in *.
  rewrite (int_of_double_fits x Hfit).
  set (w := trunc x) in *.
  assert (Hrep : representable x) by apply round64_representable.
  assert (Hexact : round64 (x - inject_Z w) == x - inject_Z w)
    by (apply round64_frac; assumption).
  assert (Hrem := trunc_remainder x). fold w in Hrem.
  assert (Htz := trunc_toward_zero x). fold w in Htz.
  assert (Hmag : Qabs (inject_Z w) <= Qabs x /\ 0 <= inject_Z w * x).
  { destruct Htz as [Hp Hn]. destruct (Qlt_le_dec x 0) as [Hneg | Hpos].
    - destruct Hn as [Hn1 Hn2]; [lra |].
      rewrite !Qabs_neg by lra. split; [lra | nra].
    - destruct (Hp Hpos) as [Hp1 Hp2].
      rewrite !Qabs_pos by lra. split; [lra | nra]. }
  assert (Hw' : (INT_MIN < w)%Z -> int_of_double x' = (- w)%Z).
  { intros Hlow.
    assert (Et : trunc x' = (- w)%Z)
      by (unfold w; rewrite <- trunc_opp; apply trunc_comp; exact Hacc).
    rewrite int_of_double_fits; [exact Et |].
    rewrite Et. unfold INT_MIN, INT_MAX in *. lia. }
  assert (Hexact' : (INT_MIN < w)%Z ->
            round64 (x' - inject_Z (- w)) == - round64 (x - inject_Z w)).
  { intros _. apply round64_opp_eq. rewrite Hacc, inject_Z_opp. ring. }
  destruct (Z.eqb_spec w 0) as [Hz | Hnz];
    cbn [fst snd velocity emit_accum hd_error negb];
    (split; [reflexivity |]); (split; [apply decay_amount_eq |]);
    (split; [exact Hexact |]);
    (split; [rewrite Hexact; exact Hrem |]);
    (split; [exact Hmag |]); (split; [reflexivity |]);
    (split; [reflexivity |]); intros Hlow;
    rewrite (Hw' Hlow); specialize (Hexact' Hlow).
  - rewrite Hz in *. simpl. unfold axis_equiv; simpl.
    repeat split; try reflexivity; assumption.
  - destruct (Z.eqb_spec (- w) 0) as [Hz' | _]; [lia |].
    simpl. unfold axis_equiv; simpl.
    rewrite <- Z.opp_add_distr, Z.rem_opp_l, coarse_run_opp by discriminate.
    repeat split; try reflexivity; assumption.
Qed.

Lemma emit_axis_b64_decay_truncation_witness :
  let a := mkAxis 60 0 0 rate_zero in
  stop_threshold default_config_b64 <= fabs (velocity a) /\
  (0 <= friction default_config_b64 /\ friction default_config_b64 <= 1) /\
  (INT_MIN <=
   trunc (round64 (emit_accum a +
            round64 (velocity a -
                     round64 (velocity a *
                              round64 (1 - friction default_config_b64)))))
   <= INT_MAX)%Z /\
  (-1 < emit_accum (snd (fst (emit_axis_b64 a REL_WHEEL_HI_RES
                                default_config_b64))) /\
   emit_accum (snd (fst (emit_axis_b64 a REL_WHEEL_HI_RES
                           default_config_b64))) < 1).
Proof.
  cbv zeta.
  assert (H : stop_threshold default_config_b64
              <= fabs (velocity (mkAxis 60 0 0 rate_zero)))
    by (apply Qle_bool_iff; vm_compute; reflexivity).
  assert (Hfit :
    (INT_MIN <=
     trunc (round64 (emit_accum (mkAxis 60 0 0 rate_zero) +
              round64 (velocity (mkAxis 60 0 0 rate_zero) -
                       round64 (velocity (mkAxis 60 0 0 rate_zero) *
                                round64 (1 - friction default_config_b64)))))
     <= INT_MAX)%Z)
    by (split; apply Z.leb_le; vm_compute; reflexivity).
  assert (Hf0 : 0 <= friction default_config_b64)
    by (apply Qle_bool_iff; vm_compute; reflexivity).
  assert (Hf1 : friction default_config_b64 <= 1)
    by (apply Qle_bool_iff; vm_compute; reflexivity).
  split; [exact H |]. split; [split; [exact Hf0 | exact Hf1] |].
  split; [exact Hfit |].
  exact (proj1 (proj2 (proj2 (proj2
           (emit_axis_b64_decay_truncation default_config_b64
              REL_WHEEL_HI_RES (mkAxis 60 0 0 rate_zero) H Hf0 Hf1 Hfit))))).
Defined.

(** ** Force-emit fallback *)



Lemma force_emit_eq (a : axis_state) (hc : Z) :
  force_emit a hc =
  (mkAxis (velocity a - inject_Z (force_dir a)) 0
          (lowres_accum a + force_dir a) (rate a),
   [mkEvent EV_REL hc (force_dir a)]).
Proof. reflexivity. Qed.



(** C10: the fallback always clears the remainder, and since it takes a
    whole unit off a velocity that may be smaller than one, it can leave
    a velocity of the other sign and under the stop threshold: from
    velocity 0.9 it writes +1 and leaves -0.1, and with the default
    threshold the next tick then puts the axis at rest. *)
Theorem force_emit_side_effects (a : axis_state) (hc : Z) :
  emit_accum (fst (force_emit a hc)) = 0 /\
  let b := mkAxis (9 # 10) (emit_accum a) (lowres_accum a) (rate a) in
  let b' := fst (force_emit b hc) in
  snd (force_emit b hc) = [mkEvent EV_REL hc 1] /\
  velocity b' == - (1 # 10) /\
  lowres_accum b' = (lowres_accum a + 1)%Z /\
  fabs (velocity b') < stop_threshold default_config /\
  at_rest (snd (fst (emit_axis b' hc default_config))).
Proof.
  split; [reflexivity |]. cbv zeta.
  assert (Hlt : fabs (velocity
                  (fst (force_emit
                     (mkAxis (9 # 10) (emit_accum a) (lowres_accum a) (rate a))
                     hc))) < stop_threshold default_config).
  { apply Qltb_lt. reflexivity. }
  repeat split; try reflexivity; try exact Hlt;
    rewrite (emit_axis_rest _ hc default_config Hlt); reflexivity.
Qed.

(** ** Decay and settling *)


Lemma ticks_add (cfg : config) (hc : Z) (n m : nat) : forall a,
  ticks cfg hc (n + m) a = ticks cfg hc m (ticks cfg hc n a).
Proof.
  induction n as [| k IH]; intros a; [reflexivity |].
  simpl. apply IH.
Qed.

Lemma tick_velocity_rest (cfg : config) (hc : Z) (a : axis_state) :
  fabs (velocity a) < stop_threshold cfg -> velocity (tick cfg hc a) = 0.
Proof.
  intros H. unfold tick. now rewrite (emit_axis_rest a hc cfg H).
Qed.



Lemma qpow_nonneg (q : Q) (n : nat) : 0 <= q -> 0 <= qpow q n.
Proof.
  intros Hq. induction n as [| k IH]; simpl; [lra | nra].
Qed.

(** Bernoulli's inequality, in the form that bounds the decay factor. *)
Lemma qpow_decay_bound (f : Q) (n : nat) :
  0 <= f -> f <= 1 ->
  qpow (1 - f) n * (1 + inject_Z (Z.of_nat n) * f) <= 1.
Proof.
  intros Hf0 Hf1. induction n as [| k IH].
  - simpl. change (inject_Z 0) with 0. lra.
  - rewrite Nat2Z.inj_succ. unfold Z.succ. rewrite inject_Z_plus.
    change (inject_Z 1) with 1. simpl qpow.
    pose proof (qpow_nonneg (1 - f) k) as Hp.
    assert (Hk : 0 <= inject_Z (Z.of_nat k)).
    { change 0 with (inject_Z 0). rewrite <- Zle_Qle. lia. }
    set (p := qpow (1 - f) k) in *. set (m := inject_Z (Z.of_nat k)) in *.
    assert (Hp0 : 0 <= p) by (apply Hp; lra).
    assert (Hsq : 0 <= p * ((m + 1) * (f * f))) by
      (apply Qmult_le_0_compat; [assumption |];
       apply Qmult_le_0_compat; [lra | nra]).
    assert (E : (1 - f) * p * (1 + (m + 1) * f) ==
                p * (1 + m * f) - p * ((m + 1) * (f * f))) by ring.
    rewrite E. lra.
Qed.


(** ** Decay and settling in double arithmetic *)

Lemma emit_axis_b64_rest (a : axis_state) (hc : Z) (cfg : config) :
  fabs (velocity a) < stop_threshold cfg ->
  emit_axis_b64 a hc cfg = (false, mkAxis 0 0 0 (rate a), []).
Proof.
  intros H. unfold emit_axis_b64. apply Qltb_lt in H. now rewrite H.
Qed.

Lemma tick_b64_velocity_rest (cfg : config) (hc : Z) (a : axis_state) :
  fabs (velocity a) < stop_threshold cfg -> velocity (tick_b64 cfg hc a) = 0.
Proof.
  intros H. unfold tick_b64. now rewrite (emit_axis_b64_rest a hc cfg H).
Qed.

Lemma tick_b64_velocity_active (cfg : config) (hc : Z) (a : axis_state) :
  stop_threshold cfg <= fabs (velocity a) ->
  velocity (tick_b64 cfg hc a) =
  round64 (velocity a * round64 (1 - friction cfg)).
Proof.
  intros H. unfold tick_b64, emit_axis_b64. apply Qltb_ge in H. rewrite H.
  cbv zeta. destruct (negb _); [destruct (drain _ _) |]; reflexivity.
Qed.

Lemma ticks_b64_S (cfg : config) (hc : Z) (n : nat) : forall a,
  ticks_b64 cfg hc (S n) a = tick_b64 cfg hc (ticks_b64 cfg hc n a).
Proof.
  induction n as [| k IH]; intros a; [reflexivity |].
  change (ticks_b64 cfg hc (S (S k)) a)
    with (ticks_b64 cfg hc (S k) (tick_b64 cfg hc a)).
  now rewrite IH.
Qed.

Lemma ticks_b64_add (cfg : config) (hc : Z) (n m : nat) : forall a,
  ticks_b64 cfg hc (n + m) a = ticks_b64 cfg hc m (ticks_b64 cfg hc n a).
Proof.
  induction n as [| k IH]; intros a; [reflexivity |].
  simpl. apply IH.
Qed.

(** The unit roundoff and the numbers it is compared with. *)
Lemma roundoff_facts :
  0 < pow2 (-53) /\ pow2 (-53) <= 1 # 1024 /\
  pow2 (-50) == 8 * pow2 (-53) /\
  pow2 (-1022) + pow2 (-1075) <= 1 # 4 /\
  pow2 (-1022) + pow2 (-1075) < pow2 (-1021).
Proof.
  split; [apply pow2_pos |]. split; [apply Qle_bool_iff; reflexivity |].
  split; [reflexivity |].
  split; [apply Qle_bool_iff | apply Qltb_lt]; vm_compute; reflexivity.
Qed.

(** The factor [1.0 - cfg->friction] as the code computes it, for a
    friction of at least 2^-50 and at most 1: it is not negative, and
    even after the rounding of the product a tick takes away at least
    half of what the friction asks for. *)
Lemma decay_factor_bounds (cfg : config) :
  pow2 (-50) <= friction cfg -> friction cfg <= 1 ->
  let c := round64 (1 - friction cfg) in
  0 <= c /\ c * (1 + pow2 (-53)) <= 1 - friction cfg * (1 # 2).
Proof.
  intros Hf0 Hf1. cbv zeta.
  destruct roundoff_facts as (Hu0 & Hu1 & H50 & Hsub & _).
  split; [apply round64_nonneg; lra |].
  pose proof (round64_nonneg (1 - friction cfg)) as Hc0.
  destruct (Qlt_le_dec (Qabs (1 - friction cfg)) (pow2 (-1022))) as [Hs | Hn].
  - pose proof (round64_small _ Hs) as Hr.
    rewrite (Qabs_pos (round64 (1 - friction cfg))) in Hr by (apply Hc0; lra).
    rewrite (Qabs_pos (1 - friction cfg)) in Hr, Hs by lra.
    set (c := round64 (1 - friction cfg)) in *.
    set (u := pow2 (-53)) in *. set (f := friction cfg) in *.
    assert (Hc : c <= 1 # 4) by lra.
    assert (c * u <= (1 # 4) * u) by (apply Qmult_le_compat_r; lra).
    lra.
  - pose proof (round64_rel _ Hn) as Hr.
    rewrite (Qabs_pos (1 - friction cfg)) in Hr by lra.
    set (c := round64 (1 - friction cfg)) in *.
    set (u := pow2 (-53)) in *. set (f := friction cfg) in *.
    assert (Hc : c <= (1 - f) * (1 + u)).
    { revert Hr. apply Qabs_case; intros; lra. }
    rewrite H50 in *.
    assert (H1 : c * (1 + u) <= (1 - f) * (1 + u) * (1 + u))
      by (apply Qmult_le_compat_r; lra).
    assert (H2 : (1 - f) * (u * (2 + u)) <= 1 * (u * (2 + u)))
      by (apply Qmult_le_compat_r; nra).
    assert (H3 : u * u <= (1 # 1024) * u)
      by (apply Qmult_le_compat_r; lra).
    lra.
Qed.

(** One active tick in double arithmetic: either the magnitude of the
    velocity shrinks at least by the factor [1 - friction / 2], or the
    product has fallen among the subnormal numbers and the velocity is
    already below the threshold. *)
Lemma tick_b64_velocity_bound (cfg : config) (hc : Z) (a : axis_state) :
  pow2 (-50) <= friction cfg -> friction cfg <= 1 ->
  pow2 (-1021) <= stop_threshold cfg ->
  stop_threshold cfg <= fabs (velocity a) ->
  fabs (velocity (tick_b64 cfg hc a)) <=
    (1 - friction cfg * (1 # 2)) * fabs (velocity a) \/
  fabs (velocity (tick_b64 cfg hc a)) < stop_threshold cfg.
Proof.
  intros Hf0 Hf1 Hthr Hact.
  destruct roundoff_facts as (Hu0 & Hu1 & H50 & _ & Heta).
  destruct (decay_factor_bounds cfg Hf0 Hf1) as [Hc0 Hc1].
  rewrite (tick_b64_velocity_active cfg hc a Hact). unfold fabs in *.
  set (c := round64 (1 - friction cfg)) in *.
  assert (Hprod : Qabs (velocity a * c) == Qabs (velocity a) * c)
    by (rewrite Qabs_Qmult, (Qabs_pos c) by assumption; reflexivity).
  destruct (Qlt_le_dec (Qabs (velocity a * c)) (pow2 (-1022))) as [Hs | Hn].
  - right. pose proof (round64_small _ Hs) as Hr. lra.
  - left. pose proof (round64_rel _ Hn) as Hr. rewrite Hprod in Hr.
    set (r := round64 (velocity a * c)) in *.
    set (v := Qabs (velocity a)) in *. set (u := pow2 (-53)) in *.
    set (f := friction cfg) in *.
    assert (Hv : 0 <= v) by apply Qabs_nonneg.
    assert (Hr' : Qabs r <= v * c + u * (v * c)).
    { pose proof (Qabs_triangle (r - velocity a * c) (velocity a * c)) as Ht.
      assert (E : r - velocity a * c + velocity a * c == r) by ring.
      rewrite E, Hprod in Ht. lra. }
    assert (H2 : v * (c * (1 + u)) <= v * (1 - f * (1 # 2))).
    { rewrite !(Qmult_comm v). apply Qmult_le_compat_r; assumption. }
    lra.
Qed.


(** As long as the axis has not come under the threshold, the velocity
    is bounded by a geometric sequence. *)
Lemma ticks_b64_geometric (cfg : config) (hc : Z) (n : nat) : forall a,
  pow2 (-50) <= friction cfg -> friction cfg <= 1 ->
  pow2 (-1021) <= stop_threshold cfg ->
  (forall k, (k <= n)%nat ->
             stop_threshold cfg <= fabs (velocity (ticks_b64 cfg hc k a))) ->
  fabs (velocity (ticks_b64 cfg hc n a)) <=
  fabs (velocity a) * qpow (1 - friction cfg * (1 # 2)) n.
Proof.
  induction n as [| k IH]; intros a Hf0 Hf1 Hthr Hact.
  - simpl. lra.
  - pose proof (Hact (S k) (Nat.le_refl _)) as Hlast.
    rewrite ticks_b64_S in Hlast |- *.
    destruct (tick_b64_velocity_bound cfg hc (ticks_b64 cfg hc k a)
                Hf0 Hf1 Hthr (Hact k (Nat.le_succ_diag_r k))) as [Hb | Hb];
      [| lra].
    assert (IH' := IH a Hf0 Hf1 Hthr
                     (fun j Hj => Hact j (Nat.le_le_succ_r _ _ Hj))).
    pose proof (pow2_pos (-50)) as Hp50.
    change (qpow (1 - friction cfg * (1 # 2)) (S k))
      with ((1 - friction cfg * (1 # 2))
            * qpow (1 - friction cfg * (1 # 2)) k).
    set (x := fabs (velocity (ticks_b64 cfg hc k a))) in *.
    set (p := qpow (1 - friction cfg * (1 # 2)) k) in *.
    set (g := friction cfg * (1 # 2)) in *.
    assert ((1 - g) * x <= (1 - g) * (fabs (velocity a) * p)).
    { rewrite !(Qmult_comm (1 - g)). apply Qmult_le_compat_r; [assumption |].
      unfold g. lra. }
    lra.
Qed.

Lemma below_or_active_b64 (cfg : config) (hc : Z) (a : axis_state) (n : nat) :
  (exists k, (k <= n)%nat /\
             fabs (velocity (ticks_b64 cfg hc k a)) < stop_threshold cfg) \/
  (forall k, (k <= n)%nat ->
             stop_threshold cfg <= fabs (velocity (ticks_b64 cfg hc k a))).
Proof.
  induction n as [| m IH].
  - destruct (Qlt_le_dec (fabs (velocity (ticks_b64 cfg hc 0 a)))
                         (stop_threshold cfg)) as [Hlt | Hge].
    + left. exists 0%nat. split; [lia | assumption].
    + right. intros k Hk. assert (k = 0%nat) by lia. now subst k.
  - destruct IH as [[k [Hk Hlt]] | Hact].
    + left. exists k. split; [lia | assumption].
    + destruct (Qlt_le_dec (fabs (velocity (ticks_b64 cfg hc (S m) a)))
                           (stop_threshold cfg)) as [Hlt | Hge].
      * left. exists (S m). split; [lia | assumption].
      * right. intros k Hk.
        destruct (Nat.eq_dec k (S m)) as [-> | Hne]; [assumption |].
        apply Hact. lia.
Qed.

(** Once the geometric bound is under the threshold, so is the
    velocity: the axis comes under the threshold within [N] ticks when
    [|velocity| < N * stop_threshold * friction / 2]. *)
Lemma below_within_b64 (cfg : config) (hc : Z) (a : axis_state) (N : nat) :
  pow2 (-50) <= friction cfg -> friction cfg <= 1 ->
  pow2 (-1021) <= stop_threshold cfg ->
  fabs (velocity a)
  < inject_Z (Z.of_nat N) * (stop_threshold cfg * (friction cfg * (1 # 2))) ->
  exists k, (k <= N)%nat /\
            fabs (velocity (ticks_b64 cfg hc k a)) < stop_threshold cfg.
Proof.
  intros Hf0 Hf1 Hthr HN.
  destruct (below_or_active_b64 cfg hc a N) as [Hbelow | Hact];
    [exact Hbelow |].
  exfalso.
  pose proof (pow2_pos (-50)) as Hp50. pose proof (pow2_pos (-1021)) as Hmin.
  pose proof (Hact N (Nat.le_refl N)) as HgeN.
  pose proof (ticks_b64_geometric cfg hc N a Hf0 Hf1 Hthr Hact) as Hgeo.
  pose proof (qpow_nonneg (1 - friction cfg * (1 # 2)) N) as Hp.
  pose proof (qpow_decay_bound (friction cfg * (1 # 2)) N) as Hb.
  pose proof (Qabs_nonneg (velocity a)) as Hv. unfold fabs in *.
  set (x := Qabs (velocity (ticks_b64 cfg hc N a))) in *.
  set (p := qpow (1 - friction cfg * (1 # 2)) N) in *.
  set (m := inject_Z (Z.of_nat N)) in *.
  set (v := Qabs (velocity a)) in *.
  set (g := friction cfg * (1 # 2)) in *.
  assert (Hg : 0 < g /\ g <= 1) by (unfold g; lra).
  assert (Hm : 0 <= m).
  { unfold m. change 0 with (inject_Z 0). rewrite <- Zle_Qle. lia. }
  assert (Hp0 : 0 <= p) by (apply Hp; lra).
  assert (Hb' : p * (1 + m * g) <= 1) by (apply Hb; lra).
  assert (H1 : stop_threshold cfg * (1 + m * g) <= v * p * (1 + m * g)).
  { apply Qmult_le_compat_r; [lra | nra]. }
  assert (H2 : v * (p * (1 + m * g)) <= v * 1).
  { rewrite (Qmult_comm v), (Qmult_comm v 1).
    apply Qmult_le_compat_r; assumption. }
  lra.
Qed.


(** Under a positive threshold an axis that is below it stays below. *)
Lemma stays_below_b64 (cfg : config) (hc : Z) (m : nat) : forall a,
  0 < stop_threshold cfg ->
  fabs (velocity a) < stop_threshold cfg ->
  fabs (velocity (ticks_b64 cfg hc m a)) < stop_threshold cfg.
Proof.
  induction m as [| k IH]; intros a Hthr Hlt; [assumption |].
  simpl. apply IH; [assumption |].
  now rewrite (tick_b64_velocity_rest cfg hc a Hlt).
Qed.


(** Why the friction needs a margin above 0: under a friction of 2^-60
    the factor [1.0 - cfg->friction] is the double 1.0 and no tick
    changes the axis. *)
Remark tiny_friction_never_decays :
  tick_b64 cfg_tiny_friction REL_WHEEL_HI_RES (mkAxis 60 0 0 rate_zero)
  = mkAxis 60 0 0 rate_zero.
Proof. vm_compute. reflexivity. Qed.




(** ** Conservation between fine and coarse units *)

Lemma units_of_app (c : Z) (l1 l2 : list input_event) :
  units_of c (l1 ++ l2) = (units_of c l1 + units_of c l2)%Z.
Proof.
  induction l1 as [| e l IH]; simpl; [reflexivity |].
  rewrite IH. destruct ((ev_type e =? EV_REL) && (ev_code e =? c))%Z; lia.
Qed.

Lemma units_of_coarse_run (c lc d : Z) (n : nat) :
  units_of c (repeat (coarse_event lc d) n) =
  (if (lc =? c)%Z then Z.of_nat n * d else 0)%Z.
Proof.
  induction n as [| k IH].
  - simpl. now destruct (lc =? c)%Z.
  - change (repeat (coarse_event lc d) (S k))
      with (coarse_event lc d :: repeat (coarse_event lc d) k).
    unfold units_of in *. cbn [fold_right]. rewrite IH.
    cbn [ev_type ev_code ev_value coarse_event]. rewrite Z.eqb_refl.
    cbn [andb]. destruct (lc =? c)%Z; lia.
Qed.

Lemma hires_not_lowres (hc : Z) :
  is_hires hc ->
  (lowres_code_of hc =? hc)%Z = false /\ (hc =? lowres_code_of hc)%Z = false.
Proof.
  intros [-> | ->]; split; reflexivity.
Qed.

Lemma quot_sign (x : Z) :
  (Z.of_nat (Z.abs_nat (Z.quot x HIRES_PER_TICK)) * Z.sgn x)%Z =
  Z.quot x HIRES_PER_TICK.
Proof.
  rewrite Zabs2Nat.id_abs. unfold HIRES_PER_TICK.
  destruct (Z.lt_trichotomy x 0) as [Hneg | [-> | Hpos]].
  - rewrite Z.sgn_neg by assumption.
    assert (Z.quot x 120 <= 0)%Z.
    { replace x with (- - x)%Z by lia. rewrite Z.quot_opp_l by discriminate.
      assert (0 <= Z.quot (- x) 120)%Z by (apply Z.quot_pos; lia). lia. }
    lia.
  - reflexivity.
  - rewrite Z.sgn_pos by assumption.
    assert (0 <= Z.quot x 120)%Z by (apply Z.quot_pos; lia). lia.
Qed.

(** One call of [emit_axis]: what goes out in coarse units, times 120,
    plus the new carry, is the old carry plus what goes out in fine units,
    less the carry dropped when the call takes the rest branch. *)
Lemma emit_axis_conserves (cfg : config) (hc : Z) (a : axis_state) :
  is_hires hc ->
  (HIRES_PER_TICK * coarse_units hc (snd (emit_axis a hc cfg)) +
   lowres_accum (snd (fst (emit_axis a hc cfg))))%Z =
  (lowres_accum a + fine_units hc (snd (emit_axis a hc cfg)) -
   (if Qltb (fabs (velocity a)) (stop_threshold cfg)
    then lowres_accum a else 0))%Z.
Proof.
  intros Hhc. destruct (hires_not_lowres hc Hhc) as [Hlc Hcl].
  destruct (Qltb (fabs (velocity a)) (stop_threshold cfg)) eqn:E.
  - apply Qltb_lt in E. rewrite (emit_axis_rest a hc cfg E). simpl. lia.
  - apply Qltb_ge in E. rewrite (emit_axis_active a hc cfg E). cbv zeta.
    set (w := trunc _).
    destruct (Z.eqb_spec w 0) as [Hz | Hnz]; cbn [fst snd lowres_accum].
    + unfold coarse_units, fine_units. simpl. lia.
    + unfold coarse_units, fine_units, units_of. cbn [fold_right].
      fold (units_of (lowres_code_of hc)
              (repeat (coarse_event (lowres_code_of hc)
                         (Z.sgn (lowres_accum a + w)))
                      (Z.abs_nat (Z.quot (lowres_accum a + w) HIRES_PER_TICK)))).
      fold (units_of hc
              (repeat (coarse_event (lowres_code_of hc)
                         (Z.sgn (lowres_accum a + w)))
                      (Z.abs_nat (Z.quot (lowres_accum a + w) HIRES_PER_TICK)))).
      rewrite !units_of_coarse_run. cbn [ev_type ev_code ev_value].
      rewrite Z.eqb_refl, Hlc, Hcl, !Z.eqb_refl. cbn [andb].
      rewrite quot_sign.
      pose proof (Z.quot_rem' (lowres_accum a + w) HIRES_PER_TICK). lia.
Qed.

Lemma units_of_syn (c : Z) : units_of c write_syn = 0%Z.
Proof. reflexivity. Qed.

Lemma units_of_forced (hc dir : Z) :
  is_hires hc ->
  fine_units hc (write_event EV_REL hc dir) = dir /\
  coarse_units hc (write_event EV_REL hc dir) = 0%Z.
Proof.
  intros Hhc. destruct (hires_not_lowres hc Hhc) as [_ Hcl].
  unfold fine_units, coarse_units, units_of, write_event.
  cbn [fold_right ev_type ev_code ev_value].
  rewrite Hcl, !Z.eqb_refl. cbn [andb]. split; lia.
Qed.

Lemma inject_conserves
    (cfg : config) (hc : Z) (a : axis_state) (raw scale : Q) :
  is_hires hc ->
  (HIRES_PER_TICK * coarse_units hc (snd (inject a hc raw scale cfg)) +
   lowres_accum (fst (inject a hc raw scale cfg)))%Z =
  (lowres_accum a + fine_units hc (snd (inject a hc raw scale cfg)) -
   (if Qltb (fabs (velocity (injected a raw scale cfg))) (stop_threshold cfg)
    then lowres_accum a else 0))%Z.
Proof.
  intros Hhc.
  pose proof (emit_axis_conserves cfg hc (injected a raw scale cfg) Hhc) as He.
  unfold inject.
  destruct (emit_axis (injected a raw scale cfg) hc cfg) as [[did a2] out].
  cbn [fst snd] in He. change (lowres_accum (injected a raw scale cfg))
    with (lowres_accum a) in He.
  destruct (negb did && Qgeb (fabs (velocity a2)) (stop_threshold cfg)).
  - rewrite force_emit_eq. cbn [fst snd lowres_accum].
    change [mkEvent EV_REL hc (force_dir a2)]
      with (write_event EV_REL hc (force_dir a2)).
    destruct (units_of_forced hc (force_dir a2) Hhc) as [Hfine Hcoarse].
    unfold fine_units, coarse_units in *.
    rewrite !units_of_app, !units_of_syn, Hfine, Hcoarse. lia.
  - cbn [fst snd]. destruct did; [| exact He].
    unfold fine_units, coarse_units in *.
    rewrite !units_of_app, !units_of_syn. lia.
Qed.

Lemma axis_step_conserves
    (cfg : config) (hc : Z) (a : axis_state) (op : axis_op) :
  is_hires hc ->
  (HIRES_PER_TICK * coarse_units hc (snd (axis_step cfg hc a op)) +
   lowres_accum (fst (axis_step cfg hc a op)))%Z =
  (lowres_accum a + fine_units hc (snd (axis_step cfg hc a op)) -
   dropped_by_step cfg a op)%Z.
Proof.
  intros Hhc. destruct op as [| raw ts scale].
  - pose proof (emit_axis_conserves cfg hc a Hhc) as He. simpl.
    destruct (emit_axis a hc cfg) as [[did a'] out]. exact He.
  - unfold axis_step, on_impulse, dropped_by_step.
    apply (inject_conserves cfg hc
             (mkAxis (velocity a) (emit_accum a) (lowres_accum a)
                     (rate_record (rate a) ts)) raw scale Hhc).
Qed.

(** One call of [emit_axis] that writes: from the carry [c] and the fine
    units [w] it writes, it emits exactly [(c + w) / 120] coarse units
    (C division, toward zero), as that many events of value +1 or -1 in
    the direction of [c + w], one per 120-unit boundary crossed, and
    keeps the remainder [(c + w) % 120] as the new carry. *)
Lemma emit_axis_crossings (cfg : config) (hc : Z) (a : axis_state) :
  is_hires hc ->
  fst (fst (emit_axis a hc cfg)) = true ->
  let out := snd (emit_axis a hc cfg) in
  let total := (lowres_accum a + fine_units hc out)%Z in
  out = mkEvent EV_REL hc (fine_units hc out) ::
        repeat (coarse_event (lowres_code_of hc) (Z.sgn total))
               (Z.abs_nat (Z.quot total HIRES_PER_TICK)) /\
  coarse_units hc out = Z.quot total HIRES_PER_TICK /\
  lowres_accum (snd (fst (emit_axis a hc cfg))) = Z.rem total HIRES_PER_TICK /\
  (- HIRES_PER_TICK < lowres_accum (snd (fst (emit_axis a hc cfg)))
   < HIRES_PER_TICK)%Z.
Proof.
  intros Hhc. destruct (hires_not_lowres hc Hhc) as [Hlc Hcl]. cbv zeta.
  destruct (Qlt_le_dec (fabs (velocity a)) (stop_threshold cfg)) as [Hlt | Hge].
  - rewrite (emit_axis_rest a hc cfg Hlt). discriminate.
  - rewrite (emit_axis_active a hc cfg Hge). cbv zeta.
    set (w := trunc _).
    destruct (Z.eqb_spec w 0) as [Hz | Hnz]; cbn [fst snd lowres_accum];
      [discriminate | intros _].
    set (x := (lowres_accum a + w)%Z).
    assert (Hfine : fine_units hc
              (mkEvent EV_REL hc w ::
               repeat (coarse_event (lowres_code_of hc) (Z.sgn x))
                      (Z.abs_nat (Z.quot x HIRES_PER_TICK))) = w).
    { unfold fine_units.
      change (mkEvent EV_REL hc w :: ?l) with ([mkEvent EV_REL hc w] ++ l).
      rewrite units_of_app, units_of_coarse_run, Hlc.
      unfold units_of. cbn [fold_right ev_type ev_code ev_value].
      rewrite !Z.eqb_refl. cbn [andb]. lia. }
    rewrite Hfine. fold x.
    split; [reflexivity |]. split; [| split; [reflexivity |]].
    + unfold coarse_units.
      change (mkEvent EV_REL hc w :: ?l) with ([mkEvent EV_REL hc w] ++ l).
      rewrite units_of_app, units_of_coarse_run, Z.eqb_refl, quot_sign.
      unfold units_of. cbn [fold_right ev_type ev_code ev_value].
      rewrite Hcl, Z.eqb_refl. cbn [andb]. lia.
    + unfold HIRES_PER_TICK. Z.quot_rem_to_equations. lia.
Qed.

(** C5, as stated, fails: the rest reset clears the carry, so the fine
    units that were waiting in it are lost at the boundary.  After one
    small gesture with the default configuration one fine unit has been
    written, no coarse unit, and the carry is back to zero. *)
Lemma conservation_fails_across_rest_reset :
  let r := axis_run default_config REL_WHEEL_HI_RES axis_zero gesture in
  fine_units REL_WHEEL_HI_RES (snd r) = 1%Z /\
  coarse_units REL_WHEEL_HI_RES (snd r) = 0%Z /\
  lowres_accum (fst r) = 0%Z /\
  (HIRES_PER_TICK * coarse_units REL_WHEEL_HI_RES (snd r) +
   lowres_accum (fst r))%Z <> fine_units REL_WHEEL_HI_RES (snd r).
Proof.
  cbv zeta. repeat split; vm_compute; congruence.
Qed.

(** C5 (amended): conservation holds up to the carries that rest resets
    throw away.  For any sequence of ticks and impulses on one axis, the
    coarse units written times 120, plus the final carry, equal the
    initial carry plus the fine units written, less the carries dropped
    by the rest resets on the way; in particular the two sides of the
    boundary agree over any stretch without such a drop.  And every call
    of [emit_axis] that writes, from whatever state, writes after its
    fine units exactly one coarse event per 120-unit boundary that carry
    plus fine units cross, each of value +1 or -1 in their direction,
    and keeps the remainder, strictly inside one coarse unit, as the new
    carry. *)
Theorem conservation_fine_coarse
    (cfg : config) (hc : Z) (a : axis_state) (ops : list axis_op) :
  is_hires hc ->
  (HIRES_PER_TICK * coarse_units hc (snd (axis_run cfg hc a ops)) +
   lowres_accum (fst (axis_run cfg hc a ops)))%Z =
  (lowres_accum a + fine_units hc (snd (axis_run cfg hc a ops)) -
   discarded cfg hc a ops)%Z /\
  forall b : axis_state,
    fst (fst (emit_axis b hc cfg)) = true ->
    let out := snd (emit_axis b hc cfg) in
    let total := (lowres_accum b + fine_units hc out)%Z in
    out = mkEvent EV_REL hc (fine_units hc out) ::
          repeat (coarse_event (lowres_code_of hc) (Z.sgn total))
                 (Z.abs_nat (Z.quot total HIRES_PER_TICK)) /\
    coarse_units hc out = Z.quot total HIRES_PER_TICK /\
    lowres_accum (snd (fst (emit_axis b hc cfg))) = Z.rem total HIRES_PER_TICK /\
    (- HIRES_PER_TICK < lowres_accum (snd (fst (emit_axis b hc cfg)))
     < HIRES_PER_TICK)%Z.
Proof.
  intros Hhc. split; [| intros b; now apply emit_axis_crossings].
  revert a. induction ops as [| op rest IH]; intros a.
  - simpl. unfold coarse_units, fine_units. simpl. lia.
  - pose proof (axis_step_conserves cfg hc a op Hhc) as Hs.
    cbn [axis_run discarded].
    destruct (axis_step cfg hc a op) as [a1 out1]. cbn [fst snd] in *.
    specialize (IH a1).
    destruct (axis_run cfg hc a1 rest) as [a2 out2]. cbn [fst snd] in *.
    unfold coarse_units, fine_units in *. rewrite !units_of_app. lia.
Qed.

Lemma conservation_fine_coarse_witness :
  is_hires REL_WHEEL_HI_RES /\
  (HIRES_PER_TICK *
   coarse_units REL_WHEEL_HI_RES
     (snd (axis_run default_config REL_WHEEL_HI_RES axis_zero gesture)) +
   lowres_accum
     (fst (axis_run default_config REL_WHEEL_HI_RES axis_zero gesture)))%Z =
  (lowres_accum axis_zero +
   fine_units REL_WHEEL_HI_RES
     (snd (axis_run default_config REL_WHEEL_HI_RES axis_zero gesture)) -
   discarded default_config REL_WHEEL_HI_RES axis_zero gesture)%Z /\
  fst (fst (emit_axis crossing REL_WHEEL_HI_RES default_config)) = true /\
  coarse_units REL_WHEEL_HI_RES
    (snd (emit_axis crossing REL_WHEEL_HI_RES default_config)) =
  Z.quot (lowres_accum crossing +
          fine_units REL_WHEEL_HI_RES
            (snd (emit_axis crossing REL_WHEEL_HI_RES default_config)))
         HIRES_PER_TICK.
Proof.
  split; [left; reflexivity |].
  split; [exact (proj1 (conservation_fine_coarse default_config REL_WHEEL_HI_RES
                          axis_zero gesture (or_introl eq_refl))) |].
  split; [reflexivity |].
  exact (proj1 (proj2
    (proj2 (conservation_fine_coarse default_config REL_WHEEL_HI_RES
              axis_zero gesture (or_introl eq_refl)) crossing eq_refl))).
Defined.

(** ** Drift-free rescheduling *)

Lemma deadline_abs (t : Z) : deadline_ns (abs_deadline t) = t.
Proof.
  unfold deadline_ns, abs_deadline. cbn [tv_sec tv_nsec].
  pose proof (Z.quot_rem' t 1000000000). lia.
Qed.

Lemma armed_deadlines_app (l1 l2 : list action) :
  armed_deadlines (l1 ++ l2) = armed_deadlines l1 ++ armed_deadlines l2.
Proof.
  induction l1 as [| [e | its] l IH]; simpl; [reflexivity | assumption |].
  now rewrite IH.
Qed.

Lemma armed_deadlines_writes (out : list input_event) :
  armed_deadlines (map Write out) = [].
Proof.
  induction out as [| e l IH]; [reflexivity | exact IH].
Qed.

(** One handled expiry arms exactly one timer, at the previous target
    plus the interval; the wake-up time plays no part. *)
Lemma on_timer_deadline (s : sched) (wake : Z) (cfg : config) :
  next_tick_ns (fst (on_timer s wake ReadOk cfg)) =
    (next_tick_ns s + tick_ns cfg)%Z /\
  armed_deadlines (snd (on_timer s wake ReadOk cfg)) =
    [(next_tick_ns s + tick_ns cfg)%Z].
Proof.
  unfold on_timer.
  destruct (emit_axis (vert s) REL_WHEEL_HI_RES cfg) as [[e1 v] out1].
  destruct (emit_axis (horiz s) REL_HWHEEL_HI_RES cfg) as [[e2 h] out2].
  cbn [fst snd next_tick_ns armed_deadlines].
  now rewrite armed_deadlines_writes, deadline_abs.
Qed.

Lemma timer_run_deadlines (cfg : config) (wakes : list Z) : forall s,
  next_tick_ns (fst (timer_run s wakes cfg)) =
    (next_tick_ns s + Z.of_nat (length wakes) * tick_ns cfg)%Z /\
  armed_deadlines (snd (timer_run s wakes cfg)) =
    map (fun k => (next_tick_ns s + Z.of_nat k * tick_ns cfg)%Z)
        (seq 1 (length wakes)).
Proof.
  induction wakes as [| w rest IH]; intros s.
  - simpl. split; [lia | reflexivity].
  - destruct (on_timer_deadline s w cfg) as [Hn Ha].
    cbn [timer_run length].
    destruct (on_timer s w ReadOk cfg) as [s1 out1]. cbn [fst snd] in Hn, Ha.
    destruct (IH s1) as [IHn IHa].
    destruct (timer_run s1 rest cfg) as [s2 out2]. cbn [fst snd] in *.
    split.
    + rewrite IHn, Hn. lia.
    + rewrite armed_deadlines_app, Ha, IHa, Hn.
      cbn [seq map app]. f_equal; [lia |].
      rewrite <- (seq_shift (length rest) 1), map_map.
      apply map_ext. intros k. lia.
Qed.

(** C9: every handled timer expiry arms the timer at the previous target
    plus the tick interval, as an absolute time.  Starting from the first
    target (one interval after the clock reading at start-up), the
    deadlines armed over any run of expiries are the first target plus 1,
    2, ..., k intervals, whatever the wake-up times were. *)
Theorem drift_free_rescheduling (cfg : config) (now : Z) (wakes : list Z) :
  let s0 := fst (timer_init now cfg) in
  let r := timer_run s0 wakes cfg in
  next_tick_ns s0 = (now + tick_ns cfg)%Z /\
  armed_deadlines (snd (timer_init now cfg)) = [next_tick_ns s0] /\
  armed_deadlines (snd r) =
    map (fun k => (next_tick_ns s0 + Z.of_nat k * tick_ns cfg)%Z)
        (seq 1 (length wakes)) /\
  next_tick_ns (fst r) =
    (next_tick_ns s0 + Z.of_nat (length wakes) * tick_ns cfg)%Z.
Proof.
  cbv zeta.
  destruct (timer_run_deadlines cfg wakes (fst (timer_init now cfg)))
    as [Hn Ha].
  split; [reflexivity |]. split.
  - unfold timer_init. cbn [fst snd armed_deadlines next_tick_ns].
    now rewrite deadline_abs.
  - split; assumption.
Qed.

(** ** Rate over the trailing window *)

Lemma fold_min_init (o t : Z) (w : list Z) :
  fold_right Z.min (Z.min o t) w = Z.min t (fold_right Z.min o w).
Proof.
  induction w as [| x l IH]; simpl; [lia |]. rewrite IH. lia.
Qed.

(** The scan loop counts the time stamps in the window and keeps the
    smallest of them and of the initial [oldest]. *)
Lemma rate_scan_fold (rt : rate_tracker) (now : Z) (l : list Z) :
  forall n0 o0 : Z,
  fold_left (rate_scan_step rt (now - RATE_WINDOW_NS)) l (n0, o0) =
  let w := in_window now
             (map (fun i => array_get (timestamps rt)
                     (Z.rem (head rt - 1 - i + RATE_RING_SIZE) RATE_RING_SIZE))
                  l) in
  ((n0 + Z.of_nat (length w))%Z, fold_right Z.min o0 w).
Proof.
  induction l as [| i l' IH]; intros n0 o0.
  - simpl. f_equal. lia.
  - cbn [fold_left map]. unfold rate_scan_step at 2.
    unfold in_window. cbn [filter]. rewrite Z.geb_leb.
    set (t := array_get (timestamps rt)
                (Z.rem (head rt - 1 - i + RATE_RING_SIZE) RATE_RING_SIZE)).
    destruct (now - RATE_WINDOW_NS <=? t)%Z.
    + rewrite IH. cbv zeta. fold (in_window now
        (map (fun i0 => array_get (timestamps rt)
                (Z.rem (head rt - 1 - i0 + RATE_RING_SIZE) RATE_RING_SIZE)) l')).
      cbn [length fold_right]. f_equal; [lia |].
      replace (if (t <? o0)%Z then t else o0) with (Z.min o0 t)
        by (destruct (Z.ltb_spec t o0); lia).
      apply fold_min_init.
    + rewrite IH. reflexivity.
Qed.

Lemma oldest_of_le_now (now : Z) (w : list Z) :
  w <> [] -> Forall (fun t => (t <= now)%Z) w ->
  fold_right Z.min now w = oldest_of w.
Proof.
  destruct w as [| t rest]; [congruence |]. intros _ Hall.
  inversion Hall as [| x l Ht Hrest]; subst. clear Hall.
  simpl. induction rest as [| y l IH]; simpl; [lia |].
  inversion Hrest; subst. rewrite <- IH by assumption.
  simpl. lia.
Qed.

Lemma in_window_le_now (now : Z) (l : list Z) :
  Forall (fun t => (t <= now)%Z) l ->
  Forall (fun t => (t <= now)%Z) (in_window now l).
Proof.
  intros H. rewrite Forall_forall in *. intros t Ht.
  apply filter_In in Ht. apply H. tauto.
Qed.

(** [rate_compute], closed form. *)
Lemma rate_compute_eq (rt : rate_tracker) (now : Z) :
  Forall (fun t => (t <= now)%Z) (retained rt) ->
  rate_compute rt now =
  if (count_in_window rt now <? 2)%Z then 0
  else if Qltb (elapsed_sec rt now) (1 # 1000000) then 0
  else inject_Z (count_in_window rt now) / elapsed_sec rt now.
Proof.
  intros Hall. unfold rate_compute. cbv zeta.
  rewrite rate_scan_fold. cbv zeta. fold (retained rt).
  unfold count_in_window, elapsed_sec.
  set (w := in_window now (retained rt)).
  replace (0 + Z.of_nat (length w))%Z with (Z.of_nat (length w)) by lia.
  destruct (Z.ltb_spec (Z.of_nat (length w)) 2) as [Hlt | Hge];
    [reflexivity |].
  rewrite oldest_of_le_now; [reflexivity | |].
  - intros E. rewrite E in Hge. simpl in Hge. lia.
  - apply in_window_le_now. assumption.
Qed.

(** ** The ring buffer *)

Lemma array_set_nat_length (a : list Z) : forall (i : nat) (v : Z),
  length (array_set_nat a i v) = length a.
Proof.
  induction a as [| x l IH]; intros [| j] v; simpl; auto.
Qed.

Lemma nth_array_set_same (a : list Z) : forall (i : nat) (v : Z),
  (i < length a)%nat -> nth i (array_set_nat a i v) 0%Z = v.
Proof.
  induction a as [| x l IH]; intros [| j] v H; simpl in *; try lia.
  apply IH. lia.
Qed.

Lemma nth_array_set_other (a : list Z) : forall (i j : nat) (v : Z),
  i <> j -> nth j (array_set_nat a i v) 0%Z = nth j a 0%Z.
Proof.
  induction a as [| x l IH]; intros [| i] [| j] v H; simpl; try congruence.
  apply IH. congruence.
Qed.

Ltac ring_arith :=
  unfold RATE_RING_SIZE in *;
  Z.quot_rem_to_equations; Z.div_mod_to_equations; lia.

Lemma ring_inv_zero : ring_inv rate_zero [].
Proof.
  repeat split. intros i Hi. simpl in Hi. lia.
Qed.

Lemma ring_inv_record (rt : rate_tracker) (h : list Z) (ts : Z) :
  ring_inv rt h -> ring_inv (rate_record rt ts) (h ++ [ts]).
Proof.
  intros [Hlen [Hhead [Hcount Hnth]]].
  assert (Hh : (0 <= head rt < 128)%Z) by (rewrite Hhead; ring_arith).
  unfold ring_inv, rate_record. cbn [timestamps head count].
  rewrite length_app, Nat2Z.inj_add. cbn [length].
  split; [unfold array_set; now rewrite array_set_nat_length |].
  split; [rewrite Hhead; ring_arith |].
  split; [destruct (Z.ltb_spec (count rt) RATE_RING_SIZE); ring_arith |].
  intros i Hi. rewrite rev_app_distr. cbn [rev app].
  unfold array_get, array_set.
  destruct i as [| j].
  - cbn [nth].
    replace (Z.rem (Z.rem (head rt + 1) RATE_RING_SIZE - 1 - Z.of_nat 0
                    + RATE_RING_SIZE) RATE_RING_SIZE)
      with (head rt) by ring_arith.
    apply nth_array_set_same. rewrite Hlen. unfold RATE_RING_SIZE. lia.
  - cbn [nth].
    assert (Hj : (Z.of_nat j < count rt)%Z).
    { destruct (Z.ltb_spec (count rt) RATE_RING_SIZE); lia. }
    assert (Hj127 : (Z.of_nat j < 127)%Z).
    { destruct (Z.ltb_spec (count rt) RATE_RING_SIZE); ring_arith. }
    rewrite <- (Hnth j Hj). unfold array_get.
    replace (Z.rem (Z.rem (head rt + 1) RATE_RING_SIZE - 1 - Z.of_nat (S j)
                    + RATE_RING_SIZE) RATE_RING_SIZE)
      with (Z.rem (head rt - 1 - Z.of_nat j + RATE_RING_SIZE) RATE_RING_SIZE)
      by ring_arith.
    apply nth_array_set_other.
    assert (head rt <>
            Z.rem (head rt - 1 - Z.of_nat j + RATE_RING_SIZE) RATE_RING_SIZE)
      by ring_arith.
    assert (0 <= Z.rem (head rt - 1 - Z.of_nat j + RATE_RING_SIZE)
                       RATE_RING_SIZE)%Z by ring_arith.
    lia.
Qed.

Lemma ring_inv_fold (h2 : list Z) : forall (rt : rate_tracker) (h1 : list Z),
  ring_inv rt h1 -> ring_inv (fold_left rate_record h2 rt) (h1 ++ h2).
Proof.
  induction h2 as [| ts l IH]; intros rt h1 H.
  - now rewrite app_nil_r.
  - simpl. replace (h1 ++ ts :: l) with ((h1 ++ [ts]) ++ l)
      by (now rewrite <- app_assoc).
    apply IH. now apply ring_inv_record.
Qed.

(** The scan visits the most recent recordings, newest first, at most
    as many as the ring holds. *)
Lemma retained_recorded (h : list Z) :
  retained (recorded h) = firstn (Z.to_nat RATE_RING_SIZE) (rev h).
Proof.
  destruct (ring_inv_fold h rate_zero [] ring_inv_zero)
    as [Hlen [Hhead [Hcount Hnth]]].
  fold (recorded h) in *. simpl app in *.
  apply (nth_ext _ _ 0%Z 0%Z).
  - unfold retained, scan_indices.
    rewrite !length_map, length_seq, length_firstn, length_rev, Hcount. lia.
  - intros i Hi. unfold retained, scan_indices in *.
    rewrite !length_map, length_seq in Hi.
    rewrite map_map.
    rewrite (nth_indep _ 0%Z
               (array_get (timestamps (recorded h))
                  (Z.rem (head (recorded h) - 1 - Z.of_nat 0 + RATE_RING_SIZE)
                         RATE_RING_SIZE)))
      by (now rewrite length_map, length_seq).
    rewrite (map_nth (fun x => array_get (timestamps (recorded h))
               (Z.rem (head (recorded h) - 1 - Z.of_nat x + RATE_RING_SIZE)
                      RATE_RING_SIZE))).
    rewrite seq_nth by assumption. cbn [Nat.add].
    rewrite Hnth by lia.
    rewrite nth_firstn.
    destruct (Nat.ltb_spec i (Z.to_nat RATE_RING_SIZE)); [reflexivity | lia].
Qed.

(** C8, as stated, fails: with two samples in the window less than a
    microsecond apart the count over the elapsed seconds is four million
    per second, but [rate_compute] returns 0. *)
Lemma rate_compute_guards_short_window :
  count_in_window burst 1500 = 2%Z /\
  rate_spec burst 1500 == 4000000 /\
  rate_compute burst 1500 = 0 /\
  ~ rate_compute burst 1500 == rate_spec burst 1500.
Proof.
  assert (Hs : rate_spec burst 1500 == 4000000)
    by (vm_compute; reflexivity).
  assert (Hc : rate_compute burst 1500 = 0) by (vm_compute; reflexivity).
  split; [vm_compute; reflexivity |]. split; [exact Hs |]. split; [exact Hc |].
  rewrite Hs, Hc. discriminate.
Qed.

Lemma compute_scale_zero_rate (cfg : config) :
  0 <= low_rate cfg -> compute_scale (Q2R 0) cfg = 1%R.
Proof.
  intros H. unfold compute_scale.
  destruct (Rle_dec (Q2R 0) (Q2R (low_rate cfg))) as [_ | Hn];
    [reflexivity |].
  exfalso. apply Hn. now apply Qle_Rle.
Qed.

(** C8 (amended): [rate_compute] looks only at the retained time stamps
    (the most recent recordings, at most 128) that lie within the trailing
    300 ms of [now]; with the monotonic clock (no retained time stamp
    later than [now]) it returns 0 if fewer than two of them are in the
    window or if the oldest of them is less than a microsecond before
    [now], and otherwise their count divided by the seconds elapsed from
    the oldest of them to [now].  A rate of 0 is, for a low-rate threshold
    that is not negative, in the first branch of the dampening curve:
    scale 1. *)
Theorem rate_compute_window (rt : rate_tracker) (now : Z) (cfg : config) :
  Forall (fun t => (t <= now)%Z) (retained rt) ->
  0 <= low_rate cfg ->
  rate_compute rt now =
    (if (count_in_window rt now <? 2)%Z then 0
     else if Qltb (elapsed_sec rt now) (1 # 1000000) then 0
     else rate_spec rt now) /\
  compute_scale (Q2R 0) cfg = 1%R /\
  (forall h : list Z,
     retained (recorded h) = firstn (Z.to_nat RATE_RING_SIZE) (rev h)).
Proof.
  intros Hall Hlow.
  split; [| split; [now apply compute_scale_zero_rate
                   | apply retained_recorded]].
  rewrite (rate_compute_eq rt now Hall). unfold rate_spec.
  now destruct (count_in_window rt now <? 2)%Z.
Qed.

(** The first impulse on a fresh axis is alone in its window: its rate
    is 0 and, with a low-rate threshold that is not negative, its scale
    is 1. *)
Lemma first_impulse_rate (ts : Z) : impulse_rate axis_zero ts = 0.
Proof.
  unfold impulse_rate, rate_compute.
  change (scan_indices (rate_record (rate axis_zero) ts)) with [0%Z].
  cbn [fold_left]. unfold rate_scan_step.
  change (array_get _ _) with ts.
  rewrite Z.geb_leb.
  destruct (Z.leb_spec (ts - RATE_WINDOW_NS) ts) as [_ | H];
    [reflexivity | unfold RATE_WINDOW_NS in H; lia].
Qed.

Lemma first_impulse_scale (ts : Z) (cfg : config) :
  0 <= low_rate cfg ->
  compute_scale (Q2R (impulse_rate axis_zero ts)) cfg = 1%R.
Proof.
  intros H. rewrite first_impulse_rate. now apply compute_scale_zero_rate.
Qed.

Lemma retained_steady :
  retained steady = [1020000000; 1010000000; 1000000000]%Z.
Proof. vm_compute. reflexivity. Qed.

Lemma rate_compute_window_witness :
  Forall (fun t => (t <= 1020000000)%Z) (retained steady) /\
  0 <= low_rate default_config /\
  rate_compute steady 1020000000 == 150.
Proof.
  assert (Hall : Forall (fun t => (t <= 1020000000)%Z) (retained steady)).
  { rewrite retained_steady. repeat constructor; lia. }
  assert (Hlow : 0 <= low_rate default_config) by discriminate.
  split; [exact Hall |]. split; [exact Hlow |].
  rewrite (proj1 (rate_compute_window steady 1020000000 default_config
                    Hall Hlow)).
  vm_compute. reflexivity.
Defined.

(** ** The dampening curve in exact arithmetic *)

(** The curve that [compute_scale] evaluates, over the reals: what the
    double evaluation approximates. *)

Section Curve.

Local Open Scope R_scope.

(** Continuity at a point is a local matter, and can be checked on the
    two sides of the point separately. *)
Lemma continuity_pt_glue (f g h : R -> R) (x d : R) :
  0 < d ->
  (forall y, x - d < y <= x -> f y = g y) ->
  (forall y, x <= y < x + d -> f y = h y) ->
  continuity_pt g x -> continuity_pt h x -> continuity_pt f x.
Proof.
  intros Hd Hleft Hright Hg Hh eps Heps.
  destruct (Hg eps Heps) as [a1 [Ha1 Hg1]].
  destruct (Hh eps Heps) as [a2 [Ha2 Hh2]].
  exists (Rmin d (Rmin a1 a2)). split.
  - apply Rmin_pos; [assumption | now apply Rmin_pos].
  - intros y [[_ Hne] Hdist]. simpl in *. unfold Rdist in *.
    assert (Hd1 : Rabs (y - x) < d)
      by (eapply Rlt_le_trans; [exact Hdist | apply Rmin_l]).
    assert (Hd2 : Rabs (y - x) < a1).
    { eapply Rlt_le_trans; [exact Hdist |].
      eapply Rle_trans; [apply Rmin_r | apply Rmin_l]. }
    assert (Hd3 : Rabs (y - x) < a2).
    { eapply Rlt_le_trans; [exact Hdist |].
      eapply Rle_trans; [apply Rmin_r | apply Rmin_r]. }
    apply Rabs_def2 in Hd1.
    destruct (Rle_dec y x) as [Hle | Hgt].
    + rewrite (Hleft y), (Hleft x) by lra.
      apply Hg1. split; [split; [exact I | exact Hne] | exact Hd2].
    + rewrite (Hright y), (Hright x) by lra.
      apply Hh2. split; [split; [exact I | exact Hne] | exact Hd3].
Qed.

Variable cfg : config.

Let lo := Q2R (low_rate cfg).
Let hi := Q2R (high_rate cfg).
Let ms := Q2R (min_scale cfg).

Lemma band_continuity_pt (r : R) :
  lo < hi -> lo <= r -> continuity_pt (band cfg) r.
Proof.
  intros Hlh Hr. unfold band; fold lo hi ms. reg.
  apply Rmult_le_pos; [lra |].
  apply Rlt_le, Rinv_0_lt_compat. lra.
Qed.

Lemma band_lo : lo < hi -> band cfg lo = 1.
Proof.
  intros Hlh. unfold band; fold lo hi ms.
  replace ((lo - lo) / (hi - lo)) with 0 by (field; lra).
  rewrite sqrt_0. ring.
Qed.

Lemma band_hi : lo < hi -> band cfg hi = ms.
Proof.
  intros Hlh. unfold band; fold lo hi ms.
  replace ((hi - lo) / (hi - lo)) with 1 by (field; lra).
  rewrite sqrt_1. ring.
Qed.

Lemma compute_scale_low (r : R) : r <= lo -> compute_scale r cfg = 1.
Proof.
  intros H. unfold compute_scale. fold lo.
  destruct (Rle_dec r lo); [reflexivity | contradiction].
Qed.

Lemma compute_scale_high (r : R) :
  lo < hi -> hi <= r -> compute_scale r cfg = ms.
Proof.
  intros Hlh H. unfold compute_scale. fold lo hi ms.
  destruct (Rle_dec r lo); [lra |].
  destruct (Rle_dec hi r); [reflexivity | contradiction].
Qed.

Lemma compute_scale_band (r : R) :
  lo < r -> r < hi -> compute_scale r cfg = band cfg r.
Proof.
  intros H1 H2. unfold compute_scale. fold lo hi ms.
  destruct (Rle_dec r lo); [lra |].
  destruct (Rle_dec hi r); [lra | reflexivity].
Qed.

(** Inside the band the normalised position is in [0, 1], and so is its
    square root. *)
Lemma band_sqrt_bounds (r : R) :
  lo <= r -> r <= hi -> lo < hi ->
  0 <= sqrt ((r - lo) / (hi - lo)) <= 1.
Proof.
  intros H1 H2 Hlh. split; [apply sqrt_pos |].
  rewrite <- sqrt_1. apply sqrt_le_1_alt.
  apply (Rmult_le_reg_r (hi - lo)); [lra |].
  unfold Rdiv. rewrite Rmult_assoc, Rinv_l by lra. lra.
Qed.

Lemma band_monotone (r1 r2 : R) :
  lo < hi -> ms <= 1 -> r1 <= r2 -> band cfg r2 <= band cfg r1.
Proof.
  intros Hlh Hms Hr. unfold band; fold lo hi ms.
  assert (Hs : sqrt ((r1 - lo) / (hi - lo)) <= sqrt ((r2 - lo) / (hi - lo))).
  { apply sqrt_le_1_alt. unfold Rdiv. apply Rmult_le_compat_r; [| lra].
    apply Rlt_le, Rinv_0_lt_compat. lra. }
  assert (0 <= 1 - ms) by lra. nra.
Qed.

Lemma compute_scale_range (r : R) :
  lo < hi -> 0 < ms -> ms <= 1 -> ms <= compute_scale r cfg <= 1.
Proof.
  intros Hlh Hms0 Hms1.
  destruct (Rle_dec r lo) as [Hl | Hl].
  - rewrite compute_scale_low by assumption. lra.
  - destruct (Rle_dec hi r) as [Hh | Hh].
    + rewrite compute_scale_high by assumption. lra.
    + rewrite compute_scale_band by lra. unfold band; fold lo hi ms.
      destruct (band_sqrt_bounds r) as [Hs0 Hs1]; try lra.
      assert (0 <= 1 - ms) by lra. nra.
Qed.

Lemma compute_scale_monotone (r1 r2 : R) :
  lo < hi -> 0 < ms -> ms <= 1 -> r1 <= r2 ->
  compute_scale r2 cfg <= compute_scale r1 cfg.
Proof.
  intros Hlh Hms0 Hms1 Hr.
  destruct (Rle_dec r1 lo) as [Hl1 | Hl1].
  - rewrite (compute_scale_low r1) by assumption.
    now apply compute_scale_range.
  - destruct (Rle_dec hi r2) as [Hh2 | Hh2].
    + rewrite (compute_scale_high r2) by assumption.
      now apply compute_scale_range.
    + rewrite !compute_scale_band by lra. now apply band_monotone.
Qed.

Lemma compute_scale_continuity :
  lo < hi -> continuity (fun r => compute_scale r cfg).
Proof.
  intros Hlh x.
  destruct (Rtotal_order x lo) as [Hx | [Hx | Hx]].
  - apply (continuity_pt_glue _ (fun _ => 1) (fun _ => 1) x (lo - x));
      [lra | | | reg | reg];
      intros y Hy; apply compute_scale_low; lra.
  - subst x.
    apply (continuity_pt_glue _ (fun _ => 1) (band cfg) lo (hi - lo));
      [lra | | | reg | apply band_continuity_pt; lra].
    + intros y Hy. apply compute_scale_low; lra.
    + intros y [Hy1 Hy2]. destruct (Req_dec y lo) as [-> | Hne].
      * rewrite band_lo by assumption. apply compute_scale_low; lra.
      * apply compute_scale_band; lra.
  - destruct (Rtotal_order x hi) as [Hh | [Hh | Hh]].
    + apply (continuity_pt_glue _ (band cfg) (band cfg) x
               (Rmin (x - lo) (hi - x)));
        [apply Rmin_pos; lra | | |
         apply band_continuity_pt; lra | apply band_continuity_pt; lra];
        intros y Hy;
        pose proof (Rmin_l (x - lo) (hi - x));
        pose proof (Rmin_r (x - lo) (hi - x));
        apply compute_scale_band; lra.
    + subst x.
      apply (continuity_pt_glue _ (band cfg) (fun _ => ms) hi (hi - lo));
        [lra | | | apply band_continuity_pt; lra | reg].
      * intros y [Hy1 Hy2]. destruct (Req_dec y hi) as [-> | Hne].
        -- rewrite band_hi by assumption. apply compute_scale_high; lra.
        -- apply compute_scale_band; lra.
      * intros y Hy. apply compute_scale_high; lra.
    + apply (continuity_pt_glue _ (fun _ => ms) (fun _ => ms) x (x - hi));
        [lra | | | reg | reg];
        intros y Hy; apply compute_scale_high; lra.
Qed.

End Curve.

(** ** The dampening curve in double arithmetic *)

(** C3 fails on the code: the computed curve leaves the range
    [[min_scale, 1]] and is not monotone.  With
    [--low-rate 6.1 --high-rate 25 --min-scale 0.18], a configuration
    inside the ranges of the claim, and seven impulses spanning 280 ms,
    [rate_compute] returns the double just below 25 (the exact quotient
    is 25), still inside the transition band; there
    [(rate - low_rate) / (high_rate - low_rate)] rounds to 1 and the
    band formula gives [1 - (1 - min_scale)], which in doubles is
    0.17999999999999994: below [min_scale], and below the value that
    the curve takes at [high_rate]. *)
Theorem compute_scale_b64_below_min_scale :
  let cfg := cfg_narrow_band in
  let rate := rate_compute_b64 seven_stamps 1280000000 in
  (low_rate cfg < high_rate cfg /\ 0 < min_scale cfg /\ min_scale cfg <= 1) /\
  rate_compute seven_stamps 1280000000 == 25 /\
  (low_rate cfg < rate /\ rate < high_rate cfg) /\
  compute_scale_b64 rate cfg == 6485183463413512 * pow2 (-55) /\
  min_scale cfg == 6485183463413514 * pow2 (-55) /\
  compute_scale_b64 rate cfg < min_scale cfg /\
  compute_scale_b64 rate cfg < compute_scale_b64 (high_rate cfg) cfg.
Proof.
  cbv zeta.
  repeat split;
    first [ apply Qltb_lt; vm_compute; reflexivity
          | apply Qle_bool_iff; vm_compute; reflexivity
          | apply Qeq_bool_iff; vm_compute; reflexivity ].
Qed.

(** * Further properties of the rate tracker *)

(** X1: after any sequence of recordings the ring keeps its 128 slots,
    [head] is the number of recordings modulo 128, [count] is that number
    capped at 128, and both the slot written next and every slot read by
    the scan of [rate_compute] lie inside the array. *)
Theorem ring_buffer_bounds (h : list Z) :
  let rt := recorded h in
  length (timestamps rt) = 128%nat /\
  head rt = (Z.of_nat (length h) mod 128)%Z /\
  count rt = Z.min (Z.of_nat (length h)) 128 /\
  (0 <= head rt < 128)%Z /\
  (forall i, In i (scan_indices rt) ->
     0 <= Z.rem (head rt - 1 - i + RATE_RING_SIZE) RATE_RING_SIZE < 128)%Z.
Proof.
  cbv zeta.
  destruct (ring_inv_fold h rate_zero [] ring_inv_zero)
    as [Hlen [Hhead [Hcount _]]].
  fold (recorded h) in *. simpl app in *.
  assert (Hh : (0 <= head (recorded h) < 128)%Z)
    by (rewrite Hhead; ring_arith).
  split; [exact Hlen |]. split; [exact Hhead |]. split; [exact Hcount |].
  split; [exact Hh |].
  intros i Hi. unfold scan_indices in Hi. apply in_map_iff in Hi.
  destruct Hi as [k [<- Hk]]. apply in_seq in Hk.
  assert (Z.of_nat k < 128)%Z by (unfold RATE_RING_SIZE in *; lia).
  ring_arith.
Qed.

Lemma rate_scan_result (rt : rate_tracker) (now : Z) :
  fold_left (rate_scan_step rt (now - RATE_WINDOW_NS)) (scan_indices rt)
            (0%Z, now) =
  (count_in_window rt now,
   fold_right Z.min now (in_window now (retained rt))).
Proof.
  rewrite rate_scan_fold. cbv zeta. fold (retained rt).
  unfold count_in_window. f_equal.
Qed.

Lemma fold_min_le (now : Z) (w : list Z) :
  (fold_right Z.min now w <= now)%Z.
Proof.
  induction w as [| t l IH]; simpl; lia.
Qed.

Lemma count_in_window_bounds (rt : rate_tracker) (now : Z) :
  (0 <= count_in_window rt now <= Z.max 0 (count rt))%Z.
Proof.
  unfold count_in_window, in_window, retained, scan_indices.
  pose proof (filter_length_le
                (fun t => (now - RATE_WINDOW_NS <=? t)%Z)
                (map (fun i => array_get (timestamps rt)
                        (Z.rem (head rt - 1 - i + RATE_RING_SIZE)
                               RATE_RING_SIZE))
                     (map Z.of_nat (seq 0 (Z.to_nat (count rt)))))) as H.
  rewrite !length_map, length_seq in H. lia.
Qed.

(** X2: whatever the tracker holds and whatever the clock reads, the
    rate is never negative and never above a million per second for each
    time stamp counted, hence never above 128 million per second for a
    ring of 128. *)
Theorem rate_compute_range (rt : rate_tracker) (now : Z) :
  0 <= rate_compute rt now /\
  rate_compute rt now <= inject_Z (count_in_window rt now) * 1000000 /\
  (count_in_window rt now <= Z.max 0 (count rt))%Z.
Proof.
  pose proof (count_in_window_bounds rt now) as [Hn0 Hn1].
  split; [| split; [| exact Hn1]];
    unfold rate_compute; cbv zeta; rewrite rate_scan_result;
    pose proof (fold_min_le now (in_window now (retained rt))) as Hold;
    set (n := count_in_window rt now) in *;
    set (o := fold_right Z.min now (in_window now (retained rt))) in *;
    assert (Hq : 0 <= inject_Z n)
      by (change 0 with (inject_Z 0); rewrite <- Zle_Qle; exact Hn0);
    destruct (n <? 2)%Z; try lra;
    destruct (Qltb (inject_Z (now - o) / NS_PER_SEC) (1 # 1000000)) eqn:E;
    try lra; apply Qltb_ge in E.
  - apply Qle_shift_div_l; lra.
  - apply Qle_shift_div_r; [lra |].
    set (ws := inject_Z (now - o) / NS_PER_SEC) in *. nra.
Qed.

Lemma rate_compute_few (rt : rate_tracker) (now : Z) :
  (count_in_window rt now < 2)%Z -> rate_compute rt now = 0.
Proof.
  intros H. unfold rate_compute. cbv zeta. rewrite rate_scan_result.
  destruct (Z.ltb_spec (count_in_window rt now) 2); [reflexivity | lia].
Qed.

Lemma in_window_stale (now : Z) (l : list Z) :
  Forall (fun t => (t < now - RATE_WINDOW_NS)%Z) l -> in_window now l = [].
Proof.
  induction 1 as [| t l Ht _ IH]; [reflexivity |].
  unfold in_window in *. cbn [filter].
  destruct (Z.leb_spec (now - RATE_WINDOW_NS) t); [lia | exact IH].
Qed.

Lemma in_window_cons (now t : Z) (l : list Z) :
  in_window now (t :: l) =
  if (now - RATE_WINDOW_NS <=? t)%Z then t :: in_window now l
  else in_window now l.
Proof. reflexivity. Qed.

Lemma Forall_firstn_rev (P : Z -> Prop) (n : nat) (l : list Z) :
  Forall P l -> Forall P (firstn n (rev l)).
Proof.
  intros H. rewrite Forall_forall in *. intros x Hx.
  apply H, in_rev. rewrite <- (firstn_skipn n (rev l)).
  apply in_or_app. now left.
Qed.

(** X3: after a pause of more than 300 ms the next impulse starts over:
    if every time stamp recorded so far is more than 300 ms older than
    the new one, the rate computed for the new impulse is 0, and with a
    low-rate threshold that is not negative its scale is 1. *)
Theorem pause_resets_rate (h : list Z) (ts : Z) (cfg : config) :
  Forall (fun t => (t < ts - RATE_WINDOW_NS)%Z) h ->
  0 <= low_rate cfg ->
  rate_compute (rate_record (recorded h) ts) ts = 0 /\
  compute_scale (Q2R (rate_compute (rate_record (recorded h) ts) ts)) cfg
  = 1%R.
Proof.
  intros Hstale Hlow.
  assert (H0 : rate_compute (rate_record (recorded h) ts) ts = 0).
  { apply rate_compute_few. unfold count_in_window.
    replace (rate_record (recorded h) ts) with (recorded (h ++ [ts]))
      by (unfold recorded; now rewrite fold_left_app).
    rewrite retained_recorded, rev_app_distr.
    change (Z.to_nat RATE_RING_SIZE) with (S 127). cbn [rev app].
    rewrite firstn_cons.
    rewrite in_window_cons, in_window_stale
      by (now apply Forall_firstn_rev).
    destruct (ts - RATE_WINDOW_NS <=? ts)%Z; simpl; lia. }
  split; [exact H0 |]. rewrite H0. now apply compute_scale_zero_rate.
Qed.

Lemma pause_resets_rate_witness :
  Forall (fun t => (t < 1000000000 - RATE_WINDOW_NS)%Z) [1000; 2000]%Z /\
  0 <= low_rate default_config /\
  rate_compute (rate_record (recorded [1000; 2000]%Z) 1000000000) 1000000000
  = 0.
Proof.
  assert (Hs : Forall (fun t => (t < 1000000000 - RATE_WINDOW_NS)%Z)
                      [1000; 2000]%Z).
  { unfold RATE_WINDOW_NS. repeat constructor; lia. }
  assert (Hl : 0 <= low_rate default_config) by discriminate.
  split; [exact Hs |]. split; [exact Hl |].
  exact (proj1 (pause_resets_rate [1000; 2000]%Z 1000000000
                  default_config Hs Hl)).
Defined.

(** * Further properties of the emission step *)

Lemma axis_run_ticks (cfg : config) (hc : Z) (n : nat) : forall a,
  fst (axis_run cfg hc a (repeat Tick n)) = ticks cfg hc n a.
Proof.
  induction n as [| k IH]; intros a; [reflexivity |].
  cbn [repeat axis_run ticks]. rewrite <- IH, <- axis_step_tick.
  destruct (axis_step cfg hc a Tick) as [a1 out1]. cbn [fst].
  destruct (axis_run cfg hc a1 (repeat Tick k)) as [a2 out2]. reflexivity.
Qed.

Lemma axis_run_tick_out (cfg : config) (hc : Z) (n : nat) (a : axis_state) :
  snd (axis_run cfg hc a (repeat Tick (S n))) =
  snd (emit_axis a hc cfg) ++
  snd (axis_run cfg hc (tick cfg hc a) (repeat Tick n)).
Proof.
  cbn [repeat axis_run]. unfold axis_step, tick.
  destruct (emit_axis a hc cfg) as [[did a1] out1]. cbn [fst snd].
  destruct (axis_run cfg hc a1 (repeat Tick n)) as [a2 out2]. reflexivity.
Qed.

Lemma trunc_zero (x : Q) : x == 0 -> trunc x = 0%Z.
Proof. intros H. now rewrite H. Qed.

Lemma resting_tick (cfg : config) (hc : Z) (a : axis_state) :
  resting a ->
  resting (tick cfg hc a) /\ rate (tick cfg hc a) = rate a /\
  emit_axis a hc cfg = (false, tick cfg hc a, []).
Proof.
  intros [Hv [Ha Hl]]. unfold tick.
  destruct (Qlt_le_dec (fabs (velocity a)) (stop_threshold cfg)) as [Hlt | Hge].
  - rewrite (emit_axis_rest a hc cfg Hlt). cbn [fst snd].
    repeat split; reflexivity.
  - rewrite (emit_axis_active a hc cfg Hge). cbv zeta.
    assert (Hx : emit_accum a +
                 (velocity a - velocity a * (1 - friction cfg)) == 0)
      by (rewrite Hv, Ha; ring).
    rewrite (trunc_zero _ Hx). cbn [Z.eqb fst snd].
    unfold resting. cbn [velocity emit_accum lowres_accum rate].
    repeat split; try assumption; try reflexivity.
    + rewrite Hv. ring.
    + rewrite Hx. reflexivity.
Qed.

(** X4: an axis at rest stays at rest, for every configuration: any
    number of timer ticks leaves velocity, remainder and carry at zero,
    leaves the rate tracker alone and writes nothing. *)
Theorem rest_is_idempotent
    (cfg : config) (hc : Z) (n : nat) (a : axis_state) :
  resting a ->
  resting (ticks cfg hc n a) /\
  rate (ticks cfg hc n a) = rate a /\
  snd (axis_run cfg hc a (repeat Tick n)) = [].
Proof.
  revert a. induction n as [| k IH]; intros a Hrest.
  - repeat split; try reflexivity; apply Hrest.
  - destruct (resting_tick cfg hc a Hrest) as [Hr1 [Hrate Hemit]].
    destruct (IH (tick cfg hc a) Hr1) as [Hr2 [Hrate2 Hout]].
    cbn [ticks]. split; [exact Hr2 |]. split; [congruence |].
    rewrite axis_run_tick_out, Hemit, Hout. reflexivity.
Qed.

Lemma rest_is_idempotent_witness :
  resting axis_zero /\
  snd (axis_run default_config REL_WHEEL_HI_RES axis_zero (repeat Tick 3))
  = [].
Proof.
  assert (H : resting axis_zero) by (repeat split; reflexivity).
  split; [exact H |].
  exact (proj2 (proj2 (rest_is_idempotent default_config REL_WHEEL_HI_RES
                         3 axis_zero H))).
Defined.

(** The events of one call of [emit_axis], one by one, and its return
    value. *)
Lemma emit_axis_events (cfg : config) (hc : Z) (a : axis_state) :
  fst (fst (emit_axis a hc cfg)) =
    negb (match snd (emit_axis a hc cfg) with [] => true | _ => false end) /\
  Forall (fun e => ev_type e = EV_REL /\ ev_value e <> 0%Z /\
                   (ev_code e = hc \/ ev_code e = lowres_code_of hc))
         (snd (emit_axis a hc cfg)).
Proof.
  destruct (Qlt_le_dec (fabs (velocity a)) (stop_threshold cfg)) as [Hlt | Hge].
  - rewrite (emit_axis_rest a hc cfg Hlt). cbn [fst snd].
    split; [reflexivity | constructor].
  - rewrite (emit_axis_active a hc cfg Hge). cbv zeta.
    set (w := trunc _).
    destruct (Z.eqb_spec w 0) as [Hz | Hnz]; cbn [fst snd negb];
      (split; [reflexivity |]); [constructor |].
    constructor; [repeat split; [exact Hnz | now left] |].
    destruct (Z.eq_dec (lowres_accum a + w) 0) as [Hx | Hx].
    + rewrite Hx. constructor.
    + apply Forall_forall. intros e He. apply repeat_spec in He. subst e.
      cbn [coarse_event ev_type ev_code ev_value].
      repeat split; [| now right].
      intros Hs. now apply (proj1 (Z.sgn_null_iff _)) in Hs.
Qed.

(** X5: what a call of [emit_axis] can write.  Either nothing, and then
    it returns 0; or one hi-res event with a non-zero value followed only
    by coarse events of the matching low-res code, all +1 or all -1, and
    then it returns 1.  It never writes a sync and never touches the rate
    tracker. *)
Theorem emit_axis_output_shape
    (cfg : config) (hc : Z) (a : axis_state) :
  rate (snd (fst (emit_axis a hc cfg))) = rate a /\
  ((fst (fst (emit_axis a hc cfg)) = false /\ snd (emit_axis a hc cfg) = [])
   \/
   (fst (fst (emit_axis a hc cfg)) = true /\
    exists (w d : Z) (n : nat),
      w <> 0%Z /\ (d = 1%Z \/ d = (-1)%Z) /\
      snd (emit_axis a hc cfg) =
      mkEvent EV_REL hc w ::
      repeat (mkEvent EV_REL (lowres_code_of hc) d) n)).
Proof.
  destruct (Qlt_le_dec (fabs (velocity a)) (stop_threshold cfg)) as [Hlt | Hge].
  - rewrite (emit_axis_rest a hc cfg Hlt). cbn [fst snd rate].
    split; [reflexivity | now left].
  - rewrite (emit_axis_active a hc cfg Hge). cbv zeta.
    set (w := trunc _).
    destruct (Z.eqb_spec w 0) as [Hz | Hnz]; cbn [fst snd rate];
      (split; [reflexivity |]); [now left | right].
    split; [reflexivity |].
    destruct (Z.eq_dec (Z.sgn (lowres_accum a + w)) 0) as [Hs | Hs].
    + apply (proj1 (Z.sgn_null_iff _)) in Hs. rewrite Hs.
      exists w, 1%Z, 0%nat. repeat split; [assumption | now left].
    + exists w, (Z.sgn (lowres_accum a + w)),
        (Z.abs_nat (Z.quot (lowres_accum a + w) HIRES_PER_TICK)).
      repeat split; [assumption |].
      destruct (Z.sgn_spec (lowres_accum a + w))
        as [[_ E] | [[_ E] | [_ E]]];
        [now left | congruence | now right].
Qed.





(** X7: what an injection can write.  Either nothing, and then the
    velocity it leaves is below the stop threshold; or at least one
    scroll event with a non-zero value, closed by exactly one sync. *)
Theorem inject_output_framing
    (cfg : config) (hc : Z) (a : axis_state) (raw scale : Q) :
  (snd (inject a hc raw scale cfg) = [] /\
   fabs (velocity (fst (inject a hc raw scale cfg))) < stop_threshold cfg)
  \/
  (exists body : list input_event,
     body <> [] /\
     Forall (fun e => ev_type e = EV_REL /\ ev_value e <> 0%Z) body /\
     snd (inject a hc raw scale cfg) = body ++ write_syn).
Proof.
  unfold inject.
  destruct (emit_axis_events cfg hc (injected a raw scale cfg)) as [Hdid Hev].
  destruct (emit_axis (injected a raw scale cfg) hc cfg) as [[did a2] out].
  cbn [fst snd] in *. subst did.
  destruct out as [| x l]; cbn [negb andb].
  - destruct (Qgeb (fabs (velocity a2)) (stop_threshold cfg)) eqn:E.
    + right. rewrite force_emit_eq. cbn [fst snd app].
      exists [mkEvent EV_REL hc (force_dir a2)].
      split; [discriminate |]. split; [| reflexivity].
      constructor; [| constructor]. split; [reflexivity |].
      unfold force_dir. cbn [ev_value].
      destruct (Qltb 0 (velocity a2)); discriminate.
    + left. cbn [fst snd]. apply Qgeb_lt in E. split; [reflexivity | exact E].
  - right. cbn [fst snd]. exists (x :: l).
    split; [discriminate |]. split; [| reflexivity].
    eapply Forall_impl; [| exact Hev]. cbv beta. intros e He. tauto.
Qed.



Lemma settle_bound_b64_enough (cfg : config) (a : axis_state) :
  0 < stop_threshold cfg * (friction cfg * (1 # 2)) ->
  fabs (velocity a)
  < inject_Z (Z.of_nat (settle_bound_b64 cfg a))
    * (stop_threshold cfg * (friction cfg * (1 # 2))).
Proof.
  intros Hc. unfold settle_bound_b64.
  set (v := fabs (velocity a)).
  set (c := stop_threshold cfg * (friction cfg * (1 # 2))) in *.
  assert (Hv : 0 <= v) by apply Qabs_nonneg.
  assert (Hq : 0 <= v / c).
  { apply Qle_shift_div_l; [exact Hc | lra]. }
  assert (Hfl : (0 <= Qfloor (v / c))%Z).
  { change 0%Z with (Qfloor 0). now apply Qfloor_resp_le. }
  rewrite Z2Nat.id by lia.
  pose proof (Qlt_floor (v / c)) as Hlt.
  assert (E : v == v / c * c) by (field; lra).
  rewrite E at 1. apply Qmult_lt_compat_r; assumption.
Qed.

(** X9: a bound on the settling time in double arithmetic.  For a
    finite velocity, a friction of at least 2^-50 and below 1 and a
    stop threshold of at least 2^-1021, an axis left alone is below the
    stop threshold after
    [floor (2 * |velocity| / (stop_threshold * friction)) + 1] ticks
    and from then on. *)
Theorem settles_within_bound_b64
    (cfg : config) (hc : Z) (a : axis_state) (n : nat) :
  pow2 (-50) <= friction cfg -> friction cfg < 1 ->
  pow2 (-1021) <= stop_threshold cfg ->
  (settle_bound_b64 cfg a <= n)%nat ->
  fabs (velocity (ticks_b64 cfg hc n a)) < stop_threshold cfg.
Proof.
  intros Hf0 Hf1 Hthr Hn. apply Qlt_le_weak in Hf1.
  pose proof (pow2_pos (-50)) as Hp50. pose proof (pow2_pos (-1021)) as Hmin.
  destruct (below_within_b64 cfg hc a (settle_bound_b64 cfg a) Hf0 Hf1 Hthr)
    as [k [Hk Hlt]].
  { apply settle_bound_b64_enough. nra. }
  replace n with (k + (n - k))%nat by lia.
  rewrite ticks_b64_add. apply stays_below_b64; [lra | assumption].
Qed.

Lemma settles_within_bound_b64_witness :
  let a := mkAxis 1 0 0 rate_zero in
  (pow2 (-50) <= friction default_config_b64 /\
   friction default_config_b64 < 1) /\
  pow2 (-1021) <= stop_threshold default_config_b64 /\
  (settle_bound_b64 default_config_b64 a <= 52)%nat /\
  fabs (velocity (ticks_b64 default_config_b64 REL_WHEEL_HI_RES 52 a))
  < stop_threshold default_config_b64.
Proof.
  cbv zeta.
  assert (Hf0 : pow2 (-50) <= friction default_config_b64)
    by (apply Qle_bool_iff; vm_compute; reflexivity).
  assert (Hf1 : friction default_config_b64 < 1)
    by (apply Qltb_lt; vm_compute; reflexivity).
  assert (Hthr : pow2 (-1021) <= stop_threshold default_config_b64)
    by (apply Qle_bool_iff; vm_compute; reflexivity).
  assert (Hn : (settle_bound_b64 default_config_b64 (mkAxis 1 0 0 rate_zero)
                <= 52)%nat) by (vm_compute; lia).
  split; [split; [exact Hf0 | exact Hf1] |]. split; [exact Hthr |].
  split; [exact Hn |].
  exact (settles_within_bound_b64 default_config_b64 REL_WHEEL_HI_RES
           (mkAxis 1 0 0 rate_zero) 52 Hf0 Hf1 Hthr Hn).
Defined.

(** * Further properties of the event loop *)

Lemma inject_codes
    (cfg : config) (hc : Z) (a : axis_state) (raw scale : Q) :
  Forall (fun e => is_syn_report e = true \/
                   (ev_type e = EV_REL /\
                    (ev_code e = hc \/ ev_code e = lowres_code_of hc)))
         (snd (inject a hc raw scale cfg)).
Proof.
  unfold inject.
  destruct (emit_axis_events cfg hc (injected a raw scale cfg)) as [Hdid Hev].
  destruct (emit_axis (injected a raw scale cfg) hc cfg) as [[did a2] out].
  cbn [fst snd] in *. subst did.
  assert (Hout : Forall (fun e => is_syn_report e = true \/
                           (ev_type e = EV_REL /\
                            (ev_code e = hc \/
                             ev_code e = lowres_code_of hc))) out).
  { eapply Forall_impl; [| exact Hev]. cbv beta. intros e He. tauto. }
  assert (Hsyn : Forall (fun e => is_syn_report e = true \/
                           (ev_type e = EV_REL /\
                            (ev_code e = hc \/
                             ev_code e = lowres_code_of hc))) write_syn).
  { constructor; [now left | constructor]. }
  destruct out as [| x l]; cbn [negb andb].
  - destruct (Qgeb (fabs (velocity a2)) (stop_threshold cfg)).
    + rewrite force_emit_eq. cbn [fst snd app].
      constructor; [right; split; [reflexivity | now left] | exact Hsyn].
    + constructor.
  - cbn [fst snd]. apply Forall_app. now split.
Qed.

Lemma written_writes (out : list input_event) : written (map Write out) = out.
Proof.
  induction out as [| e l IH]; [reflexivity |]. simpl. now rewrite IH.
Qed.

Lemma written_app (l1 l2 : list action) :
  written (l1 ++ l2) = written l1 ++ written l2.
Proof.
  induction l1 as [| [e | its] l IH]; simpl; [reflexivity | | assumption].
  now rewrite IH.
Qed.

(** X10: the two axes are independent.  A scroll event read from the
    source changes only the axis it belongs to (vertical for [REL_WHEEL]
    and [REL_WHEEL_HI_RES], horizontal for the other two), leaves the
    other axis, the pending-frame flag and the timer target as they were,
    arms no timer, and writes only syncs and scroll events of that axis'
    own hi-res and low-res codes. *)
Theorem scroll_event_touches_one_axis
    (s : sched) (code value ts : Z) (scale : Q) (cfg : config) :
  is_scroll_code code = true ->
  let r := on_source s EV_REL code value ts scale cfg in
  let hc := if scroll_is_vert code
            then REL_WHEEL_HI_RES else REL_HWHEEL_HI_RES in
  had_non_scroll (fst r) = had_non_scroll s /\
  next_tick_ns (fst r) = next_tick_ns s /\
  (if scroll_is_vert code
   then horiz (fst r) = horiz s else vert (fst r) = vert s) /\
  snd r = map Write (written (snd r)) /\
  Forall (fun e => is_syn_report e = true \/
                   (ev_type e = EV_REL /\
                    (ev_code e = hc \/ ev_code e = lowres_code_of hc)))
         (written (snd r)).
Proof.
  intros Hsc. cbv zeta. unfold on_source.
  change ((EV_REL =? EV_SYN)%Z) with false. cbn [andb].
  change ((EV_REL =? EV_REL)%Z) with true. rewrite Hsc. cbn [andb].
  destruct (scroll_is_vert code).
  - pose proof (inject_codes cfg REL_WHEEL_HI_RES
                  (mkAxis (velocity (vert s)) (emit_accum (vert s))
                          (lowres_accum (vert s))
                          (rate_record (rate (vert s)) ts))
                  (scroll_raw code value) scale) as Hc.
    unfold on_impulse.
    destruct (inject _ REL_WHEEL_HI_RES (scroll_raw code value) scale cfg)
      as [v out]. cbn [fst snd had_non_scroll next_tick_ns horiz] in *.
    rewrite written_writes. repeat split; assumption.
  - pose proof (inject_codes cfg REL_HWHEEL_HI_RES
                  (mkAxis (velocity (horiz s)) (emit_accum (horiz s))
                          (lowres_accum (horiz s))
                          (rate_record (rate (horiz s)) ts))
                  (scroll_raw code value) scale) as Hc.
    unfold on_impulse.
    destruct (inject _ REL_HWHEEL_HI_RES (scroll_raw code value) scale cfg)
      as [h out]. cbn [fst snd had_non_scroll next_tick_ns vert] in *.
    rewrite written_writes. repeat split; assumption.
Qed.

Lemma scroll_event_touches_one_axis_witness :
  is_scroll_code REL_WHEEL = true /\
  horiz (fst (on_source (fst (timer_init 0 default_config))
                        EV_REL REL_WHEEL 1 1000 1 default_config))
  = horiz (fst (timer_init 0 default_config)).
Proof.
  split; [reflexivity |].
  exact (proj1 (proj2 (proj2
           (scroll_event_touches_one_axis (fst (timer_init 0 default_config))
              REL_WHEEL 1 1000 1 default_config eq_refl)))).
Defined.

Lemma on_source_plain (s : sched) (e : src_event) (cfg : config) :
  src_is_scroll e = false ->
  on_source s (se_type e) (se_code e) (se_value e) (se_ts e) (se_scale e) cfg
  = if src_is_syn e
    then (mkSched (vert s) (horiz s) false (next_tick_ns s),
          if had_non_scroll s then map Write write_syn else [])
    else (mkSched (vert s) (horiz s) true (next_tick_ns s),
          [Write (src_forward e)]).
Proof.
  intros Hns. unfold on_source, src_is_syn, src_is_scroll in *.
  destruct ((se_type e =? EV_SYN) && (se_code e =? SYN_REPORT))%Z;
    [reflexivity |].
  now rewrite Hns.
Qed.

(** X11: events that are not scroll events pass through.  Over a source
    stream without scroll events the loop leaves both axes and the timer
    target alone, and what it writes, syncs apart, is exactly the events
    of the stream, syncs apart, in their order and unchanged. *)
Theorem passthrough_preserves_events
    (cfg : config) (evs : list src_event) (s : sched) :
  forallb (fun e => negb (src_is_scroll e)) evs = true ->
  let r := source_run s evs cfg in
  vert (fst r) = vert s /\ horiz (fst r) = horiz s /\
  next_tick_ns (fst r) = next_tick_ns s /\
  snd r = map Write (written (snd r)) /\
  filter (fun e => negb (is_syn_report e)) (written (snd r)) =
  map src_forward (filter (fun e => negb (src_is_syn e)) evs).
Proof.
  cbv zeta. revert s. induction evs as [| e rest IH]; intros s Hall.
  - repeat split; reflexivity.
  - cbn [forallb] in Hall. apply andb_true_iff in Hall.
    destruct Hall as [He Hrest]. apply negb_true_iff in He.
    cbn [source_run]. rewrite (on_source_plain s e cfg He).
    cbn [filter].
    destruct (src_is_syn e) eqn:Hsyn.
    + specialize (IH (mkSched (vert s) (horiz s) false (next_tick_ns s))
                     Hrest).
      destruct (source_run _ rest cfg) as [s2 out2].
      cbn [fst snd vert horiz next_tick_ns negb] in *.
      destruct IH as [Hv [Hh [Hn [Hw Hf]]]].
      rewrite written_app.
      destruct (had_non_scroll s); cbn [written map app write_syn write_event];
        repeat split; try assumption; now rewrite <- Hw.
    + specialize (IH (mkSched (vert s) (horiz s) true (next_tick_ns s))
                     Hrest).
      destruct (source_run _ rest cfg) as [s2 out2].
      cbn [fst snd vert horiz next_tick_ns negb] in *.
      destruct IH as [Hv [Hh [Hn [Hw Hf]]]].
      cbn [app written map filter].
      assert (Hns : is_syn_report (src_forward e) = false) by exact Hsyn.
      rewrite Hns. cbn [negb map]. rewrite Hf, <- Hw.
      repeat split; assumption.
Qed.

Lemma passthrough_preserves_events_witness :
  forallb (fun e => negb (src_is_scroll e)) click_frame = true /\
  filter (fun e => negb (is_syn_report e))
         (written (snd (source_run (fst (timer_init 0 default_config))
                                   click_frame default_config)))
  = map src_forward (filter (fun e => negb (src_is_syn e)) click_frame).
Proof.
  split; [reflexivity |].
  exact (proj2 (proj2 (proj2 (proj2
           (passthrough_preserves_events default_config click_frame
              (fst (timer_init 0 default_config)) eq_refl))))).
Defined.

(** X12: the daemon is transparent to everything but scrolling.  Over a
    source stream without scroll events in which every frame carries
    something, the loop writes exactly the stream it read: every event
    and every sync, unchanged and in order. *)
Theorem passthrough_is_transparent
    (cfg : config) (evs : list src_event) (s : sched) :
  forallb (fun e => negb (src_is_scroll e)) evs = true ->
  plain_frames (had_non_scroll s) evs = true ->
  snd (source_run s evs cfg) = map Write (map src_forward evs).
Proof.
  revert s. induction evs as [| e rest IH]; intros s Hall Hpl;
    [reflexivity |].
  cbn [forallb] in Hall. apply andb_true_iff in Hall.
  destruct Hall as [He Hrest]. apply negb_true_iff in He.
  cbn [source_run plain_frames] in *. rewrite (on_source_plain s e cfg He).
  destruct (src_is_syn e) eqn:Hsyn.
  - apply andb_true_iff in Hpl. destruct Hpl as [Hpl Hpl2].
    apply andb_true_iff in Hpl. destruct Hpl as [Hpend Hval].
    specialize (IH (mkSched (vert s) (horiz s) false (next_tick_ns s))
                   Hrest Hpl2).
    destruct (source_run _ rest cfg) as [s2 out2]. cbn [snd] in *.
    rewrite Hpend, IH. cbn [map app write_syn write_event]. f_equal.
    unfold src_is_syn in Hsyn. apply andb_true_iff in Hsyn.
    destruct Hsyn as [Ht Hc].
    apply Z.eqb_eq in Ht, Hc, Hval.
    unfold src_forward. now rewrite Ht, Hc, Hval.
  - specialize (IH (mkSched (vert s) (horiz s) true (next_tick_ns s))
                   Hrest Hpl).
    destruct (source_run _ rest cfg) as [s2 out2]. cbn [snd] in *.
    now rewrite IH.
Qed.

Lemma passthrough_is_transparent_witness :
  forallb (fun e => negb (src_is_scroll e)) click_frame = true /\
  plain_frames false click_frame = true /\
  snd (source_run (fst (timer_init 0 default_config)) click_frame
                  default_config)
  = map Write (map src_forward click_frame).
Proof.
  split; [reflexivity |]. split; [reflexivity |].
  exact (passthrough_is_transparent default_config click_frame
           (fst (timer_init 0 default_config)) eq_refl eq_refl).
Defined.

(** * Further properties of the timer branch *)

Lemma on_timer_resting (s : sched) (wake : Z) (cfg : config) :
  resting (vert s) -> resting (horiz s) ->
  resting (vert (fst (on_timer s wake ReadOk cfg))) /\
  resting (horiz (fst (on_timer s wake ReadOk cfg))) /\
  written (snd (on_timer s wake ReadOk cfg)) = [].
Proof.
  intros Hv Hh.
  destruct (resting_tick cfg REL_WHEEL_HI_RES (vert s) Hv) as [Hv1 [_ Ev]].
  destruct (resting_tick cfg REL_HWHEEL_HI_RES (horiz s) Hh) as [Hh1 [_ Eh]].
  unfold on_timer. rewrite Ev, Eh.
  cbn [fst snd vert horiz orb app map written].
  split; [exact Hv1 | split; [exact Hh1 | reflexivity]].
Qed.

(** X13: an idle daemon is silent.  With both axes at rest, any number of
    timer expiries leaves them at rest and writes no event at all; the
    loop only re-arms the timer. *)
Theorem idle_timer_writes_nothing
    (cfg : config) (wakes : list Z) (s : sched) :
  resting (vert s) -> resting (horiz s) ->
  resting (vert (fst (timer_run s wakes cfg))) /\
  resting (horiz (fst (timer_run s wakes cfg))) /\
  written (snd (timer_run s wakes cfg)) = [].
Proof.
  revert s. induction wakes as [| w rest IH]; intros s Hv Hh.
  - split; [exact Hv | split; [exact Hh | reflexivity]].
  - destruct (on_timer_resting s w cfg Hv Hh) as [Hv1 [Hh1 Hw1]].
    cbn [timer_run].
    destruct (on_timer s w ReadOk cfg) as [s1 out1]. cbn [fst snd] in *.
    destruct (IH s1 Hv1 Hh1) as [Hv2 [Hh2 Hw2]].
    destruct (timer_run s1 rest cfg) as [s2 out2]. cbn [fst snd] in *.
    rewrite written_app, Hw1, Hw2.
    split; [exact Hv2 | split; [exact Hh2 | reflexivity]].
Qed.

Lemma idle_timer_writes_nothing_witness :
  resting (vert (fst (timer_init 0 default_config))) /\
  resting (horiz (fst (timer_init 0 default_config))) /\
  written (snd (timer_run (fst (timer_init 0 default_config))
                          [5; 9; 20]%Z default_config)) = [].
Proof.
  assert (H : resting axis_zero) by (repeat split; reflexivity).
  split; [exact H |]. split; [exact H |].
  exact (proj2 (proj2 (idle_timer_writes_nothing default_config [5; 9; 20]%Z
                         (fst (timer_init 0 default_config)) H H))).
Defined.

Lemma emit_axis_flag (cfg : config) (hc : Z) (a : axis_state) :
  fst (fst (emit_axis a hc cfg)) =
    negb (match snd (emit_axis a hc cfg) with [] => true | _ => false end) /\
  Forall (fun e => ev_type e = EV_REL /\ ev_value e <> 0%Z)
         (snd (emit_axis a hc cfg)).
Proof.
  destruct (emit_axis_events cfg hc a) as [Hdid Hev].
  split; [exact Hdid |].
  eapply Forall_impl; [| exact Hev]. cbv beta. intros e He. tauto.
Qed.

(** X14: how a timer expiry frames its output.  A handled expiry first
    arms the timer, once; then it writes either nothing, or scroll events
    with non-zero values closed by exactly one sync.  It never writes a
    sync alone. *)
Theorem on_timer_output_framing
    (s : sched) (wake : Z) (r : read_result) (cfg : config) :
  r <> ReadError ->
  exists body : list input_event,
    snd (on_timer s wake r cfg) =
      Settime (abs_deadline (next_tick_ns s + tick_ns cfg)) ::
      map Write (if match body with [] => true | _ => false end
                 then [] else body ++ write_syn) /\
    Forall (fun e => ev_type e = EV_REL /\ ev_value e <> 0%Z) body.
Proof.
  intros Hr.
  destruct (emit_axis_flag cfg REL_WHEEL_HI_RES (vert s)) as [Hd1 Hf1].
  destruct (emit_axis_flag cfg REL_HWHEEL_HI_RES (horiz s)) as [Hd2 Hf2].
  unfold on_timer.
  destruct (emit_axis (vert s) REL_WHEEL_HI_RES cfg) as [[e1 v] out1].
  destruct (emit_axis (horiz s) REL_HWHEEL_HI_RES cfg) as [[e2 h] out2].
  cbn [fst snd] in *. subst e1 e2.
  exists (out1 ++ out2). split; [| apply Forall_app; now split].
  destruct r; [| | congruence]; cbn [snd]; f_equal; f_equal;
    destruct out1 as [| x1 l1]; destruct out2 as [| x2 l2];
    cbn [negb orb app]; rewrite ?app_nil_r, <- ?app_assoc; reflexivity.
Qed.

Lemma on_timer_output_framing_witness :
  ReadOk <> ReadError /\
  exists body : list input_event,
    snd (on_timer (fst (timer_init 0 default_config)) 7 ReadOk
                  default_config) =
      Settime (abs_deadline
                 (next_tick_ns (fst (timer_init 0 default_config))
                  + tick_ns default_config)) ::
      map Write (if match body with [] => true | _ => false end
                 then [] else body ++ write_syn) /\
    Forall (fun e => ev_type e = EV_REL /\ ev_value e <> 0%Z) body.
Proof.
  assert (H : ReadOk <> ReadError) by discriminate.
  split; [exact H |].
  exact (on_timer_output_framing (fst (timer_init 0 default_config)) 7
           ReadOk default_config H).
Defined.

Lemma affine_deadlines_sorted (n0 t : Z) (len : nat) : forall start : nat,
  (0 < t)%Z ->
  StronglySorted Z.lt
    (map (fun k => (n0 + Z.of_nat k * t)%Z) (seq start len)).
Proof.
  induction len as [| m IH]; intros start Ht; [constructor |].
  cbn [seq map]. constructor; [now apply IH |].
  apply Forall_forall. intros x Hx. apply in_map_iff in Hx.
  destruct Hx as [k [<- Hk]]. apply in_seq in Hk. nia.
Qed.

(** X15: after the clamp of [main] the tick interval is between one and
    fifty milliseconds, so the deadlines armed by the timer, from the
    first one on, strictly increase, whatever was given on the command
    line. *)
Theorem clamped_deadlines_increase
    (c : config) (now : Z) (wakes : list Z) :
  let cfg := clamp_config c in
  (1000000 <= tick_ns cfg <= 50000000)%Z /\
  StronglySorted Z.lt
    (armed_deadlines (snd (timer_init now cfg)) ++
     armed_deadlines (snd (timer_run (fst (timer_init now cfg)) wakes cfg))).
Proof.
  cbv zeta. pose proof (clamp_tick_ms c) as Ht.
  assert (Hns : (1000000 <= tick_ns (clamp_config c) <= 50000000)%Z)
    by (unfold tick_ns; lia).
  split; [exact Hns |].
  destruct (timer_run_deadlines (clamp_config c) wakes
              (fst (timer_init now (clamp_config c)))) as [_ Ha].
  rewrite Ha. unfold timer_init.
  cbn [fst snd armed_deadlines next_tick_ns app]. rewrite deadline_abs.
  set (n0 := (now + tick_ns (clamp_config c))%Z).
  change (n0 :: map (fun k => (n0 + Z.of_nat k * tick_ns (clamp_config c))%Z)
                    (seq 1 (length wakes)))
    with ((n0 :: nil) ++
          map (fun k => (n0 + Z.of_nat k * tick_ns (clamp_config c))%Z)
              (seq 1 (length wakes))).
  replace (n0 :: nil)
    with (map (fun k => (n0 + Z.of_nat k * tick_ns (clamp_config c))%Z)
              (seq 0 1))
    by (cbn [seq map]; f_equal; lia).
  rewrite <- map_app, <- seq_app.
  apply affine_deadlines_sorted. lia.
Qed.

(** * Device auto-detection *)

Lemma strcasestr_any_true
    (sc : String.string -> String.string -> bool) (h : String.string)
    (n : nat) : forall needles : list String.string,
  strcasestr_any sc h needles n = true <->
  exists kw, In kw (firstn n needles) /\ sc h kw = true.
Proof.
  induction n as [| k IH]; intros needles.
  - simpl. split; [discriminate | intros [kw [[] _]]].
  - destruct needles as [| x rest].
    + simpl. split; [discriminate | intros [kw [[] _]]].
    + cbn [strcasestr_any firstn]. destruct (sc h x) eqn:E.
      * split; [intros _; exists x; split; [now left | exact E] | reflexivity].
      * rewrite IH. split; intros [kw [Hin Hkw]]; exists kw.
        -- split; [now right | exact Hkw].
        -- destruct Hin as [-> | Hin]; [congruence | now split].
Qed.

Lemma has_wheel_testbit (bits : list Z) :
  has_wheel bits = Z.testbit (nth 0 bits 0%Z) REL_WHEEL.
Proof.
  unfold has_wheel, array_get.
  change (Z.to_nat (Z.quot REL_WHEEL ULONG_BITS)) with 0%nat.
  change (Z.rem REL_WHEEL ULONG_BITS) with REL_WHEEL.
  set (w := nth 0 bits 0%Z).
  change 1%Z with (Z.ones 1). rewrite Z.land_ones by lia.
  change (2 ^ 1)%Z with 2%Z. rewrite <- Z.bit0_mod.
  rewrite Z.shiftr_spec by lia. change (0 + REL_WHEEL)%Z with REL_WHEEL.
  now destruct (Z.testbit w REL_WHEEL).
Qed.

Lemma scan_entries_cons
    (sc : String.string -> String.string -> bool)
    (e : dir_entry) (rest : list dir_entry) :
  (scroll_candidate sc e /\
   scan_entries sc (e :: rest) =
   Some (String.append "/dev/input/" (d_name e))) \/
  (~ scroll_candidate sc e /\
   scan_entries sc (e :: rest) = scan_entries sc rest).
Proof.
  unfold scroll_candidate. cbn [scan_entries].
  destruct (String.prefix "event" (d_name e)); cbn [negb];
    [| right; split; [intros [H _]; discriminate | reflexivity]].
  destruct (dev_open e); cbn [negb];
    [| right; split; [intros [_ [H _]]; discriminate | reflexivity]].
  destruct (dev_name e) as [name |];
    [| right; split;
       [intros [_ [_ [[n [kw [H _]]] _]]]; discriminate | reflexivity]].
  destruct (strcasestr_any sc name keywords 3) eqn:Hkw; cbn [negb].
  - destruct (dev_rel_bits e) as [bits |];
      [| right; split;
         [intros [_ [_ [_ [b [H _]]]]]; discriminate | reflexivity]].
    rewrite has_wheel_testbit.
    destruct (Z.testbit (nth 0 bits 0%Z) REL_WHEEL) eqn:Hbit.
    + left. split; [| reflexivity].
      apply strcasestr_any_true in Hkw. destruct Hkw as [kw [Hin Hs]].
      repeat split; try reflexivity.
      * exists name, kw. repeat split; assumption.
      * exists bits. split; [reflexivity | exact Hbit].
    + right. split; [| reflexivity].
      intros [_ [_ [_ [b [Hb Ht]]]]]. congruence.
  - right. split; [| reflexivity].
    intros [_ [_ [[n [kw [Hn [Hin Hs]]]] _]]].
    assert (strcasestr_any sc name keywords 3 = true); [| congruence].
    apply strcasestr_any_true. exists kw. split; [exact Hin | congruence].
Qed.

(** X16: [find_scroll_device] returns the first candidate.  When it
    returns a path, the directory was read, the path is [/dev/input/]
    followed by the name of an entry that starts with [event], could be
    opened, has a device name containing one of the three keywords and
    has the [REL_WHEEL] bit in its capabilities; and no entry listed
    before it passes these tests. *)
Theorem find_scroll_device_first_candidate
    (sc : String.string -> String.string -> bool)
    (dir : option (list dir_entry)) (path : String.string) :
  find_scroll_device sc dir = Some path ->
  exists (before : list dir_entry) (e : dir_entry) (after : list dir_entry),
    dir = Some (before ++ e :: after) /\
    path = String.append "/dev/input/" (d_name e) /\
    scroll_candidate sc e /\
    Forall (fun x => ~ scroll_candidate sc x) before.
Proof.
  destruct dir as [ents |]; [| discriminate]. cbn [find_scroll_device].
  induction ents as [| e rest IH]; [discriminate |]. intros H.
  destruct (scan_entries_cons sc e rest) as [[Hc Hs] | [Hn Hs]];
    rewrite Hs in H.
  - exists [], e, rest. injection H as <-.
    repeat split; try apply Hc. constructor.
  - destruct (IH H) as [before [x [after [Hd [Hp [Hc Hb]]]]]].
    exists (e :: before), x, after. injection Hd as ->.
    repeat split; try apply Hc; try assumption. now constructor.
Qed.

Lemma find_scroll_device_first_candidate_witness :
  find_scroll_device substring_at (Some sample_dir)
  = Some "/dev/input/event3"%string /\
  exists (before : list dir_entry) (e : dir_entry) (after : list dir_entry),
    Some sample_dir = Some (before ++ e :: after) /\
    "/dev/input/event3"%string = String.append "/dev/input/" (d_name e) /\
    scroll_candidate substring_at e /\
    Forall (fun x => ~ scroll_candidate substring_at x) before.
Proof.
  assert (H : find_scroll_device substring_at (Some sample_dir)
              = Some "/dev/input/event3"%string) by reflexivity.
  split; [exact H |].
  exact (find_scroll_device_first_candidate substring_at (Some sample_dir)
           "/dev/input/event3"%string H).
Defined.

(** X17: [find_scroll_device] returns [NULL] exactly when there is
    nothing to find: when the directory cannot be opened, or when no
    entry in it passes the tests (in particular when it is empty). *)
Theorem find_scroll_device_none
    (sc : String.string -> String.string -> bool)
    (dir : option (list dir_entry)) :
  find_scroll_device sc dir = None <->
  (dir = None \/
   exists ents, dir = Some ents /\
                Forall (fun x => ~ scroll_candidate sc x) ents).
Proof.
  destruct dir as [ents |]; cbn [find_scroll_device];
    [| split; [now left | reflexivity]].
  split.
  - intros H. right. exists ents. split; [reflexivity |].
    induction ents as [| e rest IH]; [constructor |].
    destruct (scan_entries_cons sc e rest) as [[Hc Hs] | [Hn Hs]];
      rewrite Hs in H; [discriminate |].
    constructor; [exact Hn | now apply IH].
  - intros [Hd | [l [Hd Hall]]]; [discriminate |]. injection Hd as <-.
    induction Hall as [| e rest Hn _ IH]; [reflexivity |].
    destruct (scan_entries_cons sc e rest) as [[Hc Hs] | [_ Hs]];
      [contradiction | now rewrite Hs].
Qed.

(** * Construction of the virtual device *)

Lemma in_upto (x max : Z) : In x (upto max) <-> (0 <= x <= max)%Z.
Proof.
  unfold upto. rewrite in_map_iff. split.
  - intros [k [<- Hk]]. apply in_seq in Hk. lia.
  - intros H. exists (Z.to_nat x). split; [lia |]. apply in_seq. lia.
Qed.

Lemma create_uinput_requests (env : uinput_env) (dev : source_dev) :
  uinput_open env = true ->
  exists tail,
    snd (create_uinput_device env dev) = capability_requests env dev ++ tail /\
    (forall r code, ~ In (SetBit r code) tail) /\
    (forall t, ~ In (UI_SET_EVBIT t) tail).
Proof.
  intros Hopen. unfold create_uinput_device. rewrite Hopen. cbn [negb].
  destruct (ioctl_ok env (UI_DEV_SETUP (setup_name dev))); cbn [negb];
    [destruct (ioctl_ok env UI_DEV_CREATE); cbn [negb] |];
    eexists; (split; [reflexivity |]);
    split; intros; cbn [In]; intros H;
    repeat (destruct H as [H | H]; [discriminate |]); exact H.
Qed.

(** X18: the virtual device always gets the hi-res scroll axes.  Once
    [/dev/uinput] is open, [create_uinput_device] asks for the [EV_REL]
    event type and for both [REL_WHEEL_HI_RES] and [REL_HWHEEL_HI_RES],
    whatever the source device supports; and it returns a descriptor
    exactly when the device setup and the device creation both succeed. *)
Theorem create_uinput_requests_hires (env : uinput_env) (dev : source_dev) :
  uinput_open env = true ->
  In (UI_SET_EVBIT EV_REL) (snd (create_uinput_device env dev)) /\
  In (SetBit UI_SET_RELBIT REL_WHEEL_HI_RES)
     (snd (create_uinput_device env dev)) /\
  In (SetBit UI_SET_RELBIT REL_HWHEEL_HI_RES)
     (snd (create_uinput_device env dev)) /\
  fst (create_uinput_device env dev) =
    ioctl_ok env (UI_DEV_SETUP (setup_name dev)) &&
    ioctl_ok env UI_DEV_CREATE.
Proof.
  intros Hopen.
  destruct (create_uinput_requests env dev Hopen) as [tail [Hreq _]].
  rewrite Hreq. unfold capability_requests.
  split; [| split; [| split]].
  - apply in_or_app. left.
    destruct (has_event_type dev EV_REL) eqn:Hrel; cbn [negb].
    + apply in_or_app. left. apply in_flat_map. exists EV_REL.
      split; [apply in_upto; unfold EV_REL, EV_MAX; lia |].
      unfold type_requests. rewrite Hrel. now left.
    + apply in_or_app. right. now left.
  - apply in_or_app. left. apply in_or_app. right.
    apply in_or_app. right. now left.
  - apply in_or_app. left. apply in_or_app. right.
    apply in_or_app. right. right. now left.
  - unfold create_uinput_device. rewrite Hopen. cbn [negb].
    destruct (ioctl_ok env (UI_DEV_SETUP (setup_name dev))); cbn [negb andb];
      [| reflexivity].
    now destruct (ioctl_ok env UI_DEV_CREATE).
Qed.

Lemma create_uinput_requests_hires_witness :
  uinput_open willing_env = true /\
  In (SetBit UI_SET_RELBIT REL_WHEEL_HI_RES)
     (snd (create_uinput_device willing_env plain_mouse)).
Proof.
  split; [reflexivity |].
  exact (proj1 (proj2 (create_uinput_requests_hires willing_env plain_mouse
                         eq_refl))).
Defined.

Lemma in_code_requests (dev : source_dev) (t max r : _) (code : Z) :
  In (SetBit r code) (code_requests dev t max) <->
  (0 <= code <= max)%Z /\ has_event_code dev t code = true /\
  code_request t = Some r.
Proof.
  unfold code_requests. rewrite in_flat_map. split.
  - intros [c [Hc Hin]]. apply in_upto in Hc.
    destruct (has_event_code dev t c) eqn:E; cbn [negb] in Hin; [| easy].
    destruct (code_request t) as [r' |]; [| easy].
    destruct Hin as [Hin | []]. injection Hin as -> ->. now repeat split.
  - intros [Hc [E Hr]]. exists code. split; [now apply in_upto |].
    rewrite E, Hr. now left.
Qed.

Lemma in_type_requests
    (env : uinput_env) (dev : source_dev) (t : Z) (r : set_bit_req)
    (code : Z) :
  In (SetBit r code) (type_requests env dev t) <->
  has_event_type dev t = true /\ ioctl_ok env (UI_SET_EVBIT t) = true /\
  (0 <= code <= type_max env t)%Z /\ has_event_code dev t code = true /\
  code_request t = Some r.
Proof.
  unfold type_requests.
  destruct (has_event_type dev t); cbn [negb]; [| easy].
  destruct (ioctl_ok env (UI_SET_EVBIT t)); cbn [negb In].
  - destruct (Z.ltb_spec (type_max env t) 0) as [Hneg | Hpos].
    + split; [intros [H | []]; discriminate | intros [_ [_ [H _]]]; lia].
    + rewrite in_code_requests. split.
      * intros [H | H]; [discriminate | now repeat split].
      * intros [_ [_ H]]. now right.
  - split; [intros [H | []]; discriminate | intros [_ [H _]]; discriminate].
Qed.

(** X19: the virtual device mirrors the source and adds only the hi-res
    axes.  Once [/dev/uinput] is open: every code that the source has,
    of an event type between 0 and [EV_MAX] that the source has, that
    uinput accepted and that the [switch] knows, is requested; and every
    code requested is either such a code of the source or one of
    [REL_WHEEL_HI_RES] and [REL_HWHEEL_HI_RES]. *)
Theorem create_uinput_mirrors_source (env : uinput_env) (dev : source_dev) :
  uinput_open env = true ->
  (forall t code r,
     (0 <= t <= EV_MAX)%Z ->
     has_event_type dev t = true ->
     ioctl_ok env (UI_SET_EVBIT t) = true ->
     (0 <= code <= type_max env t)%Z ->
     has_event_code dev t code = true ->
     code_request t = Some r ->
     In (SetBit r code) (snd (create_uinput_device env dev))) /\
  (forall r code,
     In (SetBit r code) (snd (create_uinput_device env dev)) ->
     (r = UI_SET_RELBIT /\
      (code = REL_WHEEL_HI_RES \/ code = REL_HWHEEL_HI_RES)) \/
     (exists t, code_request t = Some r /\
                has_event_type dev t = true /\
                has_event_code dev t code = true)).
Proof.
  intros Hopen.
  destruct (create_uinput_requests env dev Hopen) as [tail [Hreq [Htail _]]].
  rewrite Hreq. unfold capability_requests. split.
  - intros t code r Ht Hty Hok Hc Hcode Hr.
    apply in_or_app. left. apply in_or_app. left.
    apply in_flat_map. exists t. split; [now apply in_upto |].
    apply in_type_requests. now repeat split.
  - intros r code Hin.
    apply in_app_or in Hin. destruct Hin as [Hin | Hin];
      [| now apply Htail in Hin].
    apply in_app_or in Hin. destruct Hin as [Hin | Hin].
    + right. apply in_flat_map in Hin. destruct Hin as [t [_ Hin]].
      apply in_type_requests in Hin.
      destruct Hin as [Hty [_ [_ [Hcode Hr]]]]. exists t. now repeat split.
    + apply in_app_or in Hin. destruct Hin as [Hin | Hin].
      * destruct (has_event_type dev EV_REL); cbn [negb] in Hin; [easy |].
        destruct Hin as [Hin | []]. discriminate.
      * apply in_app_or in Hin. destruct Hin as [Hin | Hin].
        -- left. destruct Hin as [Hin | [Hin | []]];
             injection Hin as <- <-; split; auto.
        -- exfalso. unfold abs_requests in Hin.
           destruct (has_event_type dev EV_ABS); [| easy].
           apply in_flat_map in Hin. destruct Hin as [c [_ Hin]].
           destruct (has_event_code dev EV_ABS c); cbn [negb] in Hin;
             [| easy].
           destruct (has_abs_info dev c); cbn [negb] in Hin; [| easy].
           destruct Hin as [Hin | []]. discriminate.
Qed.

Lemma create_uinput_mirrors_source_witness :
  uinput_open willing_env = true /\
  In (SetBit UI_SET_RELBIT REL_WHEEL)
     (snd (create_uinput_device willing_env plain_mouse)).
Proof.
  split; [reflexivity |].
  apply (proj1 (create_uinput_mirrors_source willing_env plain_mouse
                  eq_refl) EV_REL REL_WHEEL UI_SET_RELBIT);
    try reflexivity; vm_compute; split; discriminate.
Defined.

(** * Invariants of the axis state *)

Lemma emit_axis_carry_bound (cfg : config) (hc : Z) (a : axis_state) :
  (- HIRES_PER_TICK < lowres_accum a < HIRES_PER_TICK)%Z ->
  (- HIRES_PER_TICK < lowres_accum (snd (fst (emit_axis a hc cfg)))
   < HIRES_PER_TICK)%Z.
Proof.
  intros Hb.
  destruct (Qlt_le_dec (fabs (velocity a)) (stop_threshold cfg)) as [Hlt | Hge].
  - rewrite (emit_axis_rest a hc cfg Hlt). cbn [fst snd lowres_accum].
    unfold HIRES_PER_TICK. lia.
  - rewrite (emit_axis_active a hc cfg Hge). cbv zeta.
    destruct (trunc _ =? 0)%Z; cbn [fst snd lowres_accum]; [exact Hb |].
    pose proof (drain_exit 0 (lowres_accum a +
                  trunc (emit_accum a +
                         (velocity a - velocity a * (1 - friction cfg)))))
      as Hd.
    rewrite drain_spec in Hd. exact Hd.
Qed.

(** After a call of [emit_axis] whose cast fits, the remainder holds no
    whole unit: it is zero at rest, and otherwise what the cast left of
    a double, which the subtraction gives without rounding. *)
Lemma emit_axis_b64_accum_bound (cfg : config) (hc : Z) (a : axis_state) :
  emit_in_range a cfg = true ->
  -1 < emit_accum (snd (fst (emit_axis_b64 a hc cfg))) /\
  emit_accum (snd (fst (emit_axis_b64 a hc cfg))) < 1.
Proof.
  intros Hfit.
  destruct (Qlt_le_dec (fabs (velocity a)) (stop_threshold cfg)) as [Hlt | Hge].
  - rewrite (emit_axis_b64_rest a hc cfg Hlt). cbn [fst snd emit_accum]. lra.
  - unfold emit_in_range in Hfit.
    assert (Hno : Qltb (fabs (velocity a)) (stop_threshold cfg) = false)
      by now apply Qltb_ge.
    rewrite Hno in Hfit. cbn [orb] in Hfit. unfold fits_int in Hfit.
    apply andb_true_iff in Hfit. destruct Hfit as [H1 H2].
    apply Z.leb_le in H1, H2.
    rewrite (emit_axis_b64_active a hc cfg Hge). cbv zeta.
    fold (cast_operand a cfg). set (x := cast_operand a cfg) in *.
    rewrite (int_of_double_fits x (conj H1 H2)).
    assert (Hrep : representable x) by apply round64_representable.
    pose proof (round64_frac x Hrep) as Hexact.
    pose proof (trunc_remainder x) as Hrem.
    destruct (trunc x =? 0)%Z; cbn [fst snd emit_accum]; lra.
Qed.

(** X20: the remainder never holds a whole unit.  For a friction
    between 0 and 1, in every state that an axis reaches from the zero
    state by timer ticks and impulses in double arithmetic, as long as
    no product or sum on the way overflowed the doubles and every value
    cast to [int] fitted, the fractional remainder is strictly between
    -1 and 1. *)
Theorem reachable_b64_remainder_bound
    (cfg : config) (hc : Z) (a : axis_state) :
  0 <= friction cfg -> friction cfg <= 1 ->
  reachable_b64 cfg hc a -> -1 < emit_accum a /\ emit_accum a < 1.
Proof.
  intros _ _ Hr. destruct Hr as [| a0 op _ Hin].
  - cbn [axis_zero emit_accum]. lra.
  - destruct op as [| raw ts scale].
    + cbn [axis_step_b64 step_in_range] in *.
      pose proof (emit_axis_b64_accum_bound cfg hc a0 Hin) as Hb.
      destruct (emit_axis_b64 a0 hc cfg) as [[did a'] out]. exact Hb.
    + cbn [axis_step_b64 step_in_range] in *.
      apply andb_true_iff in Hin. destruct Hin as [_ Hin].
      unfold on_impulse_b64, inject_b64.
      set (a1 := mkAxis (velocity a0) (emit_accum a0) (lowres_accum a0)
                        (rate_record (rate a0) ts)).
      assert (Hin1 : emit_in_range (injected_b64 a1 raw scale cfg) cfg = true)
        by exact Hin.
      pose proof (emit_axis_b64_accum_bound cfg hc _ Hin1) as Hb.
      destruct (emit_axis_b64 (injected_b64 a1 raw scale cfg) hc cfg)
        as [[did a2] out]. cbn [fst snd] in Hb.
      destruct (negb did && Qgeb (fabs (velocity a2)) (stop_threshold cfg)).
      * cbn [force_emit_b64 fst emit_accum]. lra.
      * exact Hb.
Qed.

Lemma reachable_b64_remainder_bound_witness :
  (0 <= friction default_config_b64 /\ friction default_config_b64 <= 1) /\
  reachable_b64 default_config_b64 REL_WHEEL_HI_RES coasting_b64 /\
  (-1 < emit_accum coasting_b64 /\ emit_accum coasting_b64 < 1).
Proof.
  assert (Hf0 : 0 <= friction default_config_b64)
    by (apply Qle_bool_iff; vm_compute; reflexivity).
  assert (Hf1 : friction default_config_b64 <= 1)
    by (apply Qle_bool_iff; vm_compute; reflexivity).
  assert (H : reachable_b64 default_config_b64 REL_WHEEL_HI_RES coasting_b64).
  { unfold coasting_b64. apply reach_b64_step.
    - apply reach_b64_step; [apply reach_b64_zero | vm_compute; reflexivity].
    - vm_compute. reflexivity. }
  split; [split; [exact Hf0 | exact Hf1] |]. split; [exact H |].
  exact (reachable_b64_remainder_bound default_config_b64 REL_WHEEL_HI_RES
           coasting_b64 Hf0 Hf1 H).
Defined.

(** X21: how far the carry can be from zero.  A timer tick keeps a
    carry that is strictly within one coarse unit strictly within one
    coarse unit; an impulse, whose force-emit fallback moves the carry
    without running the coarse-unit loops, keeps it within one coarse
    unit, bounds included. *)
Theorem carry_stays_within_one_coarse_unit
    (cfg : config) (hc : Z) (a : axis_state) (op : axis_op) :
  (- HIRES_PER_TICK < lowres_accum a < HIRES_PER_TICK)%Z ->
  match op with
  | Tick =>
      (- HIRES_PER_TICK < lowres_accum (fst (axis_step cfg hc a op))
       < HIRES_PER_TICK)%Z
  | Impulse _ _ _ =>
      (- HIRES_PER_TICK <= lowres_accum (fst (axis_step cfg hc a op))
       <= HIRES_PER_TICK)%Z
  end.
Proof.
  intros Hb. destruct op as [| raw ts scale].
  - rewrite axis_step_tick. now apply emit_axis_carry_bound.
  - cbn [axis_step]. unfold on_impulse, inject.
    set (b := injected _ raw scale cfg).
    assert (Hb0 : (- HIRES_PER_TICK < lowres_accum b < HIRES_PER_TICK)%Z)
      by exact Hb.
    pose proof (emit_axis_carry_bound cfg hc b Hb0) as Hc.
    destruct (emit_axis b hc cfg) as [[did a2] out]. cbn [fst snd] in Hc.
    destruct (negb did && Qgeb (fabs (velocity a2)) (stop_threshold cfg)).
    + rewrite force_emit_eq. cbn [fst lowres_accum].
      unfold force_dir. destruct (Qltb 0 (velocity a2)); lia.
    + cbn [fst]. lia.
Qed.

Lemma carry_stays_within_one_coarse_unit_witness :
  (- HIRES_PER_TICK < lowres_accum coasting < HIRES_PER_TICK)%Z /\
  (- HIRES_PER_TICK
   < lowres_accum (fst (axis_step default_config REL_WHEEL_HI_RES
                          coasting Tick))
   < HIRES_PER_TICK)%Z.
Proof.
  assert (H : (- HIRES_PER_TICK < lowres_accum coasting < HIRES_PER_TICK)%Z)
    by (vm_compute; split; reflexivity).
  split; [exact H |].
  exact (carry_stays_within_one_coarse_unit default_config REL_WHEEL_HI_RES
           coasting Tick H).
Defined.

(** * The rate of a burst *)

Lemma in_window_all (now : Z) (l : list Z) :
  Forall (fun t => (now - RATE_WINDOW_NS <= t)%Z) l -> in_window now l = l.
Proof.
  induction 1 as [| t l Ht _ IH]; [reflexivity |].
  rewrite in_window_cons, IH.
  destruct (Z.leb_spec (now - RATE_WINDOW_NS) t); [reflexivity | lia].
Qed.

Lemma fold_min_lower (m t : Z) (l : list Z) :
  (m <= t)%Z -> Forall (fun x => (m <= x)%Z) l ->
  (m <= fold_right Z.min t l)%Z.
Proof.
  intros Ht H. induction H as [| x l Hx _ IH]; simpl; lia.
Qed.

Lemma fold_min_attained (m t : Z) (l : list Z) :
  In m (t :: l) -> (fold_right Z.min t l <= m)%Z.
Proof.
  induction l as [| x l IH]; simpl.
  - intros [-> | []]. lia.
  - intros [-> | [-> | H]].
    + assert (fold_right Z.min m l <= m)%Z by (apply IH; now left). lia.
    + lia.
    + assert (fold_right Z.min t l <= m)%Z by (apply IH; now right). lia.
Qed.

Lemma oldest_of_is (m : Z) (w : list Z) :
  In m w -> Forall (fun x => (m <= x)%Z) w -> oldest_of w = m.
Proof.
  destruct w as [| t l]; [intros [] |]. intros Hin Hall.
  inversion Hall as [| x l' Ht Hl]; subst.
  pose proof (fold_min_lower m t l Ht Hl).
  pose proof (fold_min_attained m t l Hin). cbn [oldest_of]. lia.
Qed.

(** X22: the rate of a burst.  After recording at most 128 time stamps
    that all lie between a first one and the current one, itself
    recorded, no more than 300 ms and no less than a microsecond apart,
    the rate is the number of recordings divided by the seconds from the
    first to the current one. *)
Theorem rate_of_recorded_burst (h : list Z) (first now : Z) :
  In first h -> In now h ->
  Forall (fun t => (first <= t <= now)%Z) h ->
  (2 <= length h <= 128)%nat ->
  (1000 <= now - first <= RATE_WINDOW_NS)%Z ->
  rate_compute (recorded h) now =
  inject_Z (Z.of_nat (length h)) / (inject_Z (now - first) / NS_PER_SEC).
Proof.
  intros Hfirst Hnow Hall Hlen Hspan.
  assert (Hret : retained (recorded h) = rev h).
  { rewrite retained_recorded. apply firstn_all2.
    rewrite length_rev. change (Z.to_nat RATE_RING_SIZE) with 128%nat. lia. }
  assert (Hrev : Forall (fun t => (first <= t <= now)%Z) (rev h)).
  { rewrite Forall_forall in *. intros x Hx. apply Hall. now apply in_rev. }
  assert (Hwin : in_window now (retained (recorded h)) = rev h).
  { rewrite Hret. apply in_window_all.
    eapply Forall_impl; [| exact Hrev]. cbv beta. intros t Ht. lia. }
  rewrite rate_compute_eq.
  - unfold count_in_window, elapsed_sec. rewrite Hwin, length_rev.
    rewrite (oldest_of_is first).
    + destruct (Z.ltb_spec (Z.of_nat (length h)) 2) as [Hlt | _]; [lia |].
      assert (Hq : 1 # 1000000 <= inject_Z (now - first) / NS_PER_SEC).
      { apply Qle_shift_div_l; [reflexivity |].
        assert (Hi : inject_Z 1000 <= inject_Z (now - first))
          by (rewrite <- Zle_Qle; lia).
        assert (E : (1 # 1000000) * NS_PER_SEC == inject_Z 1000)
          by reflexivity.
        rewrite E. exact Hi. }
      apply Qltb_ge in Hq. now rewrite Hq.
    + now apply -> in_rev.
    + eapply Forall_impl; [| exact Hrev]. cbv beta. intros t Ht. lia.
  - rewrite Hret. eapply Forall_impl; [| exact Hrev].
    cbv beta. intros t Ht. lia.
Qed.

Lemma rate_of_recorded_burst_witness :
  let h := [1000000000; 1010000000; 1020000000]%Z in
  In 1000000000%Z h /\ In 1020000000%Z h /\
  rate_compute (recorded h) 1020000000 =
  inject_Z (Z.of_nat (length h)) /
  (inject_Z (1020000000 - 1000000000) / NS_PER_SEC).
Proof.
  cbv zeta.
  assert (H1 : In 1000000000%Z [1000000000; 1010000000; 1020000000]%Z)
    by (now left).
  assert (H2 : In 1020000000%Z [1000000000; 1010000000; 1020000000]%Z)
    by (right; right; now left).
  split; [exact H1 |]. split; [exact H2 |].
  apply (rate_of_recorded_burst _ 1000000000 1020000000 H1 H2).
  - repeat constructor; lia.
  - simpl; lia.
  - unfold RATE_WINDOW_NS. lia.
Defined.
